(** * Google Maps script loader: model and verification

    A shallow embedding of [GoogleMapsLoaderImpl]
    (src/lib/google-map-api-loader.example.ts) together with the part of the
    browser it talks to: the [window] slots [google] and
    [__googleMapsCallback__], the script elements of the document, and the
    promises handed to callers.

    Strings are byte strings: a JavaScript string is represented by its
    UTF-8 encoding, which is what [URLSearchParams] serialises. *)

From Stdlib Require Import String Ascii Arith Bool Lia.
From stdpp Require Import base option list strings.

Local Open Scope string_scope.
Local Open Scope nat_scope.
Local Open Scope list_scope.

(** ** URLSearchParams

    The platform class used by [buildUrl].  Only [append] and [toString] are
    needed.  [toString] is the application/x-www-form-urlencoded serialiser
    of the URL standard: every byte other than an ASCII letter, a digit or
    one of [*-._] is escaped as [%XX] (upper-case hexadecimal), except the
    space, which becomes [+]; pairs are written [name=value] and joined by
    [&]. *)

Module URLSearchParams.

Definition t : Type := list (string * string).

Definition new : t := [].

Definition append (name value : string) (params : t) : t :=
  params ++ [(name, value)].

Definition is_alnum (n : nat) : bool :=
  ((48 <=? n) && (n <=? 57)) || ((65 <=? n) && (n <=? 90))
  || ((97 <=? n) && (n <=? 122)).

(** Bytes outside the form-urlencoded percent-encode set. *)
Definition is_plain (c : ascii) : bool :=
  let n := nat_of_ascii c in
  is_alnum n || (n =? 42) || (n =? 45) || (n =? 46) || (n =? 95).

Definition hex_digit (n : nat) : ascii :=
  if n <? 10 then ascii_of_nat (48 + n) else ascii_of_nat (55 + n).

Definition percent_encode (c : ascii) : string :=
  let n := nat_of_ascii c in
  String "%" (String (hex_digit (n / 16)) (String (hex_digit (n mod 16)) "")).

Definition encode_byte (c : ascii) : string :=
  if Ascii.eqb c " " then "+"
  else if is_plain c then String c ""
  else percent_encode c.

Fixpoint encode (s : string) : string :=
  match s with
  | EmptyString => ""
  | String c rest => encode_byte c +:+ encode rest
  end.

Definition serialize_pair (p : string * string) : string :=
  encode (fst p) +:+ "=" +:+ encode (snd p).

Definition toString (params : t) : string :=
  String.concat "&" (map serialize_pair params).

(** [new URLSearchParams(query)]: the application/x-www-form-urlencoded
    parser.  The query is cut at every [&]; empty pieces are skipped; a piece
    is cut at its first [=]; in both halves [+] stands for a space and
    [%XX] for the byte with that hexadecimal code. *)

Definition hex_value (c : ascii) : option nat :=
  let n := nat_of_ascii c in
  if (48 <=? n) && (n <=? 57) then Some (n - 48)
  else if (65 <=? n) && (n <=? 70) then Some (n - 55)
  else if (97 <=? n) && (n <=? 102) then Some (n - 87)
  else None.

Fixpoint decode (s : string) : string :=
  match s with
  | EmptyString => ""
  | String c rest =>
      if Ascii.eqb c "+" then String " " (decode rest)
      else if Ascii.eqb c "%" then
        match rest with
        | String h (String l rest') =>
            match hex_value h, hex_value l with
            | Some a, Some b => String (ascii_of_nat (16 * a + b)) (decode rest')
            | _, _ => String c (decode rest)
            end
        | _ => String c (decode rest)
        end
      else String c (decode rest)
  end.

(** [s.split(sep)] for a one-character separator. *)
Fixpoint split_on (sep : ascii) (s : string) : list string :=
  match s with
  | EmptyString => [""]
  | String c rest =>
      if Ascii.eqb c sep then "" :: split_on sep rest
      else match split_on sep rest with
           | piece :: pieces => String c piece :: pieces
           | [] => [String c ""]
           end
  end.

(** The text before the first [sep] and the text after it (empty when there
    is no [sep]). *)
Fixpoint cut_at (sep : ascii) (s : string) : string * string :=
  match s with
  | EmptyString => ("", "")
  | String c rest =>
      if Ascii.eqb c sep then ("", rest)
      else (String c (cut_at sep rest).1, (cut_at sep rest).2)
  end.

Definition nonempty (s : string) : bool := negb (String.eqb s "").

Definition parse_pair (piece : string) : string * string :=
  (decode (cut_at "=" piece).1, decode (cut_at "=" piece).2).

Definition parse (query : string) : t :=
  map parse_pair (List.filter nonempty (split_on "&" query)).

(** No character of [s] is [c]. *)
Fixpoint free_of (c : ascii) (s : string) : bool :=
  match s with
  | EmptyString => true
  | String c' rest => negb (Ascii.eqb c' c) && free_of c rest
  end.

(** Every character of [s] is written as it is by [encode]. *)
Fixpoint all_plain (s : string) : bool :=
  match s with
  | EmptyString => true
  | String c rest => is_plain c && all_plain rest
  end.

End URLSearchParams.

(** ** Load options and URL construction *)

Record LoadOptions := {
  libraries : option (list string);
  language : option string;
  region : option string;
}.

(** JavaScript truthiness of a string: every string but the empty one. *)
Definition truthy (s : string) : bool := negb (String.eqb s "").

(** Truthiness of an [object | undefined]: every object is truthy,
    [undefined] is not. *)
Definition defined {A} (v : option A) : bool :=
  match v with
  | Some _ => true
  | None => false
  end.

(** [Array.prototype.join] on an array of strings. *)
Definition join (sep : string) (xs : list string) : string :=
  String.concat sep xs.

(** [buildUrl(apiKey, options?)].  [options ≫= f] is [options?.f], and
    [undefined] is not truthy. *)
Definition buildUrl (apiKey : string) (options : option LoadOptions) : string :=
  let params := URLSearchParams.new in
  let params := URLSearchParams.append "key" apiKey params in
  let params :=
    match options ≫= libraries with
    | Some libs =>
        if 0 <? length libs
        then URLSearchParams.append "libraries" (join "," libs) params
        else params
    | None => params
    end in
  let params :=
    match options ≫= language with
    | Some lang =>
        if truthy lang then URLSearchParams.append "language" lang params
        else params
    | None => params
    end in
  let params :=
    match options ≫= region with
    | Some reg =>
        if truthy reg then URLSearchParams.append "region" reg params
        else params
    | None => params
    end in
  "https://maps.googleapis.com/maps/api/js?" +:+ URLSearchParams.toString params.

(** The parameters a URL carries: its query, the text after the first [?],
    as [URLSearchParams] reads it. *)
Definition url_parameters (url : string) : URLSearchParams.t :=
  URLSearchParams.parse (URLSearchParams.cut_at "?" url).2.

Definition has_parameter (name url : string) : bool :=
  existsb (fun p => String.eqb p.1 name) (url_parameters url).

(** The parameters of the URL, in words: the key; then the libraries,
    joined by commas, when the list is given and not empty; then the
    language and then the region, each when given and not the empty
    string. *)
Definition expected_parameters (apiKey : string) (options : option LoadOptions)
    : list (string * string) :=
  [("key", apiKey)]
  ++ match options ≫= libraries with
     | Some (lib :: libs) => [("libraries", join "," (lib :: libs))]
     | _ => []
     end
  ++ match options ≫= language with
     | Some l => if String.eqb l "" then [] else [("language", l)]
     | None => []
     end
  ++ match options ≫= region with
     | Some r => if String.eqb r "" then [] else [("region", r)]
     | None => []
     end.

(** ** Values, promises and the browser state *)

(** Promises and script elements are heap objects; they are identified by
    their index in the store that holds them. *)
Definition pid : Type := nat.
Definition eid : Type := nat.

(** Thrown and rejected values: [new Error(message)], or the [TypeError] the
    platform raises. *)
Inductive exn : Type :=
  | Error (message : string)
  | TypeError (message : string).

Inductive Settlement (A : Type) : Type :=
  | Pending
  | Fulfilled (v : A)
  | Rejected (e : exn).
Arguments Pending {A}.
Arguments Fulfilled {A} v.
Arguments Rejected {A} e.

Definition settlement_map {A B} (f : A -> B) (s : Settlement A) : Settlement B :=
  match s with
  | Pending => Pending
  | Fulfilled v => Fulfilled (f v)
  | Rejected e => Rejected e
  end.

(** What the Maps API hands out for a library; opaque to the loader. *)
Definition LibraryObject : Type := nat.

(** [google.maps]: the loader only ever calls its [importLibrary], whose
    promise is described by how it settles. *)
Record MapsNamespace := {
  maps_importLibrary : string -> Settlement LibraryObject;
}.

(** The object in [window.google]; [google_ref] is its identity. *)
Record GoogleObject := {
  google_ref : nat;
  maps : option MapsNamespace;
}.

Inductive value : Type :=
  | VUndefined
  | VGoogle (g : GoogleObject)
  | VLibrary (l : LibraryObject).

(** [window.google as GoogleMapsAPI]: the cast does not check anything. *)
Definition as_GoogleMapsAPI (g : option GoogleObject) : value :=
  match g with
  | Some g => VGoogle g
  | None => VUndefined
  end.

(** The two closures [load] creates.  [ResolveLoad p] is
    [() => { delete window[callbackName]; resolve(window.google) }] and
    [RejectLoad p] is
    [() => { delete window[callbackName]; this.loadingPromise = null;
             reject(new Error(...)) }],
    where [resolve] and [reject] are those of promise [p]. *)
Inductive Callback : Type := ResolveLoad (p : pid).
Inductive ErrorHandler : Type := RejectLoad (p : pid).

Record ScriptElement := {
  src : string;
  async : bool;
  defer : bool;
  onerror : option ErrorHandler;
}.

(** The loader instance ([loadingPromise], [scriptElement]), the two
    [window] properties it uses, the script elements attached to the
    document (children of [head], which may be missing, followed by the
    scripts elsewhere in the tree), and the two object stores. *)
Record World := {
  loadingPromise : option pid;
  scriptElement : option eid;
  window_google : option GoogleObject;
  window_callback : option Callback;
  document_head : option (list eid);
  document_rest : list eid;
  scripts : list ScriptElement;
  promises : list (Settlement value);
}.

Definition set_loadingPromise (v : option pid) (w : World) : World :=
  {| loadingPromise := v; scriptElement := scriptElement w;
     window_google := window_google w; window_callback := window_callback w;
     document_head := document_head w; document_rest := document_rest w;
     scripts := scripts w; promises := promises w |}.

Definition set_scriptElement (v : option eid) (w : World) : World :=
  {| loadingPromise := loadingPromise w; scriptElement := v;
     window_google := window_google w; window_callback := window_callback w;
     document_head := document_head w; document_rest := document_rest w;
     scripts := scripts w; promises := promises w |}.

Definition set_window_google (v : option GoogleObject) (w : World) : World :=
  {| loadingPromise := loadingPromise w; scriptElement := scriptElement w;
     window_google := v; window_callback := window_callback w;
     document_head := document_head w; document_rest := document_rest w;
     scripts := scripts w; promises := promises w |}.

Definition set_window_callback (v : option Callback) (w : World) : World :=
  {| loadingPromise := loadingPromise w; scriptElement := scriptElement w;
     window_google := window_google w; window_callback := v;
     document_head := document_head w; document_rest := document_rest w;
     scripts := scripts w; promises := promises w |}.

Definition set_document (h : option (list eid)) (r : list eid) (w : World) : World :=
  {| loadingPromise := loadingPromise w; scriptElement := scriptElement w;
     window_google := window_google w; window_callback := window_callback w;
     document_head := h; document_rest := r;
     scripts := scripts w; promises := promises w |}.

Definition set_scripts (v : list ScriptElement) (w : World) : World :=
  {| loadingPromise := loadingPromise w; scriptElement := scriptElement w;
     window_google := window_google w; window_callback := window_callback w;
     document_head := document_head w; document_rest := document_rest w;
     scripts := v; promises := promises w |}.

Definition set_promises (v : list (Settlement value)) (w : World) : World :=
  {| loadingPromise := loadingPromise w; scriptElement := scriptElement w;
     window_google := window_google w; window_callback := window_callback w;
     document_head := document_head w; document_rest := document_rest w;
     scripts := scripts w; promises := v |}.

(** ** A state monad with exceptions *)

Definition M (A : Type) : Type := World -> (exn + A) * World.

Definition ret {A} (a : A) : M A := fun w => (inr a, w).

Definition throw {A} (e : exn) : M A := fun w => (inl e, w).

Definition bind {A B} (m : M A) (k : A -> M B) : M B :=
  fun w =>
    match m w with
    | (inr a, w') => k a w'
    | (inl e, w') => (inl e, w')
    end.

(** [try { body } catch (error) { handler }]: the state changes made by
    [body] before it threw are kept. *)
Definition try_catch {A} (body : M A) (handler : exn -> M A) : M A :=
  fun w =>
    match body w with
    | (inl e, w') => handler e w'
    | (inr a, w') => (inr a, w')
    end.

Definition get {A} (f : World -> A) : M A := fun w => (inr (f w), w).

Definition modify (f : World -> World) : M unit := fun w => (inr tt, f w).

Declare Scope js_scope.
Delimit Scope js_scope with js.
Notation "x <- c1 ;; c2" := (bind c1 (fun x => c2))
  (at level 100, c1 at next level, right associativity) : js_scope.
Notation "c1 ;; c2" := (bind c1 (fun _ => c2))
  (at level 100, right associativity) : js_scope.
Local Open Scope js_scope.

(** ** Promises *)

(** [new Promise(...)]: a fresh pending promise. *)
Definition new_promise : M pid :=
  fun w => (inr (length (promises w)),
            set_promises (promises w ++ [Pending]) w).

(** The [resolve] and [reject] functions of promise [p]: only the first
    call on a pending promise has an effect. *)
Definition settle (p : pid) (s : Settlement value) : M unit :=
  fun w =>
    match promises w !! p with
    | Some Pending => (inr tt, set_promises (<[p := s]> (promises w)) w)
    | _ => (inr tt, w)
    end.

Definition resolve (p : pid) (v : value) : M unit := settle p (Fulfilled v).
Definition reject (p : pid) (e : exn) : M unit := settle p (Rejected e).

(** A promise created already settled: [Promise.resolve(v)],
    [Promise.reject(e)], and the promise of an [async] function. *)
Definition settled_promise (s : Settlement value) : M pid :=
  fun w => (inr (length (promises w)), set_promises (promises w ++ [s]) w).

Definition Promise_resolve (v : value) : M pid := settled_promise (Fulfilled v).
Definition Promise_reject (e : exn) : M pid := settled_promise (Rejected e).

(** [async () => body]: the promise takes the settlement [body] returns
    (what it awaits), or is rejected with what [body] throws. *)
Definition async_function (body : M (Settlement value)) : M pid :=
  fun w =>
    match body w with
    | (inr s, w') => settled_promise s w'
    | (inl e, w') => settled_promise (Rejected e) w'
    end.

(** ** Document *)

Definition attached (w : World) : list eid :=
  default [] (document_head w) ++ document_rest w.

(** [document.contains(e)] *)
Definition document_contains (e : eid) : M bool :=
  get (fun w => bool_decide (e ∈ attached w)).

(** [document.createElement('script')] *)
Definition createElement_script : M eid :=
  fun w => (inr (length (scripts w)),
            set_scripts (scripts w ++
              [{| src := ""; async := false; defer := false; onerror := None |}]) w).

Definition update_element (e : eid) (f : ScriptElement -> ScriptElement) : M unit :=
  modify (fun w =>
    match scripts w !! e with
    | Some el => set_scripts (<[e := f el]> (scripts w)) w
    | None => w
    end).

Definition set_src (e : eid) (url : string) : M unit :=
  update_element e (fun el =>
    {| src := url; async := async el; defer := defer el; onerror := onerror el |}).

Definition set_async (e : eid) (b : bool) : M unit :=
  update_element e (fun el =>
    {| src := src el; async := b; defer := defer el; onerror := onerror el |}).

Definition set_defer (e : eid) (b : bool) : M unit :=
  update_element e (fun el =>
    {| src := src el; async := async el; defer := b; onerror := onerror el |}).

Definition set_onerror (e : eid) (h : option ErrorHandler) : M unit :=
  update_element e (fun el =>
    {| src := src el; async := async el; defer := defer el; onerror := h |}).

(** [document.head.appendChild(e)] for a node that is not in the tree yet;
    [document.head] is [null] in a document without a head element. *)
Definition head_appendChild (e : eid) : M unit :=
  fun w =>
    match document_head w with
    | Some children =>
        (inr tt, set_document (Some (children ++ [e])) (document_rest w) w)
    | None =>
        (inl (TypeError "Cannot read properties of null (reading 'appendChild')"), w)
    end.

(** [e.remove()] *)
Definition element_remove (e : eid) : M unit :=
  modify (fun w =>
    set_document (filter (fun x => x ≠ e) <$> document_head w)
                 (filter (fun x => x ≠ e) (document_rest w)) w).

Definition is_substring (pat s : string) : bool :=
  match String.index 0 pat s with
  | Some _ => true
  | None => false
  end.

(** [document.querySelector('script[src*="maps.googleapis.com/maps/api/js"]')]:
    the first attached script, in tree order, whose [src] contains the text. *)
Definition querySelector_maps_script : M (option eid) :=
  get (fun w =>
    List.find (fun e =>
        match scripts w !! e with
        | Some el => is_substring "maps.googleapis.com/maps/api/js" (src el)
        | None => false
        end) (attached w)).

(** ** The loader: [GoogleMapsLoaderImpl] *)

Definition callbackName : string := "__googleMapsCallback__".

Definition SCRIPT_LOAD_ERROR : string := "Failed to load Google Maps script".

Definition NOT_LOADING_ERROR : string :=
  "Google Maps is not loaded and no load is in progress. Call load() first.".

Definition NOT_LOADED_ERROR : string :=
  "Google Maps API must be loaded before importing libraries. Call load() first.".

(** [isLoaded()]: [window.google] and [window.google.maps] are both defined.
    It only reads the state, so it is a function of it; callers [get] it. *)
Definition isLoaded (w : World) : bool :=
  match window_google w with
  | Some g => match maps g with Some _ => true | None => false end
  | None => false
  end.

(** [addScript(url)] *)
Definition addScript (url : string) : M eid :=
  script <- createElement_script;;
  set_src script url;;
  set_async script true;;
  set_defer script true;;
  head_appendChild script;;
  ret script.

(** The callback registered under [callbackName] by [load]. *)
Definition run_callback (c : Callback) : M unit :=
  match c with
  | ResolveLoad p =>
      modify (set_window_callback None);;
      g <- get window_google;;
      resolve p (as_GoogleMapsAPI g)
  end.

(** The [onerror] handler installed by [load]. *)
Definition run_error_handler (h : ErrorHandler) : M unit :=
  match h with
  | RejectLoad p =>
      modify (set_window_callback None);;
      modify (set_loadingPromise None);;
      reject p (Error SCRIPT_LOAD_ERROR)
  end.

(** [load(apiKey, options?)].  The promise executor runs inside
    [new Promise], before the new promise is stored in [loadingPromise]. *)
Definition load (apiKey : string) (options : option LoadOptions) : M pid :=
  loaded <- get isLoaded;;
  if loaded then
    g <- get window_google;;
    Promise_resolve (as_GoogleMapsAPI g)
  else
    inflight <- get loadingPromise;;
    match inflight with
    | Some p => ret p
    | None =>
        let url := buildUrl apiKey options in
        p <- new_promise;;
        modify (set_window_callback (Some (ResolveLoad p)));;
        let scriptUrl := url +:+ "&callback=" +:+ callbackName in
        try_catch
          (script <- addScript scriptUrl;;
           modify (set_scriptElement (Some script));;
           set_onerror script (Some (RejectLoad p)))
          (fun error =>
             modify (set_window_callback None);;
             modify (set_loadingPromise None);;
             reject p error);;
        modify (set_loadingPromise (Some p));;
        ret p
    end.

(** [wait()] *)
Definition wait : M pid :=
  loaded <- get isLoaded;;
  if loaded then
    g <- get window_google;;
    Promise_resolve (as_GoogleMapsAPI g)
  else
    inflight <- get loadingPromise;;
    match inflight with
    | Some p => ret p
    | None => Promise_reject (Error NOT_LOADING_ERROR)
    end.

(** [(google.maps as any).importLibrary(libraryName)] on the global. *)
Definition native_importLibrary (libraryName : string) : M (Settlement value) :=
  g <- get window_google;;
  match g ≫= maps with
  | Some m => ret (settlement_map VLibrary (maps_importLibrary m libraryName))
  | None => throw (TypeError "Cannot read properties of undefined")
  end.

(** [async importLibrary(libraryName)] *)
Definition importLibrary (libraryName : string) : M pid :=
  async_function
    (loaded <- get isLoaded;;
     if negb loaded then throw (Error NOT_LOADED_ERROR)
     else native_importLibrary libraryName).

(** [getScript()] *)
Definition getScript : M (option eid) :=
  remembered <- get scriptElement;;
  still_there <- match remembered with
                 | Some e => document_contains e
                 | None => ret false
                 end;;
  if still_there then ret remembered
  else
    existingScript <- querySelector_maps_script;;
    match existingScript with
    | Some e => modify (set_scriptElement (Some e));; ret (Some e)
    | None => ret None
    end.

(** [dispose()] *)
Definition dispose : M unit :=
  remembered <- get scriptElement;;
  match remembered with
  | Some e =>
      there <- document_contains e;;
      if there then element_remove e else ret tt
  | None => ret tt
  end;;
  modify (set_scriptElement None);;
  modify (set_loadingPromise None);;
  g <- get window_google;;
  (if defined g then modify (set_window_google None) else ret tt);;
  cb <- get window_callback;;
  (if defined cb then modify (set_window_callback None) else ret tt).

(** ** What the browser does to the loader *)

(** The fetched Maps script runs: it installs [window.google] and calls the
    function named by the [callback] query parameter, if there is one. *)
Definition script_loaded (g : GoogleObject) : M unit :=
  modify (set_window_google (Some g));;
  cb <- get window_callback;;
  match cb with
  | Some c => run_callback c
  | None => ret tt
  end.

(** The [error] event is fired at script element [e] and its [onerror]
    handler runs.  The element need not be in the document any more:
    removing a script element does not cancel the fetch that its insertion
    started. *)
Definition script_error (e : eid) : M unit :=
  el <- get (fun w => scripts w !! e);;
  match el ≫= onerror with
  | Some h => run_error_handler h
  | None => ret tt
  end.

(** ** Runs *)

(** The state after running [m]. *)
Definition exec {A} (m : M A) (w : World) : World := snd (m w).

(** Several [load] calls in a row, with nothing happening in between. *)
Fixpoint load_all (calls : list (string * option LoadOptions)) : M (list pid) :=
  match calls with
  | [] => ret []
  | (apiKey, options) :: rest =>
      p <- load apiKey options;;
      ps <- load_all rest;;
      ret (p :: ps)
  end.

(** What can happen to the page: a call of one of the loader's methods, or
    one of the two browser events. *)
Inductive Action : Type :=
  | CallLoad (apiKey : string) (options : option LoadOptions)
  | CallWait
  | CallImportLibrary (libraryName : string)
  | CallGetScript
  | CallDispose
  | ScriptLoaded (g : GoogleObject)
  | ScriptError (e : eid).

Definition step (a : Action) (w : World) : World :=
  match a with
  | CallLoad apiKey options => exec (load apiKey options) w
  | CallWait => exec wait w
  | CallImportLibrary libraryName => exec (importLibrary libraryName) w
  | CallGetScript => exec getScript w
  | CallDispose => exec dispose w
  | ScriptLoaded g => exec (script_loaded g) w
  | ScriptError e => exec (script_error e) w
  end.

Fixpoint run (actions : list Action) (w : World) : World :=
  match actions with
  | [] => w
  | a :: rest => run rest (step a w)
  end.

(** The [onerror] handler of script element [e], if it has one. *)
Definition handler_of (w : World) (e : eid) : option ErrorHandler :=
  scripts w !! e ≫= onerror.

(** Nothing in [w] can settle promise [p] except the error handlers that
    could already settle it in [w0]: [p] is pending, the global callback is
    not the one that resolves [p], and the script elements whose handler
    rejects [p] had that handler in [w0]. *)
Definition orphaned (p : pid) (w0 w : World) : Prop :=
  promises w !! p = Some Pending /\
  window_callback w ≠ Some (ResolveLoad p) /\
  forall e, handler_of w e = Some (RejectLoad p) ->
            handler_of w0 e = Some (RejectLoad p).

(** The state [load] leaves behind when it starts a load for [url] from
    state [w] in a document with head children [children]. *)
Definition loading_state (url : string) (children : list eid) (w : World) : World :=
  {| loadingPromise := Some (length (promises w));
     scriptElement := Some (length (scripts w));
     window_google := window_google w;
     window_callback := Some (ResolveLoad (length (promises w)));
     document_head := Some (children ++ [length (scripts w)]);
     document_rest := document_rest w;
     scripts := scripts w ++
       [{| src := url +:+ "&callback=" +:+ callbackName;
           async := true; defer := true;
           onerror := Some (RejectLoad (length (promises w))) |}];
     promises := promises w ++ [Pending] |}.

(** A page in which nothing has happened yet. *)
Definition fresh_page : World :=
  {| loadingPromise := None; scriptElement := None;
     window_google := None; window_callback := None;
     document_head := Some []; document_rest := [];
     scripts := []; promises := [] |}.

Definition demo_maps : MapsNamespace :=
  {| maps_importLibrary := fun name =>
       if String.eqb name "places" then Fulfilled 7
       else Rejected (Error "unknown library") |}.

Definition demo_google : GoogleObject :=
  {| google_ref := 1; maps := Some demo_maps |}.


(** ** Further notions used to state properties of the loader *)

(** A load is started and the error event then reaches the script it
    injected: one failed attempt, as a caller that retries sees it. *)
Definition failed_attempt (apiKey : string) (options : option LoadOptions) : M unit :=
  load apiKey options;;
  script <- get scriptElement;;
  match script with
  | Some e => script_error e
  | None => ret tt
  end.

Fixpoint failed_attempts (n : nat) (apiKey : string) (options : option LoadOptions)
    : M unit :=
  match n with
  | 0 => ret tt
  | S n' => failed_attempt apiKey options;; failed_attempts n' apiKey options
  end.

(** The calls of the loader's methods, as opposed to the browser events. *)
Definition is_call (a : Action) : bool :=
  match a with
  | ScriptLoaded _ | ScriptError _ => false
  | _ => true
  end.

(** The global callback, when registered, belongs to the load in flight,
    whose promise is pending. *)
Definition callback_in_flight (w : World) : Prop :=
  forall p, window_callback w = Some (ResolveLoad p) ->
    loadingPromise w = Some p /\ promises w !! p = Some Pending.

(** The steps that neither dispose nor let a Maps script run. *)
Definition keeps_api (a : Action) : bool :=
  match a with
  | CallDispose | ScriptLoaded _ => false
  | _ => true
  end.

(** The remembered script element is still in the document. *)
Definition remembered_attached (w : World) : bool :=
  match scriptElement w with
  | Some e => bool_decide (e ∈ attached w)
  | None => false
  end.

(** The test of the selector of [getScript], and the first attached script
    that passes it. *)
Definition is_maps_script (w : World) (e : eid) : bool :=
  match scripts w !! e with
  | Some el => is_substring "maps.googleapis.com/maps/api/js" (src el)
  | None => false
  end.

Definition first_maps_script (w : World) : option eid :=
  List.find (is_maps_script w) (attached w).

(** A page whose HTML already carries a Maps script tag, in the body, which
    the loader did not create. *)
Definition page_with_static_script : World :=
  {| loadingPromise := None; scriptElement := None;
     window_google := None; window_callback := None;
     document_head := Some []; document_rest := [0];
     scripts := [{| src := "https://maps.googleapis.com/maps/api/js?key=STATIC";
                    async := false; defer := false; onerror := None |}];
     promises := [] |}.

(** A document that has no head element. *)
Definition headless_page : World :=
  {| loadingPromise := None; scriptElement := None;
     window_google := None; window_callback := None;
     document_head := None; document_rest := [];
     scripts := []; promises := [] |}.

(** The element [addScript url] creates. *)
Definition new_script (url : string) : ScriptElement :=
  {| src := url; async := true; defer := true; onerror := None |}.

(** ** create-context.tsx

    [createContext(rootComponentName, defaultValue?)] makes a React context
    whose default is [defaultValue] and returns a [Provider] component and
    a hook.  A value of type [ContextValue | undefined] is an [option]:
    [None] is [undefined] ([null] is a context value like any other). *)

Module CreateContext.

Section WithValue.

Variable ContextValue : Type.

(** The value the [Provider] component passes down: its props without
    [children] (memoised, so possibly an earlier props object with the same
    property values).  It is an object, never [undefined]. *)
Definition Provider_value (props : ContextValue) : option ContextValue :=
  Some props.

(** React's [useContext]: the value of the nearest enclosing provider of
    the context, or the default the context was created with.  [enclosing]
    lists the values of the enclosing providers, innermost first. *)
Definition useReactContext (defaultValue : option ContextValue)
    (enclosing : list (option ContextValue)) : option ContextValue :=
  match enclosing with
  | v :: _ => v
  | [] => defaultValue
  end.

(** [Provider.displayName] *)
Definition displayName (rootComponentName : string) : string :=
  rootComponentName +:+ "Provider".

(** [useContextValue()], called in a component below the [Provider]s whose
    props are [providers], innermost first. *)
Definition useContextValue (rootComponentName : string)
    (defaultValue : option ContextValue) (providers : list ContextValue)
    : exn + ContextValue :=
  let context := useReactContext defaultValue (map Provider_value providers) in
  match context with
  | Some c => inr c
  | None =>
      match defaultValue with
      | Some d => inr d
      | None =>
          inl (Error ("useContext must be used within `" +:+ rootComponentName
                      +:+ "Provider`."))
      end
  end.

End WithValue.

End CreateContext.

(** The two contexts of the map components (use-map.ts and
    use-google-maps-api.ts) and their hooks. *)

Definition MapId : Type := nat.

Record MapContextValue := {
  ctx_map : option MapId;
}.

Record GoogleMapsAPIContextValue := {
  ctx_google : option GoogleObject;
  ctx_isLoading : bool;
  ctx_error : option exn;
}.

Definition useMap (providers : list MapContextValue) : exn + MapContextValue :=
  CreateContext.useContextValue MapContextValue "Map"
    (Some {| ctx_map := None |}) providers.

Definition useGoogleMapsAPI (providers : list GoogleMapsAPIContextValue)
    : exn + GoogleMapsAPIContextValue :=
  CreateContext.useContextValue GoogleMapsAPIContextValue "GoogleMapsAPI"
    (Some {| ctx_google := None; ctx_isLoading := true; ctx_error := None |})
    providers.

(** ** The singleton: getInstance, resetInstance and the exported loader

    Objects of class [GoogleMapsLoaderImpl] are identified by their index
    in the list of the objects constructed so far.  The loader methods
    above are written for one object, whose two fields they find in the
    [World]; a method call on an object first puts the fields of that
    object there and stores them back afterwards. *)

Definition oid : Type := nat.

Record LoaderObject := {
  own_loadingPromise : option pid;
  own_scriptElement : option eid;
}.

(** [owners] records, for each promise, the object whose method created
    it: that object is the [this] of the error handler [load] installed
    for the promise.  The loader fields of [page] are those of the object
    that ran last. *)
Record Program := {
  instance : option oid;
  objects : list LoaderObject;
  owners : list oid;
  page : World;
}.

Definition focus (obj : LoaderObject) (w : World) : World :=
  set_loadingPromise (own_loadingPromise obj)
    (set_scriptElement (own_scriptElement obj) w).

Definition fields_of (w : World) : LoaderObject :=
  {| own_loadingPromise := loadingPromise w;
     own_scriptElement := scriptElement w |}.

(** [o.m(...)]: method [m] runs with [this = o]. *)
Definition call {A} (o : oid) (m : M A) (s : Program) : (exn + A) * Program :=
  match objects s !! o with
  | Some obj =>
      let r := m (focus obj (page s)) in
      (r.1,
       {| instance := instance s;
          objects := <[o := fields_of r.2]> (objects s);
          owners := owners s ++
            replicate (length (promises r.2) - length (promises (page s))) o;
          page := r.2 |})
  | None => (inl (TypeError "not an object"), s)
  end.

(** [new GoogleMapsLoaderImpl()] *)
Definition new_loader : LoaderObject :=
  {| own_loadingPromise := None; own_scriptElement := None |}.

(** [GoogleMapsLoaderImpl.getInstance()] *)
Definition getInstance (s : Program) : oid * Program :=
  match instance s with
  | Some o => (o, s)
  | None =>
      (length (objects s),
       {| instance := Some (length (objects s));
          objects := objects s ++ [new_loader];
          owners := owners s;
          page := page s |})
  end.

(** [GoogleMapsLoaderImpl.resetInstance()] *)
Definition resetInstance (s : Program) : Program :=
  match instance s with
  | Some o =>
      let s' := (call o dispose s).2 in
      {| instance := None; objects := objects s';
         owners := owners s'; page := page s' |}
  | None => s
  end.

(** The Maps script runs: its callback does not use [this]. *)
Definition program_script_loaded (g : GoogleObject) (s : Program) : Program :=
  {| instance := instance s; objects := objects s; owners := owners s;
     page := exec (script_loaded g) (page s) |}.

(** The error event at element [e]: its handler runs with the [this] it
    was created with. *)
Definition program_script_error (e : eid) (s : Program) : Program :=
  match handler_of (page s) e with
  | Some (RejectLoad p) =>
      match owners s !! p with
      | Some o => (call o (script_error e) s).2
      | None => s
      end
  | None => s
  end.

(** The module has been evaluated in page [w]:
    [export const googleMapsLoader = GoogleMapsLoaderImpl.getInstance()]
    has constructed the first object. *)
Definition module_loaded (w : World) : Program :=
  (getInstance {| instance := None; objects := []; owners := []; page := w |}).2.

Definition googleMapsLoader : oid := 0.

(** ** Effects of a function component

    The part of React that the map components rely on.  A component
    declares its effects in a fixed order.  After the first render all of
    them run, in that order.  After a later render those whose dependency
    array changed ([Object.is], element by element) run again: first the
    cleanups that their previous runs returned, in order, then the effect
    functions, in order.  When the component is removed the remaining
    cleanups run, in order.

    [Render] is what one render sees (props, context values, state cells),
    [State] holds the refs of the component instance and the objects its
    effects act on, and [Closure] is what a cleanup function captured. *)

Module React.

Section Component.

Variables Render State Closure : Type.

Record Effect := {
  same_deps : Render -> Render -> bool;
  setup : Render -> State -> State * option Closure;
  cleanup : Closure -> State -> State;
}.

Variable effects : list Effect.

(** The state of a mounted component: [State] and, for each effect, the
    cleanup that its last run returned, if any. *)
Definition Mounted : Type := State * list (option Closure).

Definition run_cleanup (i : nat) (x : Mounted) : Mounted :=
  match effects !! i, x.2 !! i with
  | Some fx, Some (Some c) => (cleanup fx c x.1, <[i := None]> x.2)
  | _, _ => x
  end.

Definition run_setup (r : Render) (i : nat) (x : Mounted) : Mounted :=
  match effects !! i with
  | Some fx => ((setup fx r x.1).1, <[i := (setup fx r x.1).2]> x.2)
  | None => x
  end.

Definition run_cleanups (which : list nat) (x : Mounted) : Mounted :=
  foldl (fun x i => run_cleanup i x) x which.

Definition run_setups (r : Render) (which : list nat) (x : Mounted) : Mounted :=
  foldl (fun x i => run_setup r i x) x which.

Definition flush (which : list nat) (r : Render) (x : Mounted) : Mounted :=
  run_setups r which (run_cleanups which x).

Definition all_effects : list nat := seq 0 (length effects).

Definition deps_changed (prev next : Render) (i : nat) : bool :=
  match effects !! i with
  | Some fx => negb (same_deps fx prev next)
  | None => false
  end.

Definition changed (prev next : Render) : list nat :=
  List.filter (deps_changed prev next) all_effects.

Definition mount (r : Render) (st : State) : Mounted :=
  flush all_effects r (st, replicate (length effects) None).

Definition update (prev next : Render) (x : Mounted) : Mounted :=
  flush (changed prev next) next x.

Definition unmount (x : Mounted) : Mounted := run_cleanups all_effects x.

(** The renders [rs] that follow render [prev], one commit each. *)
Fixpoint rerender (prev : Render) (rs : list Render) (x : Mounted) : Mounted :=
  match rs with
  | [] => x
  | r :: rest => rerender r rest (update prev r x)
  end.

End Component.

End React.

(** ** The objects of the Maps API that the components create

    JavaScript objects and functions passed around as props (positions,
    click handlers, rendered content) are represented by their reference:
    [Object.is] on them compares references. *)

Definition ObjRef : Type := nat.

Record MarkerObject := {
  marker_position : ObjRef;
  marker_map : option MapId;
  marker_title : option string;
}.

Record AdvancedMarkerObject := {
  adv_position : ObjRef;
  adv_map : option MapId;
  adv_content : option nat;
}.

Inductive Target : Type :=
  | OnMarker (m : nat)
  | OnAdvancedMarker (m : nat)
  | OnMap (m : MapId).

(** A [MapsEventListener]; [live] is false once it has been removed. *)
Record EventListener := {
  listens_on : Target;
  event_name : string;
  handler : ObjRef;
  live : bool;
}.

(** A root made by [createRoot(container)]. *)
Record ReactRoot := {
  root_container : nat;
  root_content : option ObjRef;
  root_mounted : bool;
}.

Record Scene := {
  markers : list MarkerObject;
  advanced_markers : list AdvancedMarkerObject;
  listeners : list EventListener;
  containers : nat;
  roots : list ReactRoot;
}.

Definition empty_scene : Scene :=
  {| markers := []; advanced_markers := []; listeners := [];
     containers := 0; roots := [] |}.

Definition set_markers (v : list MarkerObject) (sc : Scene) : Scene :=
  {| markers := v; advanced_markers := advanced_markers sc;
     listeners := listeners sc; containers := containers sc; roots := roots sc |}.

Definition set_advanced_markers (v : list AdvancedMarkerObject) (sc : Scene) : Scene :=
  {| markers := markers sc; advanced_markers := v;
     listeners := listeners sc; containers := containers sc; roots := roots sc |}.

Definition set_listeners (v : list EventListener) (sc : Scene) : Scene :=
  {| markers := markers sc; advanced_markers := advanced_markers sc;
     listeners := v; containers := containers sc; roots := roots sc |}.

Definition set_containers (v : nat) (sc : Scene) : Scene :=
  {| markers := markers sc; advanced_markers := advanced_markers sc;
     listeners := listeners sc; containers := v; roots := roots sc |}.

Definition set_roots (v : list ReactRoot) (sc : Scene) : Scene :=
  {| markers := markers sc; advanced_markers := advanced_markers sc;
     listeners := listeners sc; containers := containers sc; roots := v |}.

(** [google.maps.event.addListener(target, name, handler)] *)
Definition addListener (target : Target) (name : string) (h : ObjRef) (sc : Scene)
    : nat * Scene :=
  (length (listeners sc),
   set_listeners (listeners sc ++
     [{| listens_on := target; event_name := name; handler := h; live := true |}]) sc).

(** [google.maps.event.removeListener(listener)] *)
Definition removeListener (l : nat) (sc : Scene) : Scene :=
  match listeners sc !! l with
  | Some rec =>
      set_listeners (<[l := {| listens_on := listens_on rec;
                               event_name := event_name rec;
                               handler := handler rec; live := false |}]>
                       (listeners sc)) sc
  | None => sc
  end.

(** [new google.maps.Marker({position, map, title})] *)
Definition new_Marker (position : ObjRef) (map : option MapId) (title : option string)
    (sc : Scene) : nat * Scene :=
  (length (markers sc),
   set_markers (markers sc ++
     [{| marker_position := position; marker_map := map; marker_title := title |}]) sc).

Definition update_marker (m : nat) (f : MarkerObject -> MarkerObject) (sc : Scene) : Scene :=
  match markers sc !! m with
  | Some obj => set_markers (<[m := f obj]> (markers sc)) sc
  | None => sc
  end.

(** [marker.setMap(map)], [marker.setPosition(position)] and
    [marker.setTitle(title)] *)
Definition marker_setMap (m : nat) (map : option MapId) : Scene -> Scene :=
  update_marker m (fun obj =>
    {| marker_position := marker_position obj; marker_map := map;
       marker_title := marker_title obj |}).

Definition marker_setPosition (m : nat) (position : ObjRef) : Scene -> Scene :=
  update_marker m (fun obj =>
    {| marker_position := position; marker_map := marker_map obj;
       marker_title := marker_title obj |}).

Definition marker_setTitle (m : nat) (title : string) : Scene -> Scene :=
  update_marker m (fun obj =>
    {| marker_position := marker_position obj; marker_map := marker_map obj;
       marker_title := Some title |}).

(** ** The Marker component (marker.tsx) *)

(** What a render of [Marker] sees: its props, and the values of the two
    contexts it reads. *)
Record MarkerRender := {
  mk_position : ObjRef;
  mk_mapProp : option MapId;
  mk_title : option string;
  mk_onClick : option ObjRef;
  mk_google : option ObjRef;
  mk_mapContext : option MapId;
}.

(** [const map = mapProp ?? mapContext] *)
Definition mk_map (r : MarkerRender) : option MapId :=
  match mk_mapProp r with
  | Some m => Some m
  | None => mk_mapContext r
  end.

(** The two refs of the component instance, and the scene. *)
Record MarkerState := {
  markerRef : option nat;
  clickListenerRef : option nat;
  mk_scene : Scene;
}.

(** First effect, dependencies [[google, map]]: create the marker. *)
Definition marker_init : React.Effect MarkerRender MarkerState unit :=
  {| React.same_deps := fun prev next =>
       bool_decide (mk_google prev = mk_google next)
       && bool_decide (mk_map prev = mk_map next);
     React.setup := fun r st =>
       match mk_google r, mk_map r with
       | Some _, Some m =>
           let created := new_Marker (mk_position r) (Some m) (mk_title r) (mk_scene st) in
           ({| markerRef := Some created.1;
               clickListenerRef := clickListenerRef st;
               mk_scene := created.2 |},
            Some tt)
       | _, _ => (st, None)
       end;
     React.cleanup := fun _ st =>
       match markerRef st with
       | Some m =>
           {| markerRef := None; clickListenerRef := clickListenerRef st;
              mk_scene := marker_setMap m None (mk_scene st) |}
       | None => st
       end |}.

(** Second effect, dependencies [[position]]. *)
Definition marker_sync_position : React.Effect MarkerRender MarkerState unit :=
  {| React.same_deps := fun prev next =>
       bool_decide (mk_position prev = mk_position next);
     React.setup := fun r st =>
       match markerRef st with
       | Some m =>
           ({| markerRef := markerRef st; clickListenerRef := clickListenerRef st;
               mk_scene := marker_setPosition m (mk_position r) (mk_scene st) |},
            None)
       | None => (st, None)
       end;
     React.cleanup := fun _ st => st |}.

(** Third effect, dependencies [[title]]: [setTitle(title || '')]. *)
Definition marker_sync_title : React.Effect MarkerRender MarkerState unit :=
  {| React.same_deps := fun prev next =>
       bool_decide (mk_title prev = mk_title next);
     React.setup := fun r st =>
       match markerRef st with
       | Some m =>
           ({| markerRef := markerRef st; clickListenerRef := clickListenerRef st;
               mk_scene := marker_setTitle m (default "" (mk_title r)) (mk_scene st) |},
            None)
       | None => (st, None)
       end;
     React.cleanup := fun _ st => st |}.

(** What both the click effect and its cleanup do first: remove the
    listener held in [clickListenerRef], if any. *)
Definition drop_click_listener (st : MarkerState) : MarkerState :=
  match clickListenerRef st with
  | Some l =>
      {| markerRef := markerRef st; clickListenerRef := None;
         mk_scene := removeListener l (mk_scene st) |}
  | None => st
  end.

(** Fourth effect, dependencies [[google, onClick]]. *)
Definition marker_click : React.Effect MarkerRender MarkerState unit :=
  {| React.same_deps := fun prev next =>
       bool_decide (mk_google prev = mk_google next)
       && bool_decide (mk_onClick prev = mk_onClick next);
     React.setup := fun r st =>
       match mk_google r, markerRef st with
       | Some _, Some m =>
           let st1 := drop_click_listener st in
           let st2 :=
             match mk_onClick r with
             | Some h =>
                 let added := addListener (OnMarker m) "click" h (mk_scene st1) in
                 {| markerRef := markerRef st1; clickListenerRef := Some added.1;
                    mk_scene := added.2 |}
             | None => st1
             end in
           (st2, Some tt)
       | _, _ => (st, None)
       end;
     React.cleanup := fun _ st => drop_click_listener st |}.

Definition Marker : list (React.Effect MarkerRender MarkerState unit) :=
  [marker_init; marker_sync_position; marker_sync_title; marker_click].

(** A new instance of the component: both refs are [null]. *)
Definition new_marker_instance (sc : Scene) : MarkerState :=
  {| markerRef := None; clickListenerRef := None; mk_scene := sc |}.

(** Nothing is listening and no marker is on a map. *)
Definition quiet (sc : Scene) : Prop :=
  (forall l rec, listeners sc !! l = Some rec -> live rec = false) /\
  (forall m obj, markers sc !! m = Some obj -> marker_map obj = None).

(** The invariant of a mounted [Marker]: the only live listener is the one
    in [clickListenerRef], the only marker on a map is the one in
    [markerRef], and a ref is set only while the effect that set it has a
    cleanup pending. *)
Definition marker_inv (x : React.Mounted MarkerState unit) : Prop :=
  length x.2 = 4 /\
  (forall l rec, listeners (mk_scene x.1) !! l = Some rec -> live rec = true ->
     clickListenerRef x.1 = Some l) /\
  (forall m obj, markers (mk_scene x.1) !! m = Some obj -> marker_map obj ≠ None ->
     markerRef x.1 = Some m) /\
  (x.2 !! 0 = Some None -> markerRef x.1 = None) /\
  (x.2 !! 3 = Some None -> clickListenerRef x.1 = None).

(** The component holds marker [n], which is on map [m], while the
    listeners are those of scene [sc] and no click listener is held. *)
Definition unheard_marker (sc : Scene) (n : nat) (m : MapId)
    (x : React.Mounted MarkerState unit) : Prop :=
  length x.2 = 4 /\
  markerRef x.1 = Some n /\
  (exists obj, markers (mk_scene x.1) !! n = Some obj /\ marker_map obj = Some m) /\
  listeners (mk_scene x.1) = listeners sc /\
  clickListenerRef x.1 = None.

(** ** The AdvancedMarker component (marker.tsx) *)

(** [new AdvancedMarkerElement({position, map, content})] *)
Definition new_AdvancedMarkerElement (position : ObjRef) (map : option MapId)
    (content : option nat) (sc : Scene) : nat * Scene :=
  (length (advanced_markers sc),
   set_advanced_markers (advanced_markers sc ++
     [{| adv_position := position; adv_map := map; adv_content := content |}]) sc).

Definition update_advanced_marker (m : nat)
    (f : AdvancedMarkerObject -> AdvancedMarkerObject) (sc : Scene) : Scene :=
  match advanced_markers sc !! m with
  | Some obj => set_advanced_markers (<[m := f obj]> (advanced_markers sc)) sc
  | None => sc
  end.

(** [marker.map = map] and [marker.position = position] *)
Definition advanced_set_map (m : nat) (map : option MapId) : Scene -> Scene :=
  update_advanced_marker m (fun obj =>
    {| adv_position := adv_position obj; adv_map := map;
       adv_content := adv_content obj |}).

Definition advanced_set_position (m : nat) (position : ObjRef) : Scene -> Scene :=
  update_advanced_marker m (fun obj =>
    {| adv_position := position; adv_map := adv_map obj;
       adv_content := adv_content obj |}).

(** [document.createElement('div')] *)
Definition createElement_div (sc : Scene) : nat * Scene :=
  (containers sc, set_containers (S (containers sc)) sc).

(** [createRoot(container)] *)
Definition createRoot (container : nat) (sc : Scene) : nat * Scene :=
  (length (roots sc),
   set_roots (roots sc ++
     [{| root_container := container; root_content := None;
         root_mounted := true |}]) sc).

Definition update_root (k : nat) (f : ReactRoot -> ReactRoot) (sc : Scene) : Scene :=
  match roots sc !! k with
  | Some root => set_roots (<[k := f root]> (roots sc)) sc
  | None => sc
  end.

(** [root.render(content)].  React refuses to render into a root that has
    been unmounted; the component never asks for that
    ([root_ref_is_mounted] below), and here such a call changes nothing. *)
Definition root_render (k : nat) (content : option ObjRef) : Scene -> Scene :=
  update_root k (fun root =>
    if root_mounted root
    then {| root_container := root_container root; root_content := content;
            root_mounted := true |}
    else root).

(** [root.unmount()] *)
Definition root_unmount (k : nat) : Scene -> Scene :=
  update_root k (fun root =>
    {| root_container := root_container root; root_content := None;
       root_mounted := false |}).

Module Advanced.

(** What a render of [AdvancedMarker] sees.  [content] is [None] when the
    prop is not given and the reference of the React node otherwise. *)
Record Render := {
  position : ObjRef;
  mapProp : option MapId;
  content : option ObjRef;
  onClick : option ObjRef;
  google : option ObjRef;
  mapContext : option MapId;
}.

(** [const map = mapProp ?? mapContext] *)
Definition map (r : Render) : option MapId :=
  match mapProp r with
  | Some m => Some m
  | None => mapContext r
  end.

(** The four refs of the component instance, the calls of [initMarker]
    that are suspended at [await google.maps.importLibrary('marker')]
    (each holds the props of the render that started it), and the scene. *)
Record State := {
  markerRef : option nat;
  contentContainerRef : option nat;
  reactRootRef : option nat;
  clickListenerRef : option nat;
  waiting : list Render;
  scene : Scene;
}.

Definition set_markerRef (v : option nat) (st : State) : State :=
  {| markerRef := v; contentContainerRef := contentContainerRef st;
     reactRootRef := reactRootRef st; clickListenerRef := clickListenerRef st;
     waiting := waiting st; scene := scene st |}.

Definition set_contentContainerRef (v : option nat) (st : State) : State :=
  {| markerRef := markerRef st; contentContainerRef := v;
     reactRootRef := reactRootRef st; clickListenerRef := clickListenerRef st;
     waiting := waiting st; scene := scene st |}.

Definition set_reactRootRef (v : option nat) (st : State) : State :=
  {| markerRef := markerRef st; contentContainerRef := contentContainerRef st;
     reactRootRef := v; clickListenerRef := clickListenerRef st;
     waiting := waiting st; scene := scene st |}.

Definition set_clickListenerRef (v : option nat) (st : State) : State :=
  {| markerRef := markerRef st; contentContainerRef := contentContainerRef st;
     reactRootRef := reactRootRef st; clickListenerRef := v;
     waiting := waiting st; scene := scene st |}.

Definition set_waiting (v : list Render) (st : State) : State :=
  {| markerRef := markerRef st; contentContainerRef := contentContainerRef st;
     reactRootRef := reactRootRef st; clickListenerRef := clickListenerRef st;
     waiting := v; scene := scene st |}.

Definition set_scene (v : Scene) (st : State) : State :=
  {| markerRef := markerRef st; contentContainerRef := contentContainerRef st;
     reactRootRef := reactRootRef st; clickListenerRef := clickListenerRef st;
     waiting := waiting st; scene := v |}.

(** The cleanup of the first effect. *)
Definition init_cleanup (st : State) : State :=
  let st1 :=
    match reactRootRef st with
    | Some k => set_reactRootRef None (set_scene (root_unmount k (scene st)) st)
    | None => st
    end in
  let st2 :=
    match markerRef st1 with
    | Some m => set_markerRef None (set_scene (advanced_set_map m None (scene st1)) st1)
    | None => st1
    end in
  set_contentContainerRef None st2.

(** First effect, dependencies [[google, map]]: it calls [initMarker],
    which runs up to its [await], and returns the cleanup. *)
Definition init : React.Effect Render State unit :=
  {| React.same_deps := fun prev next =>
       bool_decide (google prev = google next)
       && bool_decide (map prev = map next);
     React.setup := fun r st =>
       match google r, map r with
       | Some _, Some _ => (set_waiting (waiting st ++ [r]) st, Some tt)
       | _, _ => (st, None)
       end;
     React.cleanup := fun _ st => init_cleanup st |}.

(** The rest of [initMarker], run when the import has succeeded; [r] is
    the render whose effect called [initMarker]. *)
Definition initMarker_resumed (r : Render) (st : State) : State :=
  let st1 :=
    match content r with
    | Some c =>
        let div := createElement_div (scene st) in
        let root := createRoot div.1 div.2 in
        set_scene (root_render root.1 (Some c) root.2)
          (set_reactRootRef (Some root.1)
             (set_contentContainerRef (Some div.1) st))
    | None => st
    end in
  let created :=
    new_AdvancedMarkerElement (position r) (map r) (contentContainerRef st1)
      (scene st1) in
  set_scene created.2 (set_markerRef (Some created.1) st1).

(** Second effect, dependencies [[position]]. *)
Definition sync_position : React.Effect Render State unit :=
  {| React.same_deps := fun prev next =>
       bool_decide (position prev = position next);
     React.setup := fun r st =>
       match markerRef st with
       | Some m => (set_scene (advanced_set_position m (position r) (scene st)) st, None)
       | None => (st, None)
       end;
     React.cleanup := fun _ st => st |}.

(** Third effect, dependencies [[content]]. *)
Definition sync_content : React.Effect Render State unit :=
  {| React.same_deps := fun prev next =>
       bool_decide (content prev = content next);
     React.setup := fun r st =>
       match reactRootRef st, contentContainerRef st with
       | Some k, Some _ => (set_scene (root_render k (content r) (scene st)) st, None)
       | _, _ => (st, None)
       end;
     React.cleanup := fun _ st => st |}.

(** What both the click effect and its cleanup do first. *)
Definition drop_click_listener (st : State) : State :=
  match clickListenerRef st with
  | Some l => set_clickListenerRef None (set_scene (removeListener l (scene st)) st)
  | None => st
  end.

(** Fourth effect, dependencies [[google, onClick]]. *)
Definition click : React.Effect Render State unit :=
  {| React.same_deps := fun prev next =>
       bool_decide (google prev = google next)
       && bool_decide (onClick prev = onClick next);
     React.setup := fun r st =>
       match google r, markerRef st with
       | Some _, Some m =>
           let st1 := drop_click_listener st in
           let st2 :=
             match onClick r with
             | Some h =>
                 let added := addListener (OnAdvancedMarker m) "click" h (scene st1) in
                 set_clickListenerRef (Some added.1) (set_scene added.2 st1)
             | None => st1
             end in
           (st2, Some tt)
       | _, _ => (st, None)
       end;
     React.cleanup := fun _ st => drop_click_listener st |}.

Definition effects : list (React.Effect Render State unit) :=
  [init; sync_position; sync_content; click].

(** A new instance of the component: the refs are [null]. *)
Definition new_instance (sc : Scene) : State :=
  {| markerRef := None; contentContainerRef := None; reactRootRef := None;
     clickListenerRef := None; waiting := []; scene := sc |}.

(** How a suspended [initMarker] ends: the import of the marker library
    succeeds and the call goes on, or it fails and the call is over.  [i]
    tells which of the suspended calls it is. *)
Inductive Import : Type :=
  | Imported (i : nat)
  | ImportFailed (i : nat).

Definition settle_import (e : Import) (st : State) : State :=
  match e with
  | Imported i =>
      match waiting st !! i with
      | Some r => initMarker_resumed r (set_waiting (delete i (waiting st)) st)
      | None => st
      end
  | ImportFailed i => set_waiting (delete i (waiting st)) st
  end.

(** What happens to a mounted component: it is rendered again, or one of
    its imports ends. *)
Inductive Event : Type :=
  | Rendered (r : Render)
  | Settles (e : Import).

Definition Mounted : Type := React.Mounted State unit.

(** The events [evs] that follow render [prev]. *)
Fixpoint run (prev : Render) (evs : list Event) (x : Mounted) : Mounted :=
  match evs with
  | [] => x
  | Rendered r :: rest => run r rest (React.update _ _ _ effects prev r x)
  | Settles e :: rest => run prev rest (settle_import e x.1, x.2)
  end.

End Advanced.

Definition AdvancedMarker : list (React.Effect Advanced.Render Advanced.State unit) :=
  Advanced.effects.


(** Event [e] leaves the dependencies of the click effect as render [r0]
    had them. *)
Definition keeps_click_deps (r0 : Advanced.Render) (e : Advanced.Event) : Prop :=
  match e with
  | Advanced.Rendered r =>
      Advanced.google r = Advanced.google r0 /\
      Advanced.onClick r = Advanced.onClick r0
  | Advanced.Settles _ => True
  end.

(** The listeners are those of scene [sc] and the component holds none. *)
Definition never_listened (sc : Scene) (x : Advanced.Mounted) : Prop :=
  length x.2 = 4 /\
  listeners (Advanced.scene x.1) = listeners sc /\
  Advanced.clickListenerRef x.1 = None.

(** Every suspended [initMarker] was called with a map. *)
Definition waiting_have_map (x : Advanced.Mounted) : Prop :=
  length x.2 = 4 /\
  Forall (fun r => is_Some (Advanced.map r)) (Advanced.waiting x.1).

(** The ends of the imports [es], one after the other. *)
Definition settle_imports (es : list Advanced.Import) (st : Advanced.State)
    : Advanced.State :=
  foldl (fun st e => Advanced.settle_import e st) st es.

(** The root in [reactRootRef], if any, is mounted. *)
Definition root_ref_mounted (x : Advanced.Mounted) : Prop :=
  length x.2 = 4 /\
  forall k, Advanced.reactRootRef x.1 = Some k ->
    exists root, roots (Advanced.scene x.1) !! k = Some root /\
                 root_mounted root = true.




(** ** The Map component (map.tsx) *)

(** A [google.maps.Map]: the element it was constructed on and the options
    that the component sets. *)
Record MapObject := {
  map_div : nat;
  map_center : ObjRef;
  map_zoom : Z;
  map_mapId : option string;
}.

Module MapComponent.

(** The props after defaulting ([center = { lat: 0, lng: 0 }], which is a
    new object at every render that omits the prop, and [zoom = 10]), and
    the value of the API context. *)
Record Props := {
  center : ObjRef;
  zoom : Z;
  mapId : option string;
  onClick : option ObjRef;
  onIdle : option ObjRef;
  google : option ObjRef;
}.

(** What a render sees: the props and the value of the state [map]. *)
Record Render := {
  props : Props;
  map : option MapId;
}.

(** The state cell of [useState], [containerRef], the calls of [initMap]
    suspended at [await google.maps.importLibrary('maps')], the maps that
    exist and the scene. *)
Record State := {
  cell : option MapId;
  containerRef : option nat;
  waiting : list Render;
  maps : list MapObject;
  scene : Scene;
}.

Definition set_cell (v : option MapId) (st : State) : State :=
  {| cell := v; containerRef := containerRef st; waiting := waiting st;
     maps := maps st; scene := scene st |}.

Definition set_waiting (v : list Render) (st : State) : State :=
  {| cell := cell st; containerRef := containerRef st; waiting := v;
     maps := maps st; scene := scene st |}.

Definition set_maps (v : list MapObject) (st : State) : State :=
  {| cell := cell st; containerRef := containerRef st; waiting := waiting st;
     maps := v; scene := scene st |}.

Definition set_scene (v : Scene) (st : State) : State :=
  {| cell := cell st; containerRef := containerRef st; waiting := waiting st;
     maps := maps st; scene := v |}.

Definition update_map (n : MapId) (f : MapObject -> MapObject) (st : State) : State :=
  match maps st !! n with
  | Some obj => set_maps (<[n := f obj]> (maps st)) st
  | None => st
  end.

(** First effect, dependencies [[google, map, center, zoom, mapId]]: it
    calls [initMap], which runs up to its [await]; there is no cleanup. *)
Definition init : React.Effect Render State (list nat) :=
  {| React.same_deps := fun prev next =>
       bool_decide (google (props prev) = google (props next))
       && bool_decide (map prev = map next)
       && bool_decide (center (props prev) = center (props next))
       && bool_decide (zoom (props prev) = zoom (props next))
       && bool_decide (mapId (props prev) = mapId (props next));
     React.setup := fun r st =>
       match google (props r), containerRef st, map r with
       | Some _, Some _, None => (set_waiting (waiting st ++ [r]) st, None)
       | _, _, _ => (st, None)
       end;
     React.cleanup := fun _ st => st |}.

(** The rest of [initMap], run when the import has succeeded: [new Map]
    on the element in [containerRef], then [setMap].  Without an element
    the constructor of the Maps API throws and the call ends there. *)
Definition initMap_resumed (r : Render) (st : State) : State :=
  match containerRef st with
  | Some d =>
      set_cell (Some (length (maps st)))
        (set_maps (maps st ++
           [{| map_div := d; map_center := center (props r);
               map_zoom := zoom (props r); map_mapId := mapId (props r) |}]) st)
  | None => st
  end.

(** Second effect, dependencies [[map, center, zoom]]. *)
Definition sync : React.Effect Render State (list nat) :=
  {| React.same_deps := fun prev next =>
       bool_decide (map prev = map next)
       && bool_decide (center (props prev) = center (props next))
       && bool_decide (zoom (props prev) = zoom (props next));
     React.setup := fun r st =>
       match map r with
       | Some n =>
           (update_map n (fun obj =>
              {| map_div := map_div obj; map_center := center (props r);
                 map_zoom := zoom (props r); map_mapId := map_mapId obj |}) st,
            None)
       | None => (st, None)
       end;
     React.cleanup := fun _ st => st |}.

(** Third effect, dependencies [[map, onClick, onIdle, google]].  Its
    cleanup removes the listeners that this run added.  The idle listener
    is a function that calls [onIdle]; it is recorded under the reference
    of [onIdle]. *)
Definition listen : React.Effect Render State (list nat) :=
  {| React.same_deps := fun prev next =>
       bool_decide (map prev = map next)
       && bool_decide (onClick (props prev) = onClick (props next))
       && bool_decide (onIdle (props prev) = onIdle (props next))
       && bool_decide (google (props prev) = google (props next));
     React.setup := fun r st =>
       match map r, google (props r) with
       | Some n, Some _ =>
           let s1 :=
             match onClick (props r) with
             | Some h =>
                 let added := addListener (OnMap n) "click" h (scene st) in
                 ([added.1], added.2)
             | None => ([], scene st)
             end in
           let s2 :=
             match onIdle (props r) with
             | Some h =>
                 let added := addListener (OnMap n) "idle" h s1.2 in
                 (s1.1 ++ [added.1], added.2)
             | None => s1
             end in
           (set_scene s2.2 st, Some s2.1)
       | _, _ => (st, None)
       end;
     React.cleanup := fun ls st =>
       set_scene (foldl (fun sc l => removeListener l sc) (scene st) ls) st |}.

Definition effects : list (React.Effect Render State (list nat)) :=
  [init; sync; listen].

(** A new instance of the component, rendered into element [d]: the state
    is [null] and [containerRef] holds the element. *)
Definition new_instance (d : nat) (ms : list MapObject) (sc : Scene) : State :=
  {| cell := None; containerRef := Some d; waiting := []; maps := ms;
     scene := sc |}.

(** The first render sees the initial state. *)
Definition first_render (p : Props) : Render := {| props := p; map := None |}.

Inductive Import : Type :=
  | Imported (i : nat)
  | ImportFailed (i : nat).

Definition settle_import (e : Import) (st : State) : State :=
  match e with
  | Imported i =>
      match waiting st !! i with
      | Some r => initMap_resumed r (set_waiting (delete i (waiting st)) st)
      | None => st
      end
  | ImportFailed i => set_waiting (delete i (waiting st)) st
  end.

(** What happens to a mounted component: it is rendered again, with the
    props given and the state as it is then, or one of its imports ends. *)
Inductive Event : Type :=
  | Rendered (p : Props)
  | Settles (e : Import).

Definition Mounted : Type := React.Mounted State (list nat).

Definition mount (p : Props) (st : State) : Mounted :=
  React.mount _ _ _ effects (first_render p) st.

Fixpoint run (prev : Render) (evs : list Event) (x : Mounted) : Mounted :=
  match evs with
  | [] => x
  | Rendered p :: rest =>
      let r := {| props := p; map := cell x.1 |} in
      run r rest (React.update _ _ _ effects prev r x)
  | Settles e :: rest => run prev rest (settle_import e x.1, x.2)
  end.

End MapComponent.


(** The invariant of a mounted [Map]: every live listener is one of those
    that the pending cleanup of the third effect will remove, and these are
    at most two. *)
Definition map_listeners_inv (x : MapComponent.Mounted) : Prop :=
  length x.2 = 3 /\
  forall l rec, listeners (MapComponent.scene x.1) !! l = Some rec ->
    live rec = true ->
    exists ls, x.2 !! 2 = Some (Some ls) /\ l ∈ ls /\ length ls <= 2.



(** ** Serialising and parsing query strings *)

Lemma append_cons (c : ascii) (a b : string) :
  String c a +:+ b = String c (a +:+ b).
Proof. reflexivity. Qed.

Lemma encode_byte_free (c : ascii) :
  URLSearchParams.free_of "&" (URLSearchParams.encode_byte c) = true /\
  URLSearchParams.free_of "=" (URLSearchParams.encode_byte c) = true.
Proof. destruct c as [[] [] [] [] [] [] [] []]; split; reflexivity. Qed.

Lemma free_of_app (c : ascii) (a b : string) :
  URLSearchParams.free_of c (a +:+ b)
  = URLSearchParams.free_of c a && URLSearchParams.free_of c b.
Proof.
  induction a as [|x a IH]; [done|]. rewrite append_cons. simpl.
  rewrite IH. by rewrite andb_assoc.
Qed.

Lemma encode_free (s : string) :
  URLSearchParams.free_of "&" (URLSearchParams.encode s) = true /\
  URLSearchParams.free_of "=" (URLSearchParams.encode s) = true.
Proof.
  induction s as [|c s [IH1 IH2]]; simpl; [done|].
  rewrite !free_of_app, IH1, IH2.
  by destruct (encode_byte_free c) as [-> ->].
Qed.

Lemma decode_encode_byte (c : ascii) (rest : string) :
  URLSearchParams.decode (URLSearchParams.encode_byte c +:+ rest)
  = String c (URLSearchParams.decode rest).
Proof. destruct c as [[] [] [] [] [] [] [] []]; reflexivity. Qed.

Lemma decode_encode (s : string) :
  URLSearchParams.decode (URLSearchParams.encode s) = s.
Proof.
  induction s as [|c s IH]; simpl; [done|].
  by rewrite decode_encode_byte, IH.
Qed.

Lemma encode_plain (s : string) :
  URLSearchParams.all_plain s = true -> URLSearchParams.encode s = s.
Proof.
  induction s as [|c s IH]; simpl; [done|].
  intros [Hc Hs]%andb_prop. rewrite (IH Hs).
  unfold URLSearchParams.encode_byte. rewrite Hc.
  destruct (Ascii.eqb c " ") eqn:Hsp; [|done].
  apply Ascii.eqb_eq in Hsp. subst c. discriminate.
Qed.

Lemma cut_at_free (sep : ascii) (a b : string) :
  URLSearchParams.free_of sep a = true ->
  URLSearchParams.cut_at sep (a +:+ String sep b) = (a, b).
Proof.
  induction a as [|x a IH]; rewrite ?append_cons; simpl.
  - intros _. change ("" +:+ String sep b) with (String sep b). simpl.
    by rewrite Ascii.eqb_refl.
  - intros [Hx Ha]%andb_prop. apply negb_true_iff in Hx. rewrite Hx.
    by rewrite (IH Ha).
Qed.

Lemma split_on_free (sep : ascii) (a : string) :
  URLSearchParams.free_of sep a = true ->
  URLSearchParams.split_on sep a = [a].
Proof.
  induction a as [|x a IH]; simpl; [done|].
  intros [Hx Ha]%andb_prop. apply negb_true_iff in Hx. rewrite Hx.
  by rewrite (IH Ha).
Qed.

Lemma split_on_app (sep : ascii) (a b : string) :
  URLSearchParams.free_of sep a = true ->
  URLSearchParams.split_on sep (a +:+ String sep b)
  = a :: URLSearchParams.split_on sep b.
Proof.
  induction a as [|x a IH]; rewrite ?append_cons; simpl.
  - intros _. change ("" +:+ String sep b) with (String sep b). simpl.
    by rewrite Ascii.eqb_refl.
  - intros [Hx Ha]%andb_prop. apply negb_true_iff in Hx. rewrite Hx.
    by rewrite (IH Ha).
Qed.

Lemma split_on_concat (sep : ascii) (piece : string) (pieces : list string) :
  Forall (fun s => URLSearchParams.free_of sep s = true) (piece :: pieces) ->
  URLSearchParams.split_on sep (String.concat (String sep "") (piece :: pieces))
  = piece :: pieces.
Proof.
  revert piece. induction pieces as [|next pieces IH]; intros piece Hall.
  - simpl. apply split_on_free. by apply Forall_inv in Hall.
  - change (String.concat (String sep "") (piece :: next :: pieces))
      with (piece +:+ String sep (String.concat (String sep "") (next :: pieces))).
    rewrite split_on_app by by apply Forall_inv in Hall.
    rewrite IH; [done|]. by apply Forall_inv_tail in Hall.
Qed.

Lemma serialize_pair_free (p : string * string) :
  URLSearchParams.free_of "&" (URLSearchParams.serialize_pair p) = true.
Proof.
  unfold URLSearchParams.serialize_pair. rewrite !free_of_app.
  destruct (encode_free p.1) as [-> _], (encode_free p.2) as [-> _].
  reflexivity.
Qed.

Lemma serialize_pair_nonempty (p : string * string) :
  URLSearchParams.nonempty (URLSearchParams.serialize_pair p) = true.
Proof.
  unfold URLSearchParams.serialize_pair.
  destruct (URLSearchParams.encode p.1); reflexivity.
Qed.

Lemma parse_serialize_pair (p : string * string) :
  URLSearchParams.parse_pair (URLSearchParams.serialize_pair p) = p.
Proof.
  unfold URLSearchParams.parse_pair, URLSearchParams.serialize_pair.
  change ("=" +:+ URLSearchParams.encode p.2)
    with (String "=" (URLSearchParams.encode p.2)).
  rewrite cut_at_free by apply encode_free. simpl.
  rewrite !decode_encode. by destruct p.
Qed.

(** Reading back what [toString] wrote gives the parameters it was given. *)
Lemma parse_toString (params : URLSearchParams.t) :
  URLSearchParams.parse (URLSearchParams.toString params) = params.
Proof.
  unfold URLSearchParams.parse, URLSearchParams.toString.
  destruct params as [|p params]; [done|].
  change (map URLSearchParams.serialize_pair (p :: params))
    with (URLSearchParams.serialize_pair p
          :: map URLSearchParams.serialize_pair params).
  rewrite (split_on_concat "&").
  - rewrite <- (map_cons URLSearchParams.serialize_pair).
    generalize (p :: params). intros l.
    induction l as [|x l IH]; [done|].
    simpl. rewrite serialize_pair_nonempty. simpl.
    by rewrite parse_serialize_pair, IH.
  - rewrite <- (map_cons URLSearchParams.serialize_pair).
    apply Forall_forall. intros s Hs.
    apply list_elem_of_In, in_map_iff in Hs as (x & <- & _).
    apply serialize_pair_free.
Qed.

(** ** What buildUrl writes *)

Lemma buildUrl_expected (apiKey : string) (options : option LoadOptions) :
  buildUrl apiKey options
  = "https://maps.googleapis.com/maps/api/js?"
    +:+ URLSearchParams.toString (expected_parameters apiKey options).
Proof.
  unfold buildUrl, expected_parameters, truthy,
    URLSearchParams.append, URLSearchParams.new.
  do 2 f_equal.
  destruct (options ≫= libraries) as [[|lib libs]|];
    destruct (options ≫= language) as [l|];
    destruct (options ≫= region) as [r|]; simpl;
    try destruct (String.eqb l ""); try destruct (String.eqb r "");
    reflexivity.
Qed.

Lemma url_parameters_buildUrl (apiKey : string) (options : option LoadOptions) :
  url_parameters (buildUrl apiKey options) = expected_parameters apiKey options.
Proof.
  rewrite buildUrl_expected. unfold url_parameters.
  change (URLSearchParams.cut_at "?" ("https://maps.googleapis.com/maps/api/js?" +:+
            URLSearchParams.toString (expected_parameters apiKey options))).2
    with (URLSearchParams.toString (expected_parameters apiKey options)).
  apply parse_toString.
Qed.

Lemma has_parameter_libraries (apiKey : string) (options : option LoadOptions) :
  has_parameter "libraries" (buildUrl apiKey options) = true
  <-> exists lib libs, options ≫= libraries = Some (lib :: libs).
Proof.
  unfold has_parameter. rewrite url_parameters_buildUrl.
  unfold expected_parameters.
  destruct (options ≫= libraries) as [[|lib libs]|];
    destruct (options ≫= language) as [l|];
    destruct (options ≫= region) as [r|]; simpl;
    try destruct (String.eqb l ""); try destruct (String.eqb r ""); simpl;
    split; try done; eauto; by intros (? & ? & ?).
Qed.

Lemma has_parameter_language (apiKey : string) (options : option LoadOptions) :
  has_parameter "language" (buildUrl apiKey options) = true
  <-> exists l, options ≫= language = Some l /\ l ≠ "".
Proof.
  unfold has_parameter. rewrite url_parameters_buildUrl.
  unfold expected_parameters.
  destruct (options ≫= libraries) as [[|lib libs]|];
    destruct (options ≫= language) as [l|];
    destruct (options ≫= region) as [r|]; simpl;
    try destruct (String.eqb_spec l ""); try destruct (String.eqb_spec r "");
    simpl; split; try done; eauto;
    intros (? & [= <-] & ?); done.
Qed.

Lemma has_parameter_region (apiKey : string) (options : option LoadOptions) :
  has_parameter "region" (buildUrl apiKey options) = true
  <-> exists r, options ≫= region = Some r /\ r ≠ "".
Proof.
  unfold has_parameter. rewrite url_parameters_buildUrl.
  unfold expected_parameters.
  destruct (options ≫= libraries) as [[|lib libs]|];
    destruct (options ≫= language) as [l|];
    destruct (options ≫= region) as [r|]; simpl;
    try destruct (String.eqb_spec l ""); try destruct (String.eqb_spec r "");
    simpl; split; try done; eauto;
    intros (? & [= <-] & ?); done.
Qed.

(** C8, as the code has it: the URL is the endpoint, [?], and the
    serialisation of these parameters in this order: [key], always;
    [libraries], whose value is the list joined by commas, exactly when the
    list is given and not empty; [language] and then [region], each exactly
    when it is given and is not the empty string.  Read back, the URL
    carries exactly these parameters.  Names and values made of ASCII
    letters, digits and [*-._] are written as they are. *)
Theorem buildUrl_parameters (apiKey : string) (options : option LoadOptions) :
  buildUrl apiKey options
  = "https://maps.googleapis.com/maps/api/js?"
    +:+ URLSearchParams.toString (expected_parameters apiKey options) /\
  url_parameters (buildUrl apiKey options) = expected_parameters apiKey options /\
  has_parameter "key" (buildUrl apiKey options) = true /\
  (has_parameter "libraries" (buildUrl apiKey options) = true
   <-> exists lib libs, options ≫= libraries = Some (lib :: libs)) /\
  (has_parameter "language" (buildUrl apiKey options) = true
   <-> exists l, options ≫= language = Some l /\ l ≠ "") /\
  (has_parameter "region" (buildUrl apiKey options) = true
   <-> exists r, options ≫= region = Some r /\ r ≠ "") /\
  (forall s, URLSearchParams.all_plain s = true -> URLSearchParams.encode s = s).
Proof.
  split; [apply buildUrl_expected|].
  split; [apply url_parameters_buildUrl|].
  split; [unfold has_parameter; by rewrite url_parameters_buildUrl|].
  split; [apply has_parameter_libraries|].
  split; [apply has_parameter_language|].
  split; [apply has_parameter_region|].
  apply encode_plain.
Qed.

Lemma buildUrl_parameters_witness :
  url_parameters
    (buildUrl "A_KEY"
       (Some {| libraries := Some ["places"; "drawing"];
                language := Some "en"; region := Some "" |}))
  = [("key", "A_KEY"); ("libraries", "places,drawing"); ("language", "en")] /\
  URLSearchParams.encode "A_KEY" = "A_KEY".
Proof.
  pose proof (buildUrl_parameters "A_KEY"
                (Some {| libraries := Some ["places"; "drawing"];
                         language := Some "en"; region := Some "" |})) as H.
  split.
  - exact (proj1 (proj2 H)).
  - apply (proj2 (proj2 (proj2 (proj2 (proj2 (proj2 H)))))). reflexivity.
Defined.

(** C8, as claimed, fails: a language that is given, but is the empty
    string, is not in the URL. *)
Lemma buildUrl_omits_empty_language :
  let options := Some {| libraries := None; language := Some ""; region := None |} in
  options ≫= language = Some "" /\
  has_parameter "language" (buildUrl "KEY" options) = false /\
  buildUrl "KEY" options = "https://maps.googleapis.com/maps/api/js?key=KEY".
Proof. repeat split. Qed.

(** C2 at the input of the docstring of [buildUrl]: the comma that joins
    the libraries is written [%2C], so the URL is not the documented one. *)
Theorem buildUrl_escapes_comma :
  let options := Some {| libraries := Some ["places"; "drawing"];
                         language := Some "en"; region := Some "US" |} in
  buildUrl "YOUR_API_KEY" options
  = "https://maps.googleapis.com/maps/api/js?key=YOUR_API_KEY&libraries=places%2Cdrawing&language=en&region=US" /\
  buildUrl "YOUR_API_KEY" options
  ≠ "https://maps.googleapis.com/maps/api/js?key=YOUR_API_KEY&libraries=places,drawing&language=en&region=US".
Proof. split; [reflexivity | discriminate]. Qed.

(** Without options, a key made of letters, digits and [*-._] gives the
    documented URL. *)
Lemma buildUrl_key_only_plain (apiKey : string) :
  URLSearchParams.all_plain apiKey = true ->
  buildUrl apiKey None = "https://maps.googleapis.com/maps/api/js?key=" +:+ apiKey.
Proof.
  intros Hk. rewrite buildUrl_expected.
  unfold expected_parameters, URLSearchParams.toString. simpl.
  unfold URLSearchParams.serialize_pair. simpl.
  by rewrite (encode_plain apiKey Hk).
Qed.

(** ** URLs on examples *)

Example buildUrl_key_only :
  buildUrl "YOUR_API_KEY" None
  = "https://maps.googleapis.com/maps/api/js?key=YOUR_API_KEY".
Proof. reflexivity. Qed.

Example buildUrl_one_library :
  buildUrl "YOUR_API_KEY"
    (Some {| libraries := Some ["places"]; language := Some "ja"; region := Some "JP" |})
  = "https://maps.googleapis.com/maps/api/js?key=YOUR_API_KEY&libraries=places&language=ja&region=JP".
Proof. reflexivity. Qed.

Example buildUrl_space :
  buildUrl "a b/~" None
  = "https://maps.googleapis.com/maps/api/js?key=a+b%2F%7E".
Proof. reflexivity. Qed.

Example url_parameters_docstring :
  url_parameters
    "https://maps.googleapis.com/maps/api/js?key=YOUR_API_KEY&libraries=places,drawing&language=en&region=US"
  = [("key", "YOUR_API_KEY"); ("libraries", "places,drawing");
     ("language", "en"); ("region", "US")].
Proof. reflexivity. Qed.

Example url_parameters_encoded :
  url_parameters
    "https://maps.googleapis.com/maps/api/js?key=a+b%2F%7E&libraries=places%2Cdrawing"
  = [("key", "a b/~"); ("libraries", "places,drawing")].
Proof. reflexivity. Qed.

(** ** Running the loader: proof support *)

Ltac js_unfold :=
  unfold load, wait, importLibrary, dispose, getScript, addScript,
    script_loaded, script_error, run_callback, run_error_handler,
    native_importLibrary, async_function, try_catch,
    Promise_resolve, Promise_reject, settled_promise, new_promise,
    resolve, reject, settle, document_contains, element_remove,
    head_appendChild, createElement_script, querySelector_maps_script,
    set_src, set_async, set_defer, set_onerror, update_element,
    bind, get, modify, ret, throw, exec in *.

Lemma isLoaded_google w :
  isLoaded w = true ->
  exists g m, window_google w = Some g /\ maps g = Some m.
Proof.
  unfold isLoaded. destruct (window_google w) as [g|]; [|discriminate].
  destruct (maps g) as [m|] eqn:Hm; [|discriminate]. eauto.
Qed.

Lemma lookup_snoc {A} (l : list A) (x : A) : (l ++ [x]) !! length l = Some x.
Proof. by rewrite lookup_app_r, Nat.sub_diag. Qed.

Lemma insert_snoc {A} (l : list A) (x y : A) :
  <[length l := y]> (l ++ [x]) = l ++ [y].
Proof. by rewrite insert_app_r_alt, Nat.sub_diag. Qed.

(** ** Starting and joining a load *)

Lemma load_starts (apiKey : string) (options : option LoadOptions)
    (children : list eid) (w : World) :
  isLoaded w = false -> loadingPromise w = None ->
  document_head w = Some children ->
  load apiKey options w
  = (inr (length (promises w)),
     loading_state (buildUrl apiKey options) children w).
Proof.
  intros Hl Hp Hh. js_unfold. rewrite Hl. simpl. rewrite Hp. simpl.
  rewrite lookup_snoc. simpl. rewrite insert_snoc, lookup_snoc. simpl.
  rewrite insert_snoc, lookup_snoc. simpl. rewrite insert_snoc. simpl.
  rewrite Hh. simpl. rewrite lookup_snoc. simpl. rewrite insert_snoc.
  reflexivity.
Qed.

Lemma load_joins (apiKey : string) (options : option LoadOptions)
    (p : pid) (w : World) :
  isLoaded w = false -> loadingPromise w = Some p ->
  load apiKey options w = (inr p, w).
Proof. intros Hl Hp. js_unfold. rewrite Hl. simpl. by rewrite Hp. Qed.

Lemma load_all_joins (calls : list (string * option LoadOptions))
    (p : pid) (w : World) :
  isLoaded w = false -> loadingPromise w = Some p ->
  load_all calls w = (inr (replicate (length calls) p), w).
Proof.
  intros Hl Hp. induction calls as [|[apiKey options] rest IH]; [done|].
  simpl. unfold bind at 1. rewrite (load_joins _ _ p) by done.
  unfold bind at 1. by rewrite IH.
Qed.

(** The happy path: when the script of a load in flight has run, the
    callback resolves the promise with the object the script installed and
    removes itself; [loadingPromise] keeps pointing to the promise. *)
Lemma script_loaded_resolves (g : GoogleObject) (p : pid) (w : World) :
  window_callback w = Some (ResolveLoad p) ->
  promises w !! p = Some Pending ->
  let w' := exec (script_loaded g) w in
  promises w' !! p = Some (Fulfilled (VGoogle g)) /\
  window_google w' = Some g /\
  window_callback w' = None /\
  loadingPromise w' = loadingPromise w /\
  isLoaded w' = defined (maps g).
Proof.
  intros Hcb Hp. cbv zeta. js_unfold. simpl. rewrite Hcb. simpl. rewrite Hp.
  simpl. split; [|done].
  apply list_lookup_insert_eq. by apply lookup_lt_Some in Hp.
Qed.

(** C1: while a load is in flight ([isLoaded()] false, [loadingPromise]
    set) every [load] call, whatever its arguments, returns the promise in
    [loadingPromise] itself and changes nothing.  Hence, from a state with
    no load in flight and a document with a head, a first call followed by
    any number of further calls yields one and the same promise, which is
    pending, so every caller sees the same outcome; and the whole sequence
    creates one script element and appends that one element to the head. *)
Theorem concurrent_loads_share_promise
    (calls : list (string * option LoadOptions)) (w : World) :
  isLoaded w = false ->
  (forall p, loadingPromise w = Some p ->
     load_all calls w = (inr (replicate (length calls) p), w)) /\
  (forall apiKey options children,
     loadingPromise w = None -> document_head w = Some children ->
     let p := length (promises w) in
     let w1 := loading_state (buildUrl apiKey options) children w in
     load_all ((apiKey, options) :: calls) w
     = (inr (replicate (S (length calls)) p), w1) /\
     promises w1 !! p = Some Pending /\
     attached w1 = children ++ [length (scripts w)] ++ document_rest w /\
     length (scripts w1) = S (length (scripts w))).
Proof.
  intros Hl. split.
  - intros p Hp. by apply load_all_joins.
  - intros apiKey options children Hp Hh p w1. subst p w1. repeat split.
    + simpl. unfold bind at 1. rewrite (load_starts _ _ children) by done.
      unfold bind at 1. by rewrite (load_all_joins _ (length (promises w))).
    + simpl. apply lookup_snoc.
    + unfold attached. simpl. by rewrite <- app_assoc.
    + simpl. rewrite length_app. simpl. lia.
Qed.

Lemma concurrent_loads_share_promise_witness :
  load_all [("KEY", None); ("KEY", None); ("OTHER", None)] fresh_page
  = (inr [0; 0; 0], loading_state (buildUrl "KEY" None) [] fresh_page) /\
  load_all [("KEY", None); ("OTHER", None)] (exec (load "KEY" None) fresh_page)
  = (inr [0; 0], exec (load "KEY" None) fresh_page).
Proof.
  split.
  - apply (proj2 (concurrent_loads_share_promise
                    [("KEY", None); ("OTHER", None)] fresh_page eq_refl)
             "KEY" None []); reflexivity.
  - apply (proj1 (concurrent_loads_share_promise
                    [("KEY", None); ("OTHER", None)]
                    (exec (load "KEY" None) fresh_page) eq_refl) 0).
    reflexivity.
Defined.

(** ** Calls that find the API loaded, or find nothing to do *)

Lemma load_loaded (apiKey : string) (options : option LoadOptions) (w : World) :
  isLoaded w = true ->
  exists g,
    window_google w = Some g /\
    load apiKey options w
    = (inr (length (promises w)),
       set_promises (promises w ++ [Fulfilled (VGoogle g)]) w).
Proof.
  intros Hl. destruct (isLoaded_google w Hl) as (g & m & Hg & _).
  exists g. split; [done|].
  js_unfold. rewrite Hl. simpl. by rewrite Hg.
Qed.

(** C4: when [isLoaded()] is true, [load] returns a new promise already
    fulfilled with the object in [window.google], whatever the key and the
    options; the only change to the state is the allocation of that promise:
    no script element is created or attached and no loader field or
    [window] property is written. *)
Theorem load_when_loaded (apiKey : string) (options : option LoadOptions) (w : World) :
  isLoaded w = true ->
  exists g,
    window_google w = Some g /\
    load apiKey options w
    = (inr (length (promises w)),
       set_promises (promises w ++ [Fulfilled (VGoogle g)]) w) /\
    promises (exec (load apiKey options) w) !! length (promises w)
    = Some (Fulfilled (VGoogle g)) /\
    attached (exec (load apiKey options) w) = attached w /\
    scripts (exec (load apiKey options) w) = scripts w.
Proof.
  intros Hl. destruct (load_loaded apiKey options w Hl) as (g & Hg & Hload).
  exists g. unfold exec. rewrite Hload. simpl.
  repeat split; try done. apply lookup_snoc.
Qed.

Lemma load_when_loaded_witness :
  exists g,
    window_google (exec (script_loaded demo_google) fresh_page) = Some g /\
    load "KEY" (Some {| libraries := Some ["places"]; language := None; region := None |})
      (exec (script_loaded demo_google) fresh_page)
    = (inr 0,
       set_promises [Fulfilled (VGoogle g)] (exec (script_loaded demo_google) fresh_page)).
Proof.
  destruct (load_when_loaded "KEY"
              (Some {| libraries := Some ["places"]; language := None; region := None |})
              (exec (script_loaded demo_google) fresh_page) eq_refl)
    as (g & Hg & Hload & _).
  exists g. split; [exact Hg | exact Hload].
Defined.

Lemma wait_loaded (w : World) :
  isLoaded w = true ->
  exists g, window_google w = Some g /\
    wait w = (inr (length (promises w)),
              set_promises (promises w ++ [Fulfilled (VGoogle g)]) w).
Proof.
  intros Hl. destruct (isLoaded_google w Hl) as (g & m & Hg & _).
  exists g. split; [done|]. js_unfold. rewrite Hl. simpl. by rewrite Hg.
Qed.

Lemma wait_joins (p : pid) (w : World) :
  isLoaded w = false -> loadingPromise w = Some p -> wait w = (inr p, w).
Proof. intros Hl Hp. js_unfold. rewrite Hl. simpl. by rewrite Hp. Qed.

Lemma wait_not_loading (w : World) :
  isLoaded w = false -> loadingPromise w = None ->
  wait w = (inr (length (promises w)),
            set_promises (promises w ++ [Rejected (Error NOT_LOADING_ERROR)]) w).
Proof. intros Hl Hp. js_unfold. rewrite Hl. simpl. by rewrite Hp. Qed.

Lemma wait_frame (w : World) :
  let w' := exec wait w in
  loadingPromise w' = loadingPromise w /\
  scriptElement w' = scriptElement w /\
  window_google w' = window_google w /\
  window_callback w' = window_callback w /\
  document_head w' = document_head w /\
  document_rest w' = document_rest w /\
  scripts w' = scripts w /\
  exists new, promises w' = promises w ++ new.
Proof.
  cbv zeta. js_unfold.
  destruct (isLoaded w), (loadingPromise w) eqn:Hp; simpl; rewrite ?Hp;
    repeat split; eauto.
  all: exists nil; symmetry; apply app_nil_r.
Qed.

(** C5: [wait] returns a new promise fulfilled with [window.google] when
    the API is loaded; otherwise the promise of the load in flight, that very
    object, when there is one; otherwise a new promise rejected with the
    "no load in progress" error.  In every case it starts no load: the
    loader fields, the [window] properties, the document and the script
    elements are as before, and no existing promise changes. *)
Theorem wait_cases (w : World) :
  (isLoaded w = true ->
   exists g, window_google w = Some g /\
     wait w = (inr (length (promises w)),
               set_promises (promises w ++ [Fulfilled (VGoogle g)]) w)) /\
  (isLoaded w = false -> forall p, loadingPromise w = Some p ->
     wait w = (inr p, w)) /\
  (isLoaded w = false -> loadingPromise w = None ->
     wait w = (inr (length (promises w)),
               set_promises
                 (promises w ++
                  [Rejected (Error "Google Maps is not loaded and no load is in progress. Call load() first.")])
                 w)) /\
  (let w' := exec wait w in
   loadingPromise w' = loadingPromise w /\
   scriptElement w' = scriptElement w /\
   window_google w' = window_google w /\
   window_callback w' = window_callback w /\
   document_head w' = document_head w /\
   document_rest w' = document_rest w /\
   scripts w' = scripts w /\
   exists new, promises w' = promises w ++ new).
Proof.
  split; [|split; [|split]].
  - apply wait_loaded.
  - intros Hl p Hp. by apply wait_joins.
  - apply wait_not_loading.
  - apply wait_frame.
Qed.

Lemma wait_cases_witness :
  wait (exec (load "KEY" None) fresh_page)
  = (inr 0, exec (load "KEY" None) fresh_page) /\
  wait fresh_page
  = (inr 0, set_promises [Rejected (Error NOT_LOADING_ERROR)] fresh_page) /\
  exists g,
    window_google (exec (script_loaded demo_google) fresh_page) = Some g /\
    wait (exec (script_loaded demo_google) fresh_page)
    = (inr 0, set_promises [Fulfilled (VGoogle g)]
                (exec (script_loaded demo_google) fresh_page)).
Proof.
  split; [|split].
  - apply (proj1 (proj2 (wait_cases (exec (load "KEY" None) fresh_page))));
      reflexivity.
  - apply (proj1 (proj2 (proj2 (wait_cases fresh_page)))); reflexivity.
  - apply (proj1 (wait_cases (exec (script_loaded demo_google) fresh_page))).
    reflexivity.
Defined.

Lemma importLibrary_not_loaded (libraryName : string) (w : World) :
  isLoaded w = false ->
  importLibrary libraryName w
  = (inr (length (promises w)),
     set_promises (promises w ++ [Rejected (Error NOT_LOADED_ERROR)]) w).
Proof. intros Hl. js_unfold. by rewrite Hl. Qed.

Lemma importLibrary_loaded (libraryName : string) (w : World) :
  isLoaded w = true ->
  exists g m,
    window_google w = Some g /\ maps g = Some m /\
    importLibrary libraryName w
    = (inr (length (promises w)),
       set_promises
         (promises w ++ [settlement_map VLibrary (maps_importLibrary m libraryName)])
         w).
Proof.
  intros Hl. destruct (isLoaded_google w Hl) as (g & m & Hg & Hm).
  exists g, m. repeat split; [done..|].
  js_unfold. rewrite Hl. simpl. rewrite Hg. simpl. by rewrite Hm.
Qed.



(** ** The error event *)

Lemma script_error_fires (e : eid) (p : pid) (w : World) :
  handler_of w e = Some (RejectLoad p) ->
  script_error e w
  = settle p (Rejected (Error SCRIPT_LOAD_ERROR))
      (set_loadingPromise None (set_window_callback None w)).
Proof.
  unfold handler_of. intros He. unfold script_error, bind, get.
  rewrite He. reflexivity.
Qed.

Lemma script_error_idle (e : eid) (w : World) :
  handler_of w e = None -> script_error e w = (inr tt, w).
Proof.
  unfold handler_of. intros He. unfold script_error, bind, get.
  rewrite He. reflexivity.
Qed.

Lemma settle_state (p : pid) (s : Settlement value) (w : World) :
  exists ps,
    settle p s w = (inr tt, set_promises ps w) /\
    length ps = length (promises w) /\
    forall q, q ≠ p -> ps !! q = promises w !! q.
Proof.
  unfold settle. destruct (promises w !! p) as [[| |]|] eqn:Hp.
  - exists (<[p := s]> (promises w)). split; [done|].
    split; [apply length_insert|]. intros q Hq. by apply list_lookup_insert_ne.
  - exists (promises w). by destruct w.
  - exists (promises w). by destruct w.
  - exists (promises w). by destruct w.
Qed.

Lemma handler_of_bound (w : World) (e : eid) (h : ErrorHandler) :
  handler_of w e = Some h -> e < length (scripts w).
Proof.
  unfold handler_of. intros He.
  destruct (scripts w !! e) as [el|] eqn:Hel; [|done].
  by apply lookup_lt_Some in Hel.
Qed.

(** C3: when the error event reaches the script element whose handler
    [load] installed for the pending promise [p], that promise is rejected
    with [Error "Failed to load Google Maps script"], [loadingPromise] is
    cleared and the global callback is deleted.  A [load] call made next
    (the API is still not loaded) does not return [p]: it creates a new
    pending promise and injects a new script, and [p] stays rejected. *)
Theorem script_error_rejects_and_resets (e : eid) (p : pid) (w : World) :
  handler_of w e = Some (RejectLoad p) ->
  promises w !! p = Some Pending ->
  let w' := exec (script_error e) w in
  promises w' !! p = Some (Rejected (Error "Failed to load Google Maps script")) /\
  loadingPromise w' = None /\
  window_callback w' = None /\
  (forall apiKey options children,
     isLoaded w = false -> document_head w = Some children ->
     let p' := length (promises w) in
     let w'' := loading_state (buildUrl apiKey options) children w' in
     load apiKey options w' = (inr p', w'') /\
     p' ≠ p /\
     promises w'' !! p' = Some Pending /\
     promises w'' !! p = Some (Rejected (Error "Failed to load Google Maps script")) /\
     loadingPromise w'' = Some p' /\
     document_head w'' = Some (children ++ [length (scripts w)])).
Proof.
  intros He Hp w'. subst w'. unfold exec.
  rewrite (script_error_fires e p) by done.
  unfold settle. simpl. rewrite Hp. simpl.
  assert (Hlt : p < length (promises w)) by by apply lookup_lt_Some in Hp.
  split; [by apply list_lookup_insert_eq|].
  split; [done|]. split; [done|].
  intros apiKey options children Hl Hh.
  split; [|split; [lia|]].
  { rewrite (load_starts _ _ children) by done.
    simpl. by rewrite length_insert. }
  split; [|split; [|split; [|done]]].
  - rewrite <- (length_insert (promises w) p (Rejected (Error SCRIPT_LOAD_ERROR))).
    apply lookup_snoc.
  - rewrite lookup_app_l by (rewrite length_insert; lia).
    by apply list_lookup_insert_eq.
  - by rewrite length_insert.
Qed.

Lemma script_error_rejects_and_resets_witness :
  promises (exec (script_error 0) (exec (load "KEY" None) fresh_page)) !! 0
  = Some (Rejected (Error "Failed to load Google Maps script")) /\
  load "KEY" None (exec (script_error 0) (exec (load "KEY" None) fresh_page))
  = (inr 1,
     loading_state (buildUrl "KEY" None) [0]
       (exec (script_error 0) (exec (load "KEY" None) fresh_page))).
Proof.
  pose proof (script_error_rejects_and_resets 0 0
                (exec (load "KEY" None) fresh_page) eq_refl eq_refl) as H.
  split.
  - apply H.
  - apply (proj2 (proj2 (proj2 H)) "KEY" None [0]); reflexivity.
Defined.

(** C10: the error event changes neither [scriptElement], nor the document,
    nor any script element, nor [window.google]; promises other than the one
    its handler rejects keep their state.  So a failed script that was
    attached and remembered stays so, and the [load] call that retries
    appends a further, different element to the head after the children that
    were there, the failed element included. *)
Theorem script_error_frame (e : eid) (w : World) :
  let w' := exec (script_error e) w in
  scriptElement w' = scriptElement w /\
  document_head w' = document_head w /\
  document_rest w' = document_rest w /\
  scripts w' = scripts w /\
  window_google w' = window_google w /\
  loadingPromise w'
  = match handler_of w e with Some _ => None | None => loadingPromise w end /\
  window_callback w'
  = match handler_of w e with Some _ => None | None => window_callback w end /\
  (forall q, handler_of w e ≠ Some (RejectLoad q) ->
     promises w' !! q = promises w !! q) /\
  (forall p apiKey options children,
     handler_of w e = Some (RejectLoad p) ->
     isLoaded w = false -> document_head w = Some children ->
     let w'' := exec (load apiKey options) w' in
     document_head w'' = Some (children ++ [length (scripts w)]) /\
     length (scripts w) ≠ e /\
     scriptElement w'' = Some (length (scripts w)) /\
     (forall x, x ∈ attached w -> x ∈ attached w'')).
Proof.
  intros w'. subst w'. unfold exec.
  destruct (handler_of w e) as [[p]|] eqn:He.
  - rewrite (script_error_fires e p) by done.
    destruct (settle_state p (Rejected (Error SCRIPT_LOAD_ERROR))
                (set_loadingPromise None (set_window_callback None w)))
      as (ps & -> & Hlen & Hother).
    simpl in *. do 7 (split; [done|]). split.
    + intros q Hq. apply Hother. congruence.
    + intros p0 apiKey options children _ Hl Hh.
      rewrite (load_starts _ _ children) by done. simpl.
      split; [done|]. split; [apply handler_of_bound in He; lia|].
      split; [done|].
      unfold attached. simpl. rewrite Hh. simpl. intros x Hx.
      rewrite elem_of_app in Hx. rewrite !elem_of_app. tauto.
  - rewrite script_error_idle by done. simpl. do 7 (split; [done|]).
    split; done.
Qed.

Lemma script_error_frame_witness :
  document_head
    (exec (load "KEY" None)
       (exec (script_error 0) (exec (load "KEY" None) fresh_page)))
  = Some [0; 1].
Proof.
  apply (proj2 (proj2 (proj2 (proj2 (proj2 (proj2 (proj2 (proj2
           (script_error_frame 0 (exec (load "KEY" None) fresh_page)))))))))
           0 "KEY" None [0]); reflexivity.
Defined.

(** ** dispose *)

Lemma filter_absent (e : eid) (l : list eid) :
  e ∉ l -> filter (fun x => x ≠ e) l = l.
Proof.
  intros He. induction l as [|x l IH]; [done|].
  apply not_elem_of_cons in He as [Hx Hl].
  rewrite filter_cons_True; [|congruence]. by rewrite IH.
Qed.

Lemma filter_all {A} (P : A -> Prop) `{forall x, Decision (P x)} (l : list A) :
  (forall x, P x) -> filter P l = l.
Proof.
  intros HP. induction l as [|x l IH]; [done|].
  rewrite filter_cons_True; [|done]. by rewrite IH.
Qed.

Lemma dispose_total (w : World) : dispose w = (inr tt, exec dispose w).
Proof.
  js_unfold. simpl.
  destruct (scriptElement w) as [e|]; simpl;
    [destruct (bool_decide (e ∈ attached w)); simpl|];
    destruct (window_google w); simpl;
    destruct (window_callback w); reflexivity.
Qed.

Lemma dispose_attached (w : World) :
  attached (exec dispose w)
  = filter (fun e => scriptElement w ≠ Some e) (attached w).
Proof.
  destruct w as [lp se g cb h r els ps]. js_unfold. simpl.
  destruct se as [e|]; simpl.
  - trans (filter (fun x => x ≠ e) (attached (Build_World lp (Some e) g cb h r els ps)));
      [|apply list_filter_iff; intros x; split; congruence].
    destruct (bool_decide (e ∈ attached _)) eqn:He; simpl.
    + destruct g, cb; simpl; unfold attached; simpl; rewrite filter_app;
        by destruct h.
    + apply bool_decide_eq_false in He. rewrite (filter_absent _ _ He).
      by destruct g, cb.
  - rewrite filter_all; [|done].
    by destruct g, cb.
Qed.

Lemma dispose_fields (w : World) :
  let w' := exec dispose w in
  scriptElement w' = None /\ loadingPromise w' = None /\
  window_google w' = None /\ window_callback w' = None /\
  scripts w' = scripts w /\ promises w' = promises w.
Proof.
  destruct w as [lp se g cb h r els ps]. js_unfold. simpl.
  destruct se as [e|]; simpl;
    [destruct (bool_decide (e ∈ attached _)); simpl|];
    destruct g, cb; simpl; done.
Qed.

Lemma dispose_nothing_to_do (w : World) :
  scriptElement w = None -> loadingPromise w = None ->
  window_google w = None -> window_callback w = None ->
  exec dispose w = w.
Proof.
  destruct w as [lp se g cb h r els ps]. simpl. intros -> -> -> ->.
  reflexivity.
Qed.

(** C7: [dispose] never throws; it detaches the remembered script element
    (and only that one) from the document, leaves [scriptElement],
    [loadingPromise], [window.google] and the global callback all absent,
    and touches no promise.  Afterwards [isLoaded()] is false and the
    element is not in the document.  Disposing again changes nothing, and
    disposing a loader that holds nothing changes nothing. *)
Theorem dispose_spec (w : World) :
  let w' := exec dispose w in
  dispose w = (inr tt, w') /\
  scriptElement w' = None /\ loadingPromise w' = None /\
  window_google w' = None /\ window_callback w' = None /\
  attached w' = filter (fun e => scriptElement w ≠ Some e) (attached w) /\
  scripts w' = scripts w /\ promises w' = promises w /\
  isLoaded w' = false /\
  (forall e, scriptElement w = Some e -> e ∉ attached w') /\
  exec dispose w' = w' /\
  (scriptElement w = None -> loadingPromise w = None ->
   window_google w = None -> window_callback w = None -> w' = w).
Proof.
  intros w'. subst w'.
  destruct (dispose_fields w) as (Hse & Hlp & Hg & Hcb & Hs & Hp).
  repeat split; try done.
  - apply dispose_total.
  - apply dispose_attached.
  - unfold isLoaded. by rewrite Hg.
  - intros e He. rewrite dispose_attached, He.
    intros [Hne _]%list_elem_of_filter. congruence.
  - by apply dispose_nothing_to_do.
  - apply dispose_nothing_to_do.
Qed.

Lemma dispose_spec_witness :
  (0 ∉ attached (exec dispose (exec (load "KEY" None) fresh_page))) /\
  exec dispose fresh_page = fresh_page.
Proof.
  split.
  - apply (dispose_spec (exec (load "KEY" None) fresh_page)). reflexivity.
  - apply (dispose_spec fresh_page); reflexivity.
Defined.

(** ** A load orphaned by dispose *)

Lemma load_without_head (apiKey : string) (options : option LoadOptions) (w : World) :
  isLoaded w = false -> loadingPromise w = None -> document_head w = None ->
  load apiKey options w
  = (inr (length (promises w)),
     {| loadingPromise := Some (length (promises w));
        scriptElement := scriptElement w;
        window_google := window_google w;
        window_callback := None;
        document_head := None;
        document_rest := document_rest w;
        scripts := scripts w ++
          [{| src := buildUrl apiKey options +:+ "&callback=" +:+ callbackName;
              async := true; defer := true; onerror := None |}];
        promises := promises w ++
          [Rejected (TypeError "Cannot read properties of null (reading 'appendChild')")] |}).
Proof.
  intros Hl Hp Hh. js_unfold. rewrite Hl. simpl. rewrite Hp. simpl.
  rewrite lookup_snoc. simpl. rewrite insert_snoc, lookup_snoc. simpl.
  rewrite insert_snoc, lookup_snoc. simpl. rewrite insert_snoc. simpl.
  rewrite Hh. simpl. rewrite lookup_snoc. simpl. rewrite insert_snoc.
  unfold set_loadingPromise, set_promises. simpl. by rewrite Hh.
Qed.

Lemma handler_of_snoc (els : list ScriptElement) (el : ScriptElement)
    (e : eid) (h : ErrorHandler) :
  (els ++ [el]) !! e ≫= onerror = Some h ->
  els !! e ≫= onerror = Some h \/ onerror el = Some h.
Proof.
  intros He. destruct (decide (e < length els)) as [Hlt|Hge].
  - left. by rewrite lookup_app_l in He.
  - right. rewrite lookup_app_r in He by lia.
    destruct (e - length els) as [|[|n]]; simpl in He; done.
Qed.

Section Orphaned.

(** [p] is the promise under consideration and [w0] the state in which the
    handlers that can still reject it are looked up. *)
Variable p : pid.
Variable w0 : World.

Lemma orphaned_alloc (w : World) (s : Settlement value) :
  orphaned p w0 w -> orphaned p w0 (set_promises (promises w ++ [s]) w).
Proof.
  intros (Hp & Hcb & Hh). split; [|split]; simpl; [|done|done].
  rewrite lookup_app_l; [done|]. by apply lookup_lt_Some in Hp.
Qed.

Lemma orphaned_settle (w : World) (q : pid) (s : Settlement value) :
  q ≠ p -> orphaned p w0 w -> orphaned p w0 (exec (settle q s) w).
Proof.
  intros Hq (Hp & Hcb & Hh). unfold exec.
  destruct (settle_state q s w) as (ps & -> & _ & Hother).
  split; [|split]; simpl; [|done|done].
  rewrite Hother; [done|congruence].
Qed.

Lemma orphaned_load (apiKey : string) (options : option LoadOptions) (w : World) :
  orphaned p w0 w -> orphaned p w0 (exec (load apiKey options) w).
Proof.
  intros Ho. pose proof Ho as (Hp & Hcb & Hh).
  assert (Hlt : p < length (promises w)) by by apply lookup_lt_Some in Hp.
  destruct (isLoaded w) eqn:Hl.
  - destruct (load_loaded apiKey options w Hl) as (g & _ & Hload).
    unfold exec. rewrite Hload. by apply orphaned_alloc.
  - destruct (loadingPromise w) as [q|] eqn:Hq.
    + unfold exec. by rewrite (load_joins _ _ q).
    + destruct (document_head w) as [children|] eqn:Hd; unfold exec.
      * rewrite (load_starts _ _ children) by done.
        split; [|split]; simpl.
        -- by rewrite lookup_app_l.
        -- intros [= ?]. lia.
        -- unfold handler_of. simpl. intros e He.
           apply handler_of_snoc in He as [He|He]; [by apply Hh|].
           simpl in He. injection He as ?. lia.
      * rewrite load_without_head by done.
        split; [|split]; simpl.
        -- by rewrite lookup_app_l.
        -- done.
        -- unfold handler_of. simpl. intros e He.
           apply handler_of_snoc in He as [He|He]; [by apply Hh|done].
Qed.

Lemma orphaned_step (a : Action) (w : World) :
  (forall e, a = ScriptError e -> handler_of w0 e ≠ Some (RejectLoad p)) ->
  orphaned p w0 w -> orphaned p w0 (step a w).
Proof.
  intros Ha Ho. pose proof Ho as (Hp & Hcb & Hh).
  destruct a as [apiKey options| |libraryName| | |g|e]; simpl.
  - by apply orphaned_load.
  - destruct (wait_frame w) as (H1 & H2 & H3 & H4 & H5 & H6 & H7 & new & H8).
    split; [|split].
    + rewrite H8, lookup_app_l; [done|]. by apply lookup_lt_Some in Hp.
    + by rewrite H4.
    + unfold handler_of. by rewrite H7.
  - destruct (isLoaded w) eqn:Hl; unfold exec.
    + destruct (importLibrary_loaded libraryName w Hl)
        as (g & m & _ & _ & ->). by apply orphaned_alloc.
    + rewrite (importLibrary_not_loaded libraryName w Hl).
      by apply orphaned_alloc.
  - js_unfold. simpl.
    destruct (scriptElement w) as [e|]; simpl;
      [destruct (bool_decide (e ∈ attached w)); simpl; [done|]|];
      destruct (find _ _); done.
  - destruct (dispose_fields w) as (_ & _ & _ & H4 & H5 & H6).
    split; [|split].
    + by rewrite H6.
    + by rewrite H4.
    + unfold handler_of. by rewrite H5.
  - unfold exec, script_loaded, bind, modify, get. simpl.
    destruct (window_callback w) as [[q]|] eqn:Hq; simpl; [|done].
    assert (q ≠ p) by congruence.
    unfold run_callback, bind, modify, get. simpl.
    apply (orphaned_settle
             (set_window_callback None (set_window_google (Some g) w)));
      [done|]. by split.
  - destruct (handler_of w e) as [[q]|] eqn:He; unfold exec.
    + rewrite (script_error_fires e q) by done.
      assert (q ≠ p).
      { intros ->. by apply (Ha e), Hh. }
      apply (orphaned_settle
               (set_loadingPromise None (set_window_callback None w)));
        [done|]. by split.
    + by rewrite script_error_idle.
Qed.

Lemma orphaned_run (actions : list Action) (w : World) :
  (forall e, ScriptError e ∈ actions -> handler_of w0 e ≠ Some (RejectLoad p)) ->
  orphaned p w0 w -> orphaned p w0 (run actions w).
Proof.
  revert w. induction actions as [|a rest IH]; intros w Ha Ho; [done|].
  simpl. apply IH.
  - intros e He. apply Ha. by right.
  - apply orphaned_step; [|done]. intros e ->. apply Ha. by left.
Qed.

End Orphaned.

(** C9, as the code has it: [dispose] settles no promise, clears
    [loadingPromise] and deletes the global callback.  A promise that was
    pending when [dispose] ran stays pending through everything that happens
    afterwards (calls of the loader, scripts finishing their load, error
    events), except for an error event at a script element whose handler
    was installed for that promise: the handler outlives [dispose]. *)
Theorem disposed_load_stays_pending (p : pid) (w : World) (actions : list Action) :
  promises w !! p = Some Pending ->
  (forall e, ScriptError e ∈ actions -> handler_of w e ≠ Some (RejectLoad p)) ->
  let w' := exec dispose w in
  promises w' = promises w /\
  loadingPromise w' = None /\
  window_callback w' = None /\
  promises (run actions w') !! p = Some Pending.
Proof.
  intros Hp Ha w'. subst w'.
  destruct (dispose_fields w) as (_ & H2 & _ & H4 & H5 & H6).
  do 3 (split; [done|]).
  apply (orphaned_run p w actions (exec dispose w) Ha).
  split; [|split].
  - by rewrite H6.
  - by rewrite H4.
  - unfold handler_of. by rewrite H5.
Qed.

Lemma disposed_load_stays_pending_witness :
  promises
    (run [ScriptLoaded demo_google; CallLoad "KEY" None; CallWait]
       (exec dispose (exec (load "KEY" None) fresh_page))) !! 0
  = Some Pending.
Proof.
  apply (disposed_load_stays_pending 0 (exec (load "KEY" None) fresh_page)
           [ScriptLoaded demo_google; CallLoad "KEY" None; CallWait]).
  - reflexivity.
  - intros e He. repeat (apply elem_of_cons in He as [He|He]; [discriminate|]).
    by apply elem_of_nil in He.
Defined.

(** C9, as claimed, fails: a load is started, [dispose] is called while it
    is in flight, and then the error event of the removed script fires; the
    promise [load] had returned is rejected. *)
Lemma disposed_load_rejected_by_late_error :
  let w1 := exec (load "KEY" None) fresh_page in
  let w2 := exec dispose w1 in
  isLoaded w1 = false /\
  loadingPromise w1 = Some 0 /\
  promises w1 !! 0 = Some Pending /\
  promises w2 !! 0 = Some Pending /\
  promises (run [ScriptError 0] w2) !! 0
  = Some (Rejected (Error "Failed to load Google Maps script")).
Proof. repeat split. Qed.


(** ** getScript and addScript *)

Lemma find_attached (f : eid -> bool) (l : list eid) (e : eid) :
  List.find f l = Some e -> e ∈ l.
Proof. intros H. apply find_some in H as [H _]. by apply list_elem_of_In. Qed.

Lemma getScript_unfold (w : World) :
  getScript w
  = if remembered_attached w then (inr (scriptElement w), w)
    else match first_maps_script w with
         | Some e => (inr (Some e), set_scriptElement (Some e) w)
         | None => (inr None, w)
         end.
Proof.
  unfold getScript, remembered_attached, first_maps_script, is_maps_script,
    bind, modify, ret, document_contains, querySelector_maps_script, get.
  simpl. destruct (scriptElement w) as [e|]; simpl.
  - destruct (bool_decide (e ∈ attached w)); simpl; [done|].
    by destruct (find _ _).
  - by destruct (find _ _).
Qed.

Lemma first_maps_script_attached (w : World) (e : eid) :
  first_maps_script w = Some e -> e ∈ attached w.
Proof.
  apply find_attached.
Qed.

Lemma first_maps_script_frame (v : option eid) (w : World) :
  first_maps_script (set_scriptElement v w) = first_maps_script w.
Proof. reflexivity. Qed.

(** X1: [getScript] returns either nothing, and then changes nothing, or a
    script element that is attached to the document and is the one
    remembered afterwards; it writes no other part of the state, and asking
    again gives the same answer without a further change. *)
Theorem getScript_spec (w : World) :
  exists found,
    getScript w = (inr found, exec getScript w) /\
    (forall e, found = Some e ->
       e ∈ attached w /\ exec getScript w = set_scriptElement (Some e) w) /\
    (found = None -> exec getScript w = w) /\
    getScript (exec getScript w) = (inr found, exec getScript w).
Proof.
  unfold exec. rewrite getScript_unfold.
  destruct (remembered_attached w) eqn:Hr.
  - exists (scriptElement w). simpl. split; [done|]. split; [|split; [done|]].
    + intros e He. unfold remembered_attached in Hr. rewrite He in Hr.
      apply bool_decide_eq_true in Hr. split; [done|].
      destruct w; simpl in *. by rewrite He.
    + rewrite getScript_unfold. by rewrite Hr.
  - destruct (first_maps_script w) as [e|] eqn:Hf.
    + exists (Some e). simpl. split; [done|]. split; [|split; [done|]].
      * intros e' [= <-]. split; [|done]. by apply first_maps_script_attached.
      * rewrite getScript_unfold. unfold remembered_attached. simpl.
        apply first_maps_script_attached in Hf.
        change (attached (set_scriptElement (Some e) w)) with (attached w).
        by rewrite (bool_decide_eq_true_2 _ Hf).
    + exists None. simpl. split; [done|]. split; [done|]. split; [done|].
      rewrite getScript_unfold. by rewrite Hr, Hf.
Qed.

Lemma dispose_head (w : World) :
  document_head (exec dispose w)
  = filter (fun e => scriptElement w ≠ Some e) <$> document_head w.
Proof.
  destruct w as [lp se g cb h r els ps]. js_unfold. simpl.
  destruct se as [e|]; simpl.
  - destruct (bool_decide (e ∈ attached _)) eqn:He; simpl.
    + destruct g, cb, h; simpl; try done;
        f_equal; apply list_filter_iff; intros x; split; congruence.
    + apply bool_decide_eq_false in He. unfold attached in He. simpl in He.
      destruct g, cb, h as [children|]; simpl; try done; f_equal.
      all: trans (filter (fun x => x ≠ e) children);
        [|apply list_filter_iff; intros x; split; congruence].
      all: symmetry; apply filter_absent; intros Hin; apply He;
        apply elem_of_app; by left.
  - destruct g, cb, h as [children|]; simpl; try done; f_equal.
    all: symmetry; by apply filter_all.
Qed.

(** X2: a script element that [getScript] hands out is removed from the
    document by the next [dispose], also when the loader never created it:
    a Maps script tag found in the page is adopted by [getScript] (it is the
    first attached script whose [src] contains the endpoint) and from then
    on treated as the loader's own. *)
Theorem getScript_then_dispose (e : eid) (w : World) :
  (getScript w).1 = inr (Some e) ->
  e ∈ attached w /\
  scriptElement (exec getScript w) = Some e /\
  (remembered_attached w = false -> first_maps_script w = Some e) /\
  e ∉ attached (exec dispose (exec getScript w)).
Proof.
  change (exec getScript w) with (getScript w).2. rewrite getScript_unfold.
  destruct (remembered_attached w) eqn:Hr; simpl.
  - intros [= He]. unfold remembered_attached in Hr. rewrite He in Hr.
    apply bool_decide_eq_true in Hr.
    split; [done|]. split; [done|]. split; [done|].
    rewrite dispose_attached, He.
    intros [Hne _]%list_elem_of_filter. congruence.
  - destruct (first_maps_script w) as [e'|] eqn:Hf; simpl; [|done].
    intros [= <-]. split; [by apply first_maps_script_attached|].
    split; [done|]. split; [done|].
    rewrite dispose_attached. simpl.
    intros [Hne _]%list_elem_of_filter. congruence.
Qed.

Lemma getScript_then_dispose_witness :
  0 ∈ attached page_with_static_script /\
  (0 ∉ attached (exec dispose (exec getScript page_with_static_script))).
Proof.
  destruct (getScript_then_dispose 0 page_with_static_script eq_refl)
    as (H1 & _ & _ & H4).
  split; [exact H1 | exact H4].
Defined.

(** X3: [addScript url] creates one script element with the given [src] and
    with [async] and [defer] set, and appends it as the last child of the
    head; it changes no other element and no loader field.  In a document
    without head it throws a [TypeError] after having created the element,
    which then stays outside the document. *)
Theorem addScript_spec (url : string) (w : World) :
  addScript url w
  = match document_head w with
    | Some children =>
        (inr (length (scripts w)),
         set_document (Some (children ++ [length (scripts w)])) (document_rest w)
           (set_scripts (scripts w ++ [new_script url]) w))
    | None =>
        (inl (TypeError "Cannot read properties of null (reading 'appendChild')"),
         set_scripts (scripts w ++ [new_script url]) w)
    end.
Proof.
  js_unfold. simpl.
  rewrite lookup_snoc. simpl. rewrite insert_snoc, lookup_snoc. simpl.
  rewrite insert_snoc, lookup_snoc. simpl. rewrite insert_snoc.
  by destruct (document_head w).
Qed.

(** X4: when [addScript] throws inside [load], the promise [load] returns
    is rejected with the thrown error and the callback is deleted, but
    [loadingPromise] ends up holding that rejected promise: every later
    [load] and [wait] returns it again, without a new attempt, as long as
    the API is not loaded and [dispose] is not called. *)
Theorem load_when_addScript_throws
    (apiKey : string) (options : option LoadOptions) (w : World) :
  isLoaded w = false -> loadingPromise w = None -> document_head w = None ->
  let p := length (promises w) in
  let w' := exec (load apiKey options) w in
  load apiKey options w = (inr p, w') /\
  promises w' !! p
  = Some (Rejected (TypeError "Cannot read properties of null (reading 'appendChild')")) /\
  loadingPromise w' = Some p /\
  window_callback w' = None /\
  scriptElement w' = scriptElement w /\
  attached w' = attached w /\
  (forall apiKey' options', load apiKey' options' w' = (inr p, w')) /\
  wait w' = (inr p, w').
Proof.
  intros Hl Hp Hh p w'. subst p w'. unfold exec.
  rewrite load_without_head by done. simpl.
  split; [done|]. split; [apply lookup_snoc|].
  split; [done|]. split; [done|]. split; [done|].
  split; [unfold attached; simpl; by rewrite Hh|].
  split.
  - intros apiKey' options'. by apply load_joins.
  - by apply wait_joins.
Qed.

Lemma load_when_addScript_throws_witness :
  load "KEY" None headless_page = (inr 0, exec (load "KEY" None) headless_page) /\
  load "OTHER" None (exec (load "KEY" None) headless_page)
  = (inr 0, exec (load "KEY" None) headless_page).
Proof.
  destruct (load_when_addScript_throws "KEY" None headless_page
              eq_refl eq_refl eq_refl) as (H1 & _ & _ & _ & _ & _ & H7 & _).
  split; [exact H1 | exact (H7 "OTHER" None)].
Defined.

(** X5: the reload pattern [dispose(); load(key, options)].  Whatever the
    state before, after [dispose] a [load] starts a new attempt: it returns
    a new pending promise and appends a new script element to the head,
    from which the element remembered before has been removed. *)
Theorem dispose_then_load (apiKey : string) (options : option LoadOptions)
    (children : list eid) (w : World) :
  document_head w = Some children ->
  let w1 := exec dispose w in
  let w2 := exec (load apiKey options) w1 in
  load apiKey options w1 = (inr (length (promises w)), w2) /\
  promises w2 !! length (promises w) = Some Pending /\
  loadingPromise w2 = Some (length (promises w)) /\
  scriptElement w2 = Some (length (scripts w)) /\
  document_head w2
  = Some (filter (fun e => scriptElement w ≠ Some e) children ++ [length (scripts w)]) /\
  scripts w2 !! length (scripts w)
  = Some {| src := buildUrl apiKey options +:+ "&callback=__googleMapsCallback__";
            async := true; defer := true;
            onerror := Some (RejectLoad (length (promises w))) |}.
Proof.
  intros Hh w1 w2. subst w1 w2.
  destruct (dispose_fields w) as (Hse & Hlp & Hg & Hcb & Hs & Hp).
  assert (Hl : isLoaded (exec dispose w) = false)
    by (unfold isLoaded; by rewrite Hg).
  assert (Hd : document_head (exec dispose w)
               = Some (filter (fun e => scriptElement w ≠ Some e) children))
    by (by rewrite dispose_head, Hh).
  remember (exec dispose w) as wd eqn:Hwd. clear Hwd. unfold exec.
  rewrite (load_starts _ _ _ _ Hl Hlp Hd). simpl. rewrite Hs, Hp.
  split; [done|]. split; [apply lookup_snoc|].
  split; [done|]. split; [done|]. split; [done|]. apply lookup_snoc.
Qed.

Lemma dispose_then_load_witness :
  document_head
    (exec (load "KEY" None) (exec dispose (exec (load "KEY" None) fresh_page)))
  = Some [1].
Proof.
  destruct (dispose_then_load "KEY" None [0] (exec (load "KEY" None) fresh_page)
              eq_refl) as (_ & _ & _ & _ & H & _).
  exact H.
Defined.

(** ** Runs of the loader *)

(** X6: the error handler of an earlier script also cancels a newer load.
    If the error event reaches a script whose handler was installed for
    promise [p1] while another promise [p2] is pending, the handler clears
    [loadingPromise] and deletes the global callback all the same; [p2] is
    then left without a callback and stays pending whatever happens next,
    its own script finishing to load included, short of the error event of
    its own script. *)
Theorem stale_error_orphans_newer_load
    (e : eid) (p1 p2 : pid) (w : World) (actions : list Action) :
  handler_of w e = Some (RejectLoad p1) ->
  p1 ≠ p2 ->
  promises w !! p2 = Some Pending ->
  (forall e', ScriptError e' ∈ actions -> handler_of w e' ≠ Some (RejectLoad p2)) ->
  let w' := exec (script_error e) w in
  loadingPromise w' = None /\
  window_callback w' = None /\
  promises (run actions w') !! p2 = Some Pending.
Proof.
  intros He Hne Hp Ha w'. subst w'. unfold exec.
  rewrite (script_error_fires e p1) by done.
  destruct (settle_state p1 (Rejected (Error SCRIPT_LOAD_ERROR))
              (set_loadingPromise None (set_window_callback None w)))
    as (ps & -> & Hlen & Hother).
  simpl in *. split; [done|]. split; [done|].
  apply (orphaned_run p2 w actions _ Ha).
  split; [|split]; simpl.
  - rewrite Hother; [done|congruence].
  - done.
  - done.
Qed.

Lemma stale_error_orphans_newer_load_witness :
  let w := run [CallLoad "KEY" None; CallDispose; CallLoad "KEY" None] fresh_page in
  loadingPromise w = Some 1 /\
  window_callback w = Some (ResolveLoad 1) /\
  promises (run [ScriptLoaded demo_google; CallWait] (exec (script_error 0) w)) !! 1
  = Some Pending.
Proof.
  split; [reflexivity|]. split; [reflexivity|].
  apply (stale_error_orphans_newer_load 0 0 1
           (run [CallLoad "KEY" None; CallDispose; CallLoad "KEY" None] fresh_page)
           [ScriptLoaded demo_google; CallWait]).
  - reflexivity.
  - discriminate.
  - reflexivity.
  - intros e' He'. repeat (apply elem_of_cons in He' as [He'|He']; [discriminate|]).
    by apply elem_of_nil in He'.
Defined.

Lemma load_appends (apiKey : string) (options : option LoadOptions) (w : World) :
  exists new, promises (exec (load apiKey options) w) = promises w ++ new.
Proof.
  destruct (isLoaded w) eqn:Hl.
  - destruct (load_loaded apiKey options w Hl) as (g & _ & Hload).
    unfold exec. rewrite Hload. simpl. eauto.
  - destruct (loadingPromise w) as [q|] eqn:Hq.
    + unfold exec. rewrite (load_joins _ _ q) by done. simpl.
      exists nil. by rewrite app_nil_r.
    + destruct (document_head w) as [children|] eqn:Hd; unfold exec.
      * rewrite (load_starts _ _ children) by done. simpl. eauto.
      * rewrite load_without_head by done. simpl. eauto.
Qed.

Lemma call_appends (a : Action) (w : World) :
  is_call a = true -> exists new, promises (step a w) = promises w ++ new.
Proof.
  destruct a as [apiKey options| |libraryName| | |g|e]; simpl; try done; intros _.
  - apply load_appends.
  - by destruct (wait_frame w) as (_ & _ & _ & _ & _ & _ & _ & H).
  - destruct (isLoaded w) eqn:Hl; unfold exec.
    + destruct (importLibrary_loaded libraryName w Hl) as (g & m & _ & _ & ->).
      simpl. eauto.
    + rewrite (importLibrary_not_loaded libraryName w Hl). simpl. eauto.
  - change (exec getScript w) with (getScript w).2. rewrite getScript_unfold.
    exists nil. rewrite app_nil_r.
    destruct (remembered_attached w); [done|].
    by destruct (first_maps_script w).
  - destruct (dispose_fields w) as (_ & _ & _ & _ & _ & ->).
    exists nil. by rewrite app_nil_r.
Qed.

(** X7: no method of the loader settles or changes a promise that exists
    already: through any sequence of [load], [wait], [importLibrary],
    [getScript] and [dispose] calls the promises that were there keep their
    state, pending ones included (only the browser events settle them). *)
Theorem calls_keep_promises (actions : list Action) (w : World) :
  forallb is_call actions = true ->
  exists new, promises (run actions w) = promises w ++ new.
Proof.
  revert w. induction actions as [|a rest IH]; intros w Hall; simpl.
  - exists nil. by rewrite app_nil_r.
  - simpl in Hall. apply andb_prop in Hall as [Ha Hrest].
    destruct (call_appends a w Ha) as (new1 & H1).
    destruct (IH (step a w) Hrest) as (new2 & H2).
    exists (new1 ++ new2). by rewrite H2, H1, app_assoc.
Qed.

Lemma calls_keep_promises_witness :
  exists new,
    promises (run [CallDispose; CallLoad "KEY" None; CallWait]
                (exec (load "KEY" None) fresh_page))
    = promises (exec (load "KEY" None) fresh_page) ++ new.
Proof.
  apply (calls_keep_promises [CallDispose; CallLoad "KEY" None; CallWait]
           (exec (load "KEY" None) fresh_page)).
  reflexivity.
Defined.

Lemma callback_in_flight_alloc (w : World) (new : list (Settlement value)) :
  callback_in_flight w -> callback_in_flight (set_promises (promises w ++ new) w).
Proof.
  intros Hinv p Hcb. simpl in *. destruct (Hinv p Hcb) as [Hlp Hp].
  split; [done|]. rewrite lookup_app_l; [done|]. by apply lookup_lt_Some in Hp.
Qed.

Lemma callback_in_flight_cleared (w : World) :
  window_callback w = None -> callback_in_flight w.
Proof. intros Hcb p. by rewrite Hcb. Qed.

Lemma callback_in_flight_step (a : Action) (w : World) :
  callback_in_flight w -> callback_in_flight (step a w).
Proof.
  intros Hinv. destruct a as [apiKey options| |libraryName| | |g|e]; simpl.
  - destruct (isLoaded w) eqn:Hl.
    + destruct (load_loaded apiKey options w Hl) as (g & _ & Hload).
      unfold exec. rewrite Hload. by apply callback_in_flight_alloc.
    + destruct (loadingPromise w) as [q|] eqn:Hq.
      * unfold exec. by rewrite (load_joins _ _ q).
      * destruct (document_head w) as [children|] eqn:Hd; unfold exec.
        -- rewrite (load_starts _ _ children) by done.
           intros p. simpl. intros [= <-]. split; [done|]. apply lookup_snoc.
        -- rewrite load_without_head by done.
           by apply callback_in_flight_cleared.
  - destruct (wait_frame w) as (H1 & _ & _ & H4 & _ & _ & _ & new & H8).
    intros p. rewrite H4, H1, H8. intros Hcb. destruct (Hinv p Hcb) as [Hlp Hp].
    split; [done|]. rewrite lookup_app_l; [done|]. by apply lookup_lt_Some in Hp.
  - destruct (isLoaded w) eqn:Hl; unfold exec.
    + destruct (importLibrary_loaded libraryName w Hl) as (g & m & _ & _ & ->).
      by apply callback_in_flight_alloc.
    + rewrite (importLibrary_not_loaded libraryName w Hl).
      by apply callback_in_flight_alloc.
  - change (exec getScript w) with (getScript w).2. rewrite getScript_unfold.
    destruct (remembered_attached w); [done|].
    by destruct (first_maps_script w).
  - apply callback_in_flight_cleared.
    by destruct (dispose_fields w) as (_ & _ & _ & H & _).
  - unfold exec, script_loaded, bind, modify, get. simpl.
    destruct (window_callback w) as [[q]|] eqn:Hq; simpl.
    + unfold run_callback, bind, modify, get, resolve. simpl.
      match goal with
      | |- context [settle ?q0 ?s0 ?w0] =>
          destruct (settle_state q0 s0 w0) as (ps & -> & _ & _)
      end.
      by apply callback_in_flight_cleared.
    + apply callback_in_flight_cleared. simpl. done.
  - destruct (handler_of w e) as [[q]|] eqn:He; unfold exec.
    + rewrite (script_error_fires e q) by done.
      destruct (settle_state q (Rejected (Error SCRIPT_LOAD_ERROR))
                  (set_loadingPromise None (set_window_callback None w)))
        as (ps & -> & _ & _).
      by apply callback_in_flight_cleared.
    + by rewrite script_error_idle.
Qed.

(** X8: the global callback [__googleMapsCallback__] is registered only
    while a load is in flight and its promise is pending: in every state
    reached from one where this holds (a page in which the loader has not
    been used, for one), a registered callback resolves exactly the promise
    held in [loadingPromise], and that promise is still pending. *)
Theorem callback_only_in_flight (actions : list Action) (w : World) :
  callback_in_flight w ->
  forall p, window_callback (run actions w) = Some (ResolveLoad p) ->
    loadingPromise (run actions w) = Some p /\
    promises (run actions w) !! p = Some Pending.
Proof.
  revert w. induction actions as [|a rest IH]; intros w Hinv; simpl.
  - exact Hinv.
  - apply IH. by apply callback_in_flight_step.
Qed.

Lemma callback_only_in_flight_witness :
  let w := run [CallLoad "KEY" None; ScriptError 0; CallLoad "KEY" None] fresh_page in
  loadingPromise w = Some 1 /\ promises w !! 1 = Some Pending.
Proof.
  apply (callback_only_in_flight
           [CallLoad "KEY" None; ScriptError 0; CallLoad "KEY" None] fresh_page).
  - intros p Hcb. discriminate Hcb.
  - reflexivity.
Defined.

Lemma failed_attempt_state (apiKey : string) (options : option LoadOptions)
    (children : list eid) (w : World) :
  isLoaded w = false -> loadingPromise w = None ->
  document_head w = Some children ->
  failed_attempt apiKey options w
  = (inr tt,
     {| loadingPromise := None;
        scriptElement := Some (length (scripts w));
        window_google := window_google w;
        window_callback := None;
        document_head := Some (children ++ [length (scripts w)]);
        document_rest := document_rest w;
        scripts := scripts w ++
          [{| src := buildUrl apiKey options +:+ "&callback=" +:+ callbackName;
              async := true; defer := true;
              onerror := Some (RejectLoad (length (promises w))) |}];
        promises := promises w ++ [Rejected (Error SCRIPT_LOAD_ERROR)] |}).
Proof.
  intros Hl Hp Hh. unfold failed_attempt, bind at 1.
  rewrite (load_starts _ _ children) by done.
  unfold bind, get. simpl.
  rewrite (script_error_fires _ (length (promises w)))
    by (unfold handler_of; simpl; by rewrite lookup_snoc).
  unfold settle. simpl. rewrite lookup_snoc. simpl. by rewrite insert_snoc.
Qed.

(** X9: failed attempts pile up.  Each time a load is started and its
    script fails, the dead script element stays in the head and a new
    rejected promise is left behind: after [n] attempts in a row (a caller
    that retries once makes two) the head holds [n] more script elements
    and no load is in flight. *)
Theorem failed_attempts_accumulate (n : nat) (apiKey : string)
    (options : option LoadOptions) (children : list eid) (w : World) :
  isLoaded w = false -> loadingPromise w = None ->
  document_head w = Some children ->
  let w' := exec (failed_attempts n apiKey options) w in
  document_head w' = Some (children ++ seq (length (scripts w)) n) /\
  length (scripts w') = length (scripts w) + n /\
  promises w' = promises w ++ replicate n (Rejected (Error "Failed to load Google Maps script")) /\
  loadingPromise w' = None /\
  isLoaded w' = false.
Proof.
  revert children w. induction n as [|n IH]; intros children w Hl Hp Hh; simpl.
  - unfold exec, ret. simpl. rewrite !app_nil_r, Nat.add_0_r. done.
  - unfold exec, bind. rewrite (failed_attempt_state _ _ children) by done.
    match goal with
    | |- context [failed_attempts n apiKey options ?w1] =>
        destruct (IH (children ++ [length (scripts w)]) w1)
          as (H1 & H2 & H3 & H4 & H5); [done..|]
    end.
    unfold exec in *. simpl in *.
    rewrite H1, H2, H3, H4, H5. rewrite !length_app. simpl.
    rewrite <- !app_assoc. simpl.
    replace (length (scripts w) + 1) with (S (length (scripts w))) by lia.
    repeat split; try done. lia.
Qed.

Lemma failed_attempts_accumulate_witness :
  document_head (exec (failed_attempts 2 "KEY" None) fresh_page) = Some [0; 1] /\
  promises (exec (failed_attempts 2 "KEY" None) fresh_page)
  = [Rejected (Error "Failed to load Google Maps script");
     Rejected (Error "Failed to load Google Maps script")].
Proof.
  destruct (failed_attempts_accumulate 2 "KEY" None [] fresh_page
              eq_refl eq_refl eq_refl) as (H1 & _ & H3 & _).
  split; [exact H1 | exact H3].
Defined.

Lemma keeps_api_step (a : Action) (w : World) :
  keeps_api a = true -> isLoaded w = true ->
  window_google (step a w) = window_google w /\
  document_head (step a w) = document_head w /\
  document_rest (step a w) = document_rest w /\
  scripts (step a w) = scripts w.
Proof.
  intros Ha Hl. destruct a as [apiKey options| |libraryName| | |g|e]; simpl;
    try done.
  - destruct (load_loaded apiKey options w Hl) as (g & _ & Hload).
    unfold exec. by rewrite Hload.
  - by destruct (wait_frame w) as (_ & _ & -> & _ & -> & -> & -> & _).
  - destruct (importLibrary_loaded libraryName w Hl) as (g & m & _ & _ & Hi).
    unfold exec. by rewrite Hi.
  - change (exec getScript w) with (getScript w).2. rewrite getScript_unfold.
    destruct (remembered_attached w); [done|].
    by destruct (first_maps_script w).
  - destruct (handler_of w e) as [[q]|] eqn:He; unfold exec.
    + rewrite (script_error_fires e q) by done.
      by destruct (settle_state q (Rejected (Error SCRIPT_LOAD_ERROR))
                     (set_loadingPromise None (set_window_callback None w)))
        as (ps & -> & _ & _).
    + by rewrite script_error_idle.
Qed.

(** X10: once the API is loaded it stays loaded, and nothing more is
    injected, until [dispose] is called or another Maps script runs:
    through any sequence of [load], [wait], [importLibrary] and [getScript]
    calls and error events, [window.google], the document and the script
    elements are unchanged, so [isLoaded()] keeps answering true. *)
Theorem loaded_is_stable (actions : list Action) (w : World) :
  forallb keeps_api actions = true ->
  isLoaded w = true ->
  isLoaded (run actions w) = true /\
  window_google (run actions w) = window_google w /\
  attached (run actions w) = attached w /\
  scripts (run actions w) = scripts w.
Proof.
  revert w. induction actions as [|a rest IH]; intros w Hall Hl; simpl; [done|].
  simpl in Hall. apply andb_prop in Hall as [Ha Hrest].
  destruct (keeps_api_step a w Ha Hl) as (Hg & Hh & Hr & Hs).
  assert (Hl' : isLoaded (step a w) = true) by (unfold isLoaded; by rewrite Hg).
  destruct (IH (step a w) Hrest Hl') as (H1 & H2 & H3 & H4).
  split; [done|]. split; [by rewrite H2|].
  split; [|by rewrite H4].
  rewrite H3. unfold attached. by rewrite Hh, Hr.
Qed.

Lemma loaded_is_stable_witness :
  let w := run [CallLoad "KEY" None; ScriptLoaded demo_google] fresh_page in
  isLoaded (run [CallLoad "OTHER" None; ScriptError 0; CallLoad "KEY" None; CallWait] w)
  = true /\
  attached (run [CallLoad "OTHER" None; ScriptError 0; CallLoad "KEY" None; CallWait] w)
  = [0].
Proof.
  destruct (loaded_is_stable
              [CallLoad "OTHER" None; ScriptError 0; CallLoad "KEY" None; CallWait]
              (run [CallLoad "KEY" None; ScriptLoaded demo_google] fresh_page)
              eq_refl eq_refl) as (H1 & _ & H3 & _).
  split; [exact H1 | exact H3].
Defined.

(** ** More on the URLs *)



Lemma string_app_assoc (a b c : string) : (a +:+ b) +:+ c = a +:+ (b +:+ c).
Proof.
  induction a as [|x a IH]; [done|]. rewrite !append_cons. by rewrite IH.
Qed.

Lemma concat_snoc (sep : string) (x : string) (l : list string) (y : string) :
  String.concat sep ((x :: l) ++ [y]) = String.concat sep (x :: l) +:+ sep +:+ y.
Proof.
  revert x. induction l as [|z l IH]; intros x; [done|].
  change (String.concat sep ((x :: z :: l) ++ [y]))
    with (x +:+ sep +:+ String.concat sep ((z :: l) ++ [y])).
  rewrite IH.
  change (String.concat sep (x :: z :: l))
    with (x +:+ sep +:+ String.concat sep (z :: l)).
  by rewrite !string_app_assoc.
Qed.

(** X12: the URL of the script that [load] injects carries the parameters
    of [buildUrl] followed by [callback=__googleMapsCallback__], once and in
    the last place; no key or option can add, remove or replace the
    callback parameter. *)
Theorem load_script_url (apiKey : string) (options : option LoadOptions)
    (children : list eid) (w : World) :
  isLoaded w = false -> loadingPromise w = None ->
  document_head w = Some children ->
  exists el,
    scripts (exec (load apiKey options) w) !! length (scripts w) = Some el /\
    src el = buildUrl apiKey options +:+ "&callback=__googleMapsCallback__" /\
    url_parameters (src el)
    = expected_parameters apiKey options ++ [("callback", "__googleMapsCallback__")].
Proof.
  intros Hl Hp Hh. unfold exec. rewrite (load_starts _ _ children) by done.
  simpl. eexists. split; [apply lookup_snoc|]. simpl. split; [done|].
  rewrite buildUrl_expected. unfold url_parameters.
  change (URLSearchParams.cut_at "?"
            (("https://maps.googleapis.com/maps/api/js?" +:+
              URLSearchParams.toString (expected_parameters apiKey options))
             +:+ "&callback=" +:+ callbackName)).2
    with (URLSearchParams.toString (expected_parameters apiKey options)
          +:+ "&" +:+ URLSearchParams.serialize_pair ("callback", "__googleMapsCallback__")).
  unfold URLSearchParams.toString at 1. unfold expected_parameters at 1.
  simpl map. rewrite <- concat_snoc.
  rewrite <- (map_cons URLSearchParams.serialize_pair).
  change [URLSearchParams.serialize_pair ("callback", "__googleMapsCallback__")]
    with (map URLSearchParams.serialize_pair [("callback", "__googleMapsCallback__")]).
  rewrite <- map_app.
  change (String.concat "&" (map URLSearchParams.serialize_pair ?l))
    with (URLSearchParams.toString l).
  rewrite parse_toString. reflexivity.
Qed.

Lemma load_script_url_witness :
  exists el,
    scripts (exec (load "a&callback=x" None) fresh_page) !! 0 = Some el /\
    url_parameters (src el)
    = [("key", "a&callback=x"); ("callback", "__googleMapsCallback__")].
Proof.
  destruct (load_script_url "a&callback=x" None [] fresh_page
              eq_refl eq_refl eq_refl) as (el & H1 & _ & H3).
  exists el. split; [exact H1 | exact H3].
Defined.

(** ** Contexts *)

(** X13: the hook made by [createContext] returns the props of the nearest
    enclosing [Provider] when there is one, whatever the default; without a
    provider it returns the default value when one was given, and throws
    [Error("useContext must be used within `<name>Provider`.")] exactly
    when there is neither.  The second test of the hook
    ([defaultValue !== undefined]) never decides anything: the context it
    read is undefined only when the default is. *)
Theorem useContextValue_cases (ContextValue : Type) (rootComponentName : string)
    (defaultValue : option ContextValue) (providers : list ContextValue) :
  (forall props outer, providers = props :: outer ->
     CreateContext.useContextValue ContextValue rootComponentName defaultValue providers
     = inr props) /\
  (forall d, providers = [] -> defaultValue = Some d ->
     CreateContext.useContextValue ContextValue rootComponentName defaultValue providers
     = inr d) /\
  (CreateContext.useContextValue ContextValue rootComponentName defaultValue providers
   = inl (Error ("useContext must be used within `" +:+ rootComponentName +:+ "Provider`."))
   <-> providers = [] /\ defaultValue = None) /\
  (CreateContext.useReactContext ContextValue defaultValue
     (map (CreateContext.Provider_value ContextValue) providers) = None ->
   defaultValue = None).
Proof.
  unfold CreateContext.useContextValue.
  split; [|split; [|split]].
  - by intros props outer ->.
  - by intros d -> ->.
  - destruct providers as [|props outer], defaultValue as [d|]; simpl;
      split; try done; intros [? ?]; done.
  - by destruct providers.
Qed.

Lemma useContextValue_cases_witness :
  CreateContext.useContextValue nat "Demo" None [4; 5] = inr 4 /\
  CreateContext.useContextValue nat "Demo" (Some 7) [] = inr 7 /\
  CreateContext.useContextValue nat "Demo" None []
  = inl (Error "useContext must be used within `DemoProvider`.").
Proof.
  split; [|split].
  - apply (proj1 (useContextValue_cases nat "Demo" None [4; 5]) 4 [5]).
    reflexivity.
  - apply (proj1 (proj2 (useContextValue_cases nat "Demo" (Some 7) [])) 7);
      reflexivity.
  - apply (proj1 (proj2 (proj2 (useContextValue_cases nat "Demo" None [])))).
    split; reflexivity.
Defined.

(** X14: [useMap] and [useGoogleMapsAPI] never throw, because both contexts
    are created with a default value.  Used outside their provider they
    return that default: no map, and for the API "still loading" with no
    API and no error, for ever. *)
Theorem map_hooks_outside_provider :
  (forall providers, exists v, useMap providers = inr v) /\
  (forall providers, exists v, useGoogleMapsAPI providers = inr v) /\
  useMap [] = inr {| ctx_map := None |} /\
  useGoogleMapsAPI []
  = inr {| ctx_google := None; ctx_isLoading := true; ctx_error := None |}.
Proof.
  split; [|split; [|split]]; try reflexivity.
  - intros [|props outer]; eexists; reflexivity.
  - intros [|props outer]; eexists; reflexivity.
Qed.

(** ** The singleton *)

(** X15: [getInstance] hands out one object: it constructs a loader only
    when the static field is empty, a second call returns the same object
    and changes nothing, and after module evaluation the object it returns
    is the exported [googleMapsLoader]. *)
Theorem getInstance_once (s : Program) :
  let o := (getInstance s).1 in
  let s1 := (getInstance s).2 in
  instance s1 = Some o /\
  (forall o', instance s = Some o' -> o = o' /\ s1 = s) /\
  (instance s = None ->
     o = length (objects s) /\ objects s1 = objects s ++ [new_loader]) /\
  getInstance s1 = (o, s1) /\
  page s1 = page s /\
  forall w, (getInstance (module_loaded w)).1 = googleMapsLoader.
Proof.
  cbv zeta. unfold getInstance.
  destruct (instance s) as [o|] eqn:Hi; simpl.
  - rewrite Hi. split; [done|]. split; [by intros o' [= <-]|].
    split; [done|]. split; [done|]. split; done.
  - split; [done|]. split; [done|]. split; [done|]. split; [done|].
    split; done.
Qed.

Lemma call_objects_length {A} (o : oid) (m : M A) (s : Program) :
  length (objects (call o m s).2) = length (objects s).
Proof.
  unfold call. destruct (objects s !! o); [|done]. simpl. apply length_insert.
Qed.

(** X16: [resetInstance] disposes the current object and empties the static
    field, but the object lives on: the next [getInstance] constructs
    another object, different from it, so a reference taken before the
    reset (the exported [googleMapsLoader], for one) is no longer the
    instance that [getInstance] returns. *)
Theorem resetInstance_makes_second_loader (o : oid) (obj : LoaderObject) (s : Program) :
  instance s = Some o ->
  objects s !! o = Some obj ->
  let s1 := resetInstance s in
  let o' := (getInstance s1).1 in
  let s2 := (getInstance s1).2 in
  instance s1 = None /\
  page s1 = exec dispose (focus obj (page s)) /\
  objects s1 !! o = Some new_loader /\
  o' = length (objects s) /\
  o' ≠ o /\
  objects s2 !! o = Some new_loader /\
  objects s2 !! o' = Some new_loader /\
  instance s2 = Some o'.
Proof.
  intros Hi Ho. cbv zeta.
  assert (Hlt : o < length (objects s)) by by apply lookup_lt_Some in Ho.
  unfold resetInstance. rewrite Hi. unfold getInstance. simpl.
  unfold call. rewrite Ho. simpl.
  destruct (dispose_fields (focus obj (page s))) as (Hse & Hlp & _).
  unfold exec in *. unfold fields_of. rewrite Hse, Hlp.
  rewrite length_insert.
  split; [done|]. split; [done|].
  split; [by apply list_lookup_insert_eq|].
  split; [done|]. split; [lia|].
  split; [rewrite lookup_app_l by (rewrite length_insert; lia);
          by apply list_lookup_insert_eq|].
  split; [|done].
  rewrite <- (length_insert (objects s) o new_loader) at 1. apply lookup_snoc.
Qed.

Lemma resetInstance_makes_second_loader_witness :
  (getInstance (resetInstance (module_loaded fresh_page))).1 = 1 /\
  (getInstance (resetInstance (module_loaded fresh_page))).1 ≠ googleMapsLoader.
Proof.
  destruct (resetInstance_makes_second_loader 0 new_loader
              (module_loaded fresh_page) eq_refl eq_refl)
    as (_ & _ & _ & H4 & H5 & _).
  split; [exact H4 | exact H5].
Defined.

Lemma call_load_starts (o : oid) (apiKey : string) (options : option LoadOptions)
    (children : list eid) (s : Program) :
  objects s !! o = Some new_loader ->
  isLoaded (page s) = false ->
  document_head (page s) = Some children ->
  (call o (load apiKey options) s).1 = inr (length (promises (page s))) /\
  page (call o (load apiKey options) s).2
  = loading_state (buildUrl apiKey options) children (focus new_loader (page s)) /\
  objects (call o (load apiKey options) s).2
  = <[o := {| own_loadingPromise := Some (length (promises (page s)));
              own_scriptElement := Some (length (scripts (page s))) |}]> (objects s).
Proof.
  intros Ho Hl Hh. unfold call. rewrite Ho. simpl.
  rewrite (load_starts _ _ children) by done. done.
Qed.

(** X17: with two loader objects alive (as after [resetInstance], when the
    exported loader and the new instance both exist) the one-script
    guarantee is lost.  A [load] through each of them, while the API is
    not loaded, injects two scripts and makes two pending promises; both
    register the same global callback name, so the second registration
    replaces the first, and when a Maps script runs only the second promise
    is fulfilled: the first stays pending. *)
Theorem two_loaders_two_scripts (o1 o2 : oid)
    (apiKey1 apiKey2 : string) (options1 options2 : option LoadOptions)
    (children : list eid) (g : GoogleObject) (s : Program) :
  o1 ≠ o2 ->
  objects s !! o1 = Some new_loader ->
  objects s !! o2 = Some new_loader ->
  isLoaded (page s) = false ->
  document_head (page s) = Some children ->
  let p1 := length (promises (page s)) in
  let e1 := length (scripts (page s)) in
  let s1 := (call o1 (load apiKey1 options1) s).2 in
  let s2 := (call o2 (load apiKey2 options2) s1).2 in
  let s3 := program_script_loaded g s2 in
  (call o1 (load apiKey1 options1) s).1 = inr p1 /\
  (call o2 (load apiKey2 options2) s1).1 = inr (S p1) /\
  document_head (page s2) = Some (children ++ [e1; S e1]) /\
  window_callback (page s2) = Some (ResolveLoad (S p1)) /\
  promises (page s2) !! p1 = Some Pending /\
  promises (page s2) !! S p1 = Some Pending /\
  promises (page s3) !! p1 = Some Pending /\
  promises (page s3) !! S p1 = Some (Fulfilled (VGoogle g)).
Proof.
  intros Hne Ho1 Ho2 Hl Hh. cbv zeta.
  destruct (call_load_starts o1 apiKey1 options1 children s Ho1 Hl Hh)
    as (Hr1 & Hp1 & Hob1).
  set (s1 := (call o1 (load apiKey1 options1) s).2) in *.
  assert (Ho2' : objects s1 !! o2 = Some new_loader).
  { rewrite Hob1. by rewrite list_lookup_insert_ne. }
  assert (Hl1 : isLoaded (page s1) = false) by (rewrite Hp1; exact Hl).
  assert (Hh1 : document_head (page s1)
                = Some (children ++ [length (scripts (page s))]))
    by (rewrite Hp1; reflexivity).
  destruct (call_load_starts o2 apiKey2 options2 _ s1 Ho2' Hl1 Hh1)
    as (Hr2 & Hp2 & _).
  assert (Hlen : length (promises (page s1)) = S (length (promises (page s)))).
  { rewrite Hp1. simpl. rewrite length_app. simpl. lia. }
  assert (Hslen : length (scripts (page s1)) = S (length (scripts (page s)))).
  { rewrite Hp1. simpl. rewrite length_app. simpl. lia. }
  split; [done|]. split; [by rewrite Hr2, Hlen|].
  unfold program_script_loaded. simpl. rewrite Hp2.
  assert (Hps : promises (page s1) = promises (page s) ++ [Pending])
    by (rewrite Hp1; reflexivity).
  split; [simpl; by rewrite Hslen, <- app_assoc|].
  split; [simpl; by rewrite Hlen|].
  split; [simpl; rewrite Hps, <- app_assoc, lookup_app_r by lia;
          by rewrite Nat.sub_diag|].
  split; [simpl; rewrite <- Hlen; apply lookup_snoc|].
  unfold exec, script_loaded, run_callback, resolve, settle, bind, modify, get.
  simpl. rewrite <- Hlen at 1. rewrite lookup_snoc. simpl.
  rewrite insert_snoc.
  split; [rewrite Hps, <- app_assoc, lookup_app_r by lia;
          by rewrite Nat.sub_diag|].
  apply lookup_snoc.
Qed.

Lemma two_loaders_two_scripts_witness :
  let s := (getInstance (resetInstance (module_loaded fresh_page))).2 in
  let s2 := (call 1 (load "KEY" None) (call googleMapsLoader (load "KEY" None) s).2).2 in
  document_head (page s2) = Some [0; 1] /\
  promises (page (program_script_loaded demo_google s2)) !! 0 = Some Pending.
Proof.
  destruct (two_loaders_two_scripts 0 1 "KEY" "KEY" None None [] demo_google
              (getInstance (resetInstance (module_loaded fresh_page))).2)
    as (_ & _ & H3 & _ & _ & _ & H7 & _); try reflexivity; [discriminate|].
  split; [exact H3 | exact H7].
Defined.

Lemma call_load_starts_owners (o : oid) (apiKey : string)
    (options : option LoadOptions) (children : list eid) (s : Program) :
  objects s !! o = Some new_loader ->
  isLoaded (page s) = false ->
  document_head (page s) = Some children ->
  owners (call o (load apiKey options) s).2 = owners s ++ [o].
Proof.
  intros Ho Hl Hh. unfold call. rewrite Ho. simpl.
  rewrite (load_starts _ _ children) by done. simpl.
  rewrite length_app. simpl.
  by replace (length (promises (page s)) + 1 - length (promises (page s))) with 1
    by lia.
Qed.

(** X18: each error handler works on the object that created it, but the
    callback slot is shared.  With a load in flight in each of two loader
    objects, the error event of the first script rejects the first promise
    and clears the first object's [loadingPromise] only; the second object
    still holds its promise, yet the global callback, which by then was the
    second load's, has been deleted, so that promise stays pending when a
    Maps script runs. *)
Theorem error_in_one_loader_unhooks_the_other (o1 o2 : oid)
    (apiKey1 apiKey2 : string) (options1 options2 : option LoadOptions)
    (children : list eid) (g : GoogleObject) (s : Program) :
  o1 ≠ o2 ->
  objects s !! o1 = Some new_loader ->
  objects s !! o2 = Some new_loader ->
  isLoaded (page s) = false ->
  document_head (page s) = Some children ->
  length (owners s) = length (promises (page s)) ->
  let p1 := length (promises (page s)) in
  let e1 := length (scripts (page s)) in
  let s2 := (call o2 (load apiKey2 options2)
               (call o1 (load apiKey1 options1) s).2).2 in
  let s3 := program_script_error e1 s2 in
  promises (page s3) !! p1
  = Some (Rejected (Error "Failed to load Google Maps script")) /\
  objects s3 !! o1
  = Some {| own_loadingPromise := None; own_scriptElement := Some e1 |} /\
  objects s3 !! o2
  = Some {| own_loadingPromise := Some (S p1); own_scriptElement := Some (S e1) |} /\
  window_callback (page s3) = None /\
  promises (page s3) !! S p1 = Some Pending /\
  promises (page (program_script_loaded g s3)) !! S p1 = Some Pending.
Proof.
  intros Hne Ho1 Ho2 Hl Hh Hown. cbv zeta.
  destruct (call_load_starts o1 apiKey1 options1 children s Ho1 Hl Hh)
    as (_ & Hp1 & Hob1).
  pose proof (call_load_starts_owners o1 apiKey1 options1 children s Ho1 Hl Hh)
    as Hw1.
  set (s1 := (call o1 (load apiKey1 options1) s).2) in *.
  assert (Ho2' : objects s1 !! o2 = Some new_loader).
  { rewrite Hob1. by rewrite list_lookup_insert_ne. }
  assert (Hl1 : isLoaded (page s1) = false) by (rewrite Hp1; exact Hl).
  assert (Hh1 : document_head (page s1)
                = Some (children ++ [length (scripts (page s))]))
    by (rewrite Hp1; reflexivity).
  destruct (call_load_starts o2 apiKey2 options2 _ s1 Ho2' Hl1 Hh1)
    as (_ & Hp2 & Hob2).
  pose proof (call_load_starts_owners o2 apiKey2 options2 _ s1 Ho2' Hl1 Hh1)
    as Hw2.
  set (s2 := (call o2 (load apiKey2 options2) s1).2) in *.
  assert (Hps1 : promises (page s1) = promises (page s) ++ [Pending])
    by (rewrite Hp1; reflexivity).
  assert (Hsc1 : scripts (page s1)
                 = scripts (page s) ++
                   [{| src := buildUrl apiKey1 options1 +:+ "&callback=" +:+ callbackName;
                       async := true; defer := true;
                       onerror := Some (RejectLoad (length (promises (page s)))) |}])
    by (rewrite Hp1; reflexivity).
  assert (Hlt1 : o1 < length (objects s)) by by apply lookup_lt_Some in Ho1.
  assert (Hlt2 : o2 < length (objects s)) by by apply lookup_lt_Some in Ho2.
  assert (Hh2 : handler_of (page s2) (length (scripts (page s)))
                = Some (RejectLoad (length (promises (page s))))).
  { unfold handler_of. rewrite Hp2. simpl. rewrite Hsc1.
    rewrite <- app_assoc, lookup_app_r by lia. by rewrite Nat.sub_diag. }
  assert (Hown2 : owners s2 !! length (promises (page s)) = Some o1).
  { rewrite Hw2, Hw1, <- app_assoc, lookup_app_r by lia.
    by rewrite Hown, Nat.sub_diag. }
  assert (Hobj2 : objects s2 !! o1
                  = Some {| own_loadingPromise := Some (length (promises (page s)));
                            own_scriptElement := Some (length (scripts (page s))) |}).
  { rewrite Hob2, list_lookup_insert_ne by done.
    rewrite Hob1. by apply list_lookup_insert_eq. }
  unfold program_script_error. rewrite Hh2. unfold pid in *. rewrite Hown2.
  unfold call. rewrite Hobj2. simpl.
  rewrite (script_error_fires _ (length (promises (page s))))
    by (unfold handler_of in *; exact Hh2).
  unfold settle. simpl. rewrite Hp2. simpl. rewrite Hps1.
  rewrite <- app_assoc. simpl.
  assert (Hlk : (promises (page s) ++ [Pending; Pending] : list (Settlement value))
                !! length (promises (page s)) = Some Pending).
  { rewrite lookup_app_r by lia. by rewrite Nat.sub_diag. }
  unfold pid in *. rewrite !Hlk. simpl.
  assert (Hins : <[length (promises (page s)) := Rejected (Error SCRIPT_LOAD_ERROR)]>
                   (promises (page s) ++ [Pending; Pending])
                 = promises (page s) ++ [Rejected (Error SCRIPT_LOAD_ERROR); Pending]).
  { rewrite insert_app_r_alt by lia. by rewrite Nat.sub_diag. }
  rewrite Hins.
  split; [rewrite lookup_app_r by lia; by rewrite Nat.sub_diag|].
  split; [by apply list_lookup_insert_eq; rewrite Hob2, length_insert, Hob1, length_insert|].
  split.
  { rewrite list_lookup_insert_ne by done. rewrite Hob2.
    rewrite Hps1, Hsc1, !length_app. simpl.
    replace (length (promises (page s)) + 1) with (S (length (promises (page s)))) by lia.
    replace (length (scripts (page s)) + 1) with (S (length (scripts (page s)))) by lia.
    apply list_lookup_insert_eq. by rewrite Hob1, length_insert. }
  split; [done|].
  split.
  { rewrite lookup_app_r by lia.
    by replace (S (length (promises (page s))) - length (promises (page s))) with 1 by lia. }
  unfold program_script_loaded, exec, script_loaded, bind, modify, get, ret. simpl.
  rewrite lookup_app_r by lia.
  by replace (S (length (promises (page s))) - length (promises (page s))) with 1 by lia.
Qed.

Lemma error_in_one_loader_unhooks_the_other_witness :
  let s := (getInstance (resetInstance (module_loaded fresh_page))).2 in
  let s2 := (call 1 (load "KEY" None) (call googleMapsLoader (load "KEY" None) s).2).2 in
  objects (program_script_error 0 s2) !! 1
  = Some {| own_loadingPromise := Some 1; own_scriptElement := Some 1 |} /\
  window_callback (page (program_script_error 0 s2)) = None.
Proof.
  destruct (error_in_one_loader_unhooks_the_other 0 1 "KEY" "KEY" None None []
              demo_google (getInstance (resetInstance (module_loaded fresh_page))).2)
    as (_ & _ & H3 & H4 & _); try reflexivity; [discriminate|].
  split; [exact H3 | exact H4].
Defined.

(** ** Effects: how invariants are carried through commits *)

Section ReactInvariants.

Variables Render State Closure : Type.
Variable effects : list (React.Effect Render State Closure).

Lemma run_cleanup_length (i : nat) (x : React.Mounted State Closure) :
  length (React.run_cleanup _ _ _ effects i x).2 = length x.2.
Proof.
  unfold React.run_cleanup. destruct (effects !! i); [|done].
  destruct (x.2 !! i) as [[c|]|]; simpl; [|done..]. apply length_insert.
Qed.

Lemma run_setup_length (r : Render) (i : nat) (x : React.Mounted State Closure) :
  length (React.run_setup _ _ _ effects r i x).2 = length x.2.
Proof.
  unfold React.run_setup. destruct (effects !! i); [|done]. simpl.
  apply length_insert.
Qed.

Lemma run_cleanup_slot (i j : nat) (x : React.Mounted State Closure) :
  x.2 !! j = Some None -> (React.run_cleanup _ _ _ effects i x).2 !! j = Some None.
Proof.
  intros Hj. unfold React.run_cleanup. destruct (effects !! i); [|done].
  destruct (x.2 !! i) as [[c|]|] eqn:Hi; simpl; [|done..].
  destruct (decide (i = j)) as [->|Hne].
  - apply list_lookup_insert_eq. by apply lookup_lt_Some in Hi.
  - by rewrite list_lookup_insert_ne.
Qed.

Lemma run_cleanup_cleared (i : nat) (x : React.Mounted State Closure) :
  i < length x.2 -> is_Some (effects !! i) ->
  (React.run_cleanup _ _ _ effects i x).2 !! i = Some None.
Proof.
  intros Hlt [fx Hfx]. unfold React.run_cleanup. rewrite Hfx.
  destruct (x.2 !! i) as [[c|]|] eqn:Hi; simpl.
  - by apply list_lookup_insert_eq.
  - done.
  - apply lookup_ge_None in Hi. lia.
Qed.

Lemma run_cleanups_length (which : list nat) (x : React.Mounted State Closure) :
  length (React.run_cleanups _ _ _ effects which x).2 = length x.2.
Proof.
  revert x. induction which as [|i which IH]; intros x; [done|].
  simpl. rewrite <- (run_cleanup_length i x). apply IH.
Qed.

Lemma run_cleanups_slot (which : list nat) (j : nat) (x : React.Mounted State Closure) :
  x.2 !! j = Some None ->
  (React.run_cleanups _ _ _ effects which x).2 !! j = Some None.
Proof.
  revert x. induction which as [|i which IH]; intros x Hj; [done|].
  simpl. apply IH. by apply run_cleanup_slot.
Qed.

Lemma run_cleanups_cleared (which : list nat) (j : nat) (x : React.Mounted State Closure) :
  j ∈ which -> j < length x.2 -> is_Some (effects !! j) ->
  (React.run_cleanups _ _ _ effects which x).2 !! j = Some None.
Proof.
  revert x. induction which as [|i which IH]; intros x Hin Hlt Hfx.
  - by apply elem_of_nil in Hin.
  - simpl. apply elem_of_cons in Hin as [->|Hin].
    + apply run_cleanups_slot. by apply run_cleanup_cleared.
    + apply IH; [done| by rewrite run_cleanup_length |done].
Qed.

Lemma run_setup_other (r : Render) (i j : nat) (x : React.Mounted State Closure) :
  i ≠ j -> (React.run_setup _ _ _ effects r i x).2 !! j = x.2 !! j.
Proof.
  intros Hne. unfold React.run_setup. destruct (effects !! i); [|done].
  simpl. by rewrite list_lookup_insert_ne.
Qed.

Lemma all_effects_spec (i : nat) :
  i ∈ React.all_effects _ _ _ effects <-> i < length effects.
Proof.
  unfold React.all_effects. rewrite list_elem_of_In, in_seq. lia.
Qed.

Lemma all_effects_NoDup : NoDup (React.all_effects _ _ _ effects).
Proof. apply NoDup_ListNoDup, seq_NoDup. Qed.

Lemma changed_spec (prev next : Render) (i : nat) :
  i ∈ React.changed _ _ _ effects prev next <->
  i < length effects /\ React.deps_changed _ _ _ effects prev next i = true.
Proof.
  unfold React.changed. rewrite list_elem_of_In, filter_In, <- list_elem_of_In.
  by rewrite all_effects_spec.
Qed.

Lemma changed_NoDup (prev next : Render) :
  NoDup (React.changed _ _ _ effects prev next).
Proof.
  apply NoDup_ListNoDup, List.NoDup_filter, NoDup_ListNoDup, all_effects_NoDup.
Qed.

(** An invariant [Inv] that the cleanups and the effect functions of the
    effects in [allowed] keep, each effect function being run only when no
    cleanup of its own is pending, is kept by every commit that runs only
    effects in [allowed]. *)
Section Carried.

Variable Inv : React.Mounted State Closure -> Prop.
Variable allowed : nat -> Prop.
Variable r : Render.

Hypothesis Inv_cleanup : forall i x,
  allowed i -> Inv x -> Inv (React.run_cleanup _ _ _ effects i x).

Hypothesis Inv_setup : forall i x,
  allowed i -> Inv x -> x.2 !! i = Some None ->
  Inv (React.run_setup _ _ _ effects r i x).

Lemma run_cleanups_inv (which : list nat) (x : React.Mounted State Closure) :
  (forall i, i ∈ which -> allowed i) ->
  Inv x -> Inv (React.run_cleanups _ _ _ effects which x).
Proof.
  revert x. induction which as [|i which IH]; intros x Hall Hx; [done|].
  simpl. apply IH.
  - intros j Hj. apply Hall. by right.
  - apply Inv_cleanup; [|done]. apply Hall. by left.
Qed.

Lemma run_setups_inv (which : list nat) (x : React.Mounted State Closure) :
  NoDup which ->
  (forall i, i ∈ which -> allowed i) ->
  (forall i, i ∈ which -> x.2 !! i = Some None) ->
  Inv x -> Inv (React.run_setups _ _ _ effects r which x).
Proof.
  revert x. induction which as [|i which IH]; intros x Hnd Hall Hslots Hx; [done|].
  apply NoDup_cons in Hnd as [Hi Hnd]. simpl. apply IH; [done| | |].
  - intros j Hj. apply Hall. by right.
  - intros j Hj. rewrite run_setup_other; [|by intros ->].
    apply Hslots. by right.
  - apply Inv_setup; [apply Hall; by left|done|]. apply Hslots. by left.
Qed.

Lemma flush_inv (which : list nat) (x : React.Mounted State Closure) :
  NoDup which ->
  (forall i, i ∈ which -> allowed i /\ i < length x.2 /\ is_Some (effects !! i)) ->
  Inv x -> Inv (React.flush _ _ _ effects which r x).
Proof.
  intros Hnd Hwhich Hx. unfold React.flush.
  apply run_setups_inv; [done| | |].
  - intros i Hi. by destruct (Hwhich i Hi).
  - intros i Hi. destruct (Hwhich i Hi) as (_ & Hlt & Hfx).
    by apply run_cleanups_cleared.
  - apply run_cleanups_inv; [|done]. intros i Hi. by destruct (Hwhich i Hi).
Qed.

End Carried.

End ReactInvariants.

(** ** The Marker component *)

Arguments update_marker : simpl never.
Arguments removeListener : simpl never.

Lemma removeListener_live (l l' : nat) (rec : EventListener) (sc : Scene) :
  listeners (removeListener l sc) !! l' = Some rec -> live rec = true ->
  l' ≠ l /\ listeners sc !! l' = Some rec.
Proof.
  unfold removeListener. destruct (listeners sc !! l) as [old|] eqn:Hl; simpl.
  - destruct (decide (l' = l)) as [->|Hne].
    + rewrite list_lookup_insert_eq by (by apply lookup_lt_Some in Hl).
      intros [= <-]. done.
    + rewrite list_lookup_insert_ne by done. done.
  - intros Hl' _. split; [|done]. intros ->. congruence.
Qed.

Lemma removeListener_markers (l : nat) (sc : Scene) :
  markers (removeListener l sc) = markers sc.
Proof. unfold removeListener. by destruct (listeners sc !! l). Qed.

Lemma update_marker_listeners (m : nat) (f : MarkerObject -> MarkerObject) (sc : Scene) :
  listeners (update_marker m f sc) = listeners sc.
Proof. unfold update_marker. by destruct (markers sc !! m). Qed.

Lemma update_marker_lookup (m m' : nat) (f : MarkerObject -> MarkerObject)
    (obj : MarkerObject) (sc : Scene) :
  markers (update_marker m f sc) !! m' = Some obj ->
  (m' = m /\ exists old, markers sc !! m = Some old /\ obj = f old) \/
  (m' ≠ m /\ markers sc !! m' = Some obj).
Proof.
  unfold update_marker. destruct (markers sc !! m) as [old|] eqn:Hm; simpl.
  - destruct (decide (m' = m)) as [->|Hne].
    + rewrite list_lookup_insert_eq by (by apply lookup_lt_Some in Hm).
      intros [= <-]. left. eauto.
    + rewrite list_lookup_insert_ne by done. by right.
  - intros Hm'. right. split; [|done]. intros ->. congruence.
Qed.

Lemma marker_inv_cleanup (i : nat) (x : React.Mounted MarkerState unit) :
  marker_inv x -> marker_inv (React.run_cleanup _ _ _ Marker i x).
Proof.
  destruct x as [st cls]. intros (Hlen & Hl & Hm & H0 & H3). simpl in *.
  destruct cls as [|c0 [|c1 [|c2 [|c3 [|? ?]]]]]; try discriminate.
  unfold React.run_cleanup.
  destruct i as [|[|[|[|i]]]]; simpl; [| | | |done].
  - destruct c0 as [[]|]; simpl; [|done]. unfold marker_inv. simpl.
    unfold marker_setMap.
    destruct (markerRef st) as [m|] eqn:Href; simpl.
    + split; [done|]. split; [by rewrite update_marker_listeners|].
      split; [|split; [done|exact H3]].
      intros m' obj Hobj Hon. exfalso.
      apply update_marker_lookup in Hobj as [(-> & old & _ & ->)|(Hne & Hobj)].
      * by apply Hon.
      * pose proof (Hm m' obj Hobj Hon). congruence.
    + split; [done|]. split; [done|]. split; [|split; [done|exact H3]].
      intros m' obj Hobj Hon. first [by apply (Hm m' obj) | rewrite Href; by apply (Hm m' obj) | rewrite <- Href; by apply (Hm m' obj)].
  - destruct c1 as [[]|]; simpl; [|done]. by unfold marker_inv.
  - destruct c2 as [[]|]; simpl; [|done]. by unfold marker_inv.
  - destruct c3 as [[]|]; simpl; [|done]. unfold marker_inv, drop_click_listener.
    simpl. destruct (clickListenerRef st) as [l|] eqn:Href; simpl.
    + split; [done|]. split; [|split; [|split; [exact H0|done]]].
      * intros l' rec Hrec Hlive. exfalso.
        apply removeListener_live in Hrec as [Hne Hrec]; [|done].
        pose proof (Hl l' rec Hrec Hlive). congruence.
      * by rewrite removeListener_markers.
    + split; [done|]. split; [|split; [done|split; [exact H0|done]]].
      intros l' rec Hrec Hlive. first [by apply (Hl l' rec) | rewrite Href; by apply (Hl l' rec) | rewrite <- Href; by apply (Hl l' rec)].
Qed.

Lemma marker_inv_setup (r : MarkerRender) (i : nat) (x : React.Mounted MarkerState unit) :
  marker_inv x -> x.2 !! i = Some None ->
  marker_inv (React.run_setup _ _ _ Marker r i x).
Proof.
  destruct x as [st cls]. intros (Hlen & Hl & Hm & H0 & H3) Hslot. simpl in *.
  destruct cls as [|c0 [|c1 [|c2 [|c3 [|? ?]]]]]; try discriminate.
  unfold React.run_setup.
  destruct i as [|[|[|[|i]]]]; simpl in *; [| | | |done].
  - injection Hslot as ->. specialize (H0 eq_refl).
    destruct (mk_google r), (mk_map r) as [m|]; simpl; try done.
    unfold marker_inv. simpl.
    split; [done|]. split; [exact Hl|]. split; [|split; [done|exact H3]].
    intros m' obj Hobj Hon.
    destruct (decide (m' < length (markers (mk_scene st)))) as [Hlt|Hge].
    + rewrite lookup_app_l in Hobj by done.
      pose proof (Hm m' obj Hobj Hon). congruence.
    + apply lookup_lt_Some in Hobj as Hlt. rewrite length_app in Hlt.
      simpl in Hlt. f_equal. lia.
  - unfold marker_inv. simpl. unfold marker_setPosition, marker_setTitle.
    destruct (markerRef st) as [m|] eqn:Href; simpl; [|by rewrite Href].
    rewrite update_marker_listeners.
    split; [done|]. split; [exact Hl|]. split; [|split; [exact H0|exact H3]].
    intros m' obj Hobj Hon.
    apply update_marker_lookup in Hobj as [(-> & old & _ & ->)|(Hne & Hobj)];
      [done|]. first [by apply (Hm m' obj) | rewrite Href; by apply (Hm m' obj) | rewrite <- Href; by apply (Hm m' obj)].
  - unfold marker_inv. simpl. unfold marker_setPosition, marker_setTitle.
    destruct (markerRef st) as [m|] eqn:Href; simpl; [|by rewrite Href].
    rewrite update_marker_listeners.
    split; [done|]. split; [exact Hl|]. split; [|split; [exact H0|exact H3]].
    intros m' obj Hobj Hon.
    apply update_marker_lookup in Hobj as [(-> & old & _ & ->)|(Hne & Hobj)];
      [done|]. first [by apply (Hm m' obj) | rewrite Href; by apply (Hm m' obj) | rewrite <- Href; by apply (Hm m' obj)].
  - injection Hslot as ->. specialize (H3 eq_refl).
    destruct (mk_google r), (markerRef st) as [m|] eqn:Href; simpl;
      try (unfold marker_inv; simpl; rewrite ?Href;
           split; [done|]; split; [exact Hl|]; split; [exact Hm|];
           split; [exact H0|done]).
    unfold marker_inv, drop_click_listener. rewrite H3. simpl.
    destruct (mk_onClick r) as [h|]; simpl.
    + split; [done|]. split; [|split; [|split; [intros E; specialize (H0 E); congruence|done]]].
      * intros l' rec Hrec Hlive.
        destruct (decide (l' < length (listeners (mk_scene st)))) as [Hlt|Hge].
        -- rewrite lookup_app_l in Hrec by done.
           pose proof (Hl l' rec Hrec Hlive). congruence.
        -- apply lookup_lt_Some in Hrec as Hlt. rewrite length_app in Hlt.
           simpl in Hlt. f_equal. lia.
      * intros m' obj Hobj Hon. first [by apply (Hm m' obj) | rewrite Href; by apply (Hm m' obj) | rewrite <- Href; by apply (Hm m' obj)].
    + split; [done|]. split; [|split; [|split; [intros E; specialize (H0 E); congruence|done]]].
      * intros l' rec Hrec Hlive. first [by apply (Hl l' rec) | rewrite H3; by apply (Hl l' rec) | rewrite <- H3; by apply (Hl l' rec)].
      * intros m' obj Hobj Hon. first [by apply (Hm m' obj) | rewrite Href; by apply (Hm m' obj) | rewrite <- Href; by apply (Hm m' obj)].
Qed.

Lemma marker_inv_flush (which : list nat) (r : MarkerRender)
    (x : React.Mounted MarkerState unit) :
  NoDup which -> (forall i, i ∈ which -> i < 4) ->
  marker_inv x -> marker_inv (React.flush _ _ _ Marker which r x).
Proof.
  intros Hnd Hlt Hx.
  apply (flush_inv _ _ _ Marker marker_inv (fun _ => True) r); try done.
  - intros i y _. apply marker_inv_cleanup.
  - intros i y _. apply marker_inv_setup.
  - intros i Hi. split; [done|]. destruct Hx as (Hlen & _). rewrite Hlen.
    split; [by apply Hlt|]. apply lookup_lt_is_Some. simpl. by apply Hlt.
Qed.

Lemma marker_inv_mount (r : MarkerRender) (sc : Scene) :
  quiet sc -> marker_inv (React.mount _ _ _ Marker r (new_marker_instance sc)).
Proof.
  intros [Hl Hm]. apply marker_inv_flush.
  - apply all_effects_NoDup.
  - intros i Hi. by apply all_effects_spec in Hi.
  - unfold marker_inv. simpl. split; [done|]. split; [|split; [|done]].
    + intros l rec Hrec Hlive. rewrite (Hl l rec Hrec) in Hlive. done.
    + intros m obj Hobj Hon. by rewrite (Hm m obj Hobj) in Hon.
Qed.

Lemma marker_inv_update (prev r : MarkerRender) (x : React.Mounted MarkerState unit) :
  marker_inv x -> marker_inv (React.update _ _ _ Marker prev r x).
Proof.
  intros Hx. apply marker_inv_flush; [apply changed_NoDup| |done].
  intros i Hi. by apply changed_spec in Hi as [Hi _].
Qed.

Lemma marker_inv_rerender (prev : MarkerRender) (rs : list MarkerRender)
    (x : React.Mounted MarkerState unit) :
  marker_inv x -> marker_inv (React.rerender _ _ _ Marker prev rs x).
Proof.
  revert prev x. induction rs as [|r rs IH]; intros prev x Hx; [done|].
  simpl. apply IH. by apply marker_inv_update.
Qed.

Lemma marker_unmount_quiet (x : React.Mounted MarkerState unit) :
  marker_inv x -> quiet (mk_scene (React.unmount _ _ _ Marker x).1).
Proof.
  intros Hx. pose proof Hx as (Hlen & _).
  assert (Hinv : marker_inv (React.unmount _ _ _ Marker x)).
  { apply (run_cleanups_inv _ _ _ Marker marker_inv (fun _ => True)); try done.
    intros i y _. apply marker_inv_cleanup. }
  assert (Hslot : forall i, i < 4 ->
            (React.unmount _ _ _ Marker x).2 !! i = Some None).
  { intros i Hi. apply run_cleanups_cleared.
    - by apply all_effects_spec.
    - by rewrite Hlen.
    - by apply lookup_lt_is_Some. }
  destruct Hinv as (_ & Hl & Hm & H0 & H3).
  specialize (H0 (Hslot 0 ltac:(lia))). specialize (H3 (Hslot 3 ltac:(lia))).
  split.
  - intros l rec Hrec. destruct (live rec) eqn:Hlive; [|done].
    pose proof (Hl l rec Hrec Hlive). congruence.
  - intros m obj Hobj. destruct (marker_map obj) eqn:Hon; [|done].
    assert (Hne : marker_map obj ≠ None) by congruence.
    pose proof (Hm m obj Hobj Hne). congruence.
Qed.

(** X19: a [Marker] never piles up listeners or markers, and its teardown
    is complete.  Started in a scene where nothing is listening and no
    marker is on a map, after the first render and any number of further
    renders, with any props, at most one click listener is live and at most
    one marker is on a map; and when the component is removed no listener
    is live and no marker is on a map any more. *)
Theorem marker_no_leftovers (sc : Scene) (r0 : MarkerRender) (rs : list MarkerRender) :
  quiet sc ->
  let x := React.rerender _ _ _ Marker r0 rs
             (React.mount _ _ _ Marker r0 (new_marker_instance sc)) in
  (forall l1 l2 rec1 rec2,
     listeners (mk_scene x.1) !! l1 = Some rec1 -> live rec1 = true ->
     listeners (mk_scene x.1) !! l2 = Some rec2 -> live rec2 = true ->
     l1 = l2 /\ clickListenerRef x.1 = Some l1) /\
  (forall m1 m2 obj1 obj2,
     markers (mk_scene x.1) !! m1 = Some obj1 -> marker_map obj1 ≠ None ->
     markers (mk_scene x.1) !! m2 = Some obj2 -> marker_map obj2 ≠ None ->
     m1 = m2 /\ markerRef x.1 = Some m1) /\
  quiet (mk_scene (React.unmount _ _ _ Marker x).1).
Proof.
  intros Hq x.
  assert (Hx : marker_inv x)
    by (by apply marker_inv_rerender, marker_inv_mount).
  split; [|split].
  - destruct Hx as (_ & Hl & _).
    intros l1 l2 rec1 rec2 H1 Hl1 H2 Hl2.
    pose proof (Hl l1 rec1 H1 Hl1). pose proof (Hl l2 rec2 H2 Hl2).
    split; [congruence|done].
  - destruct Hx as (_ & _ & Hm & _).
    intros m1 m2 obj1 obj2 H1 Hm1 H2 Hm2.
    pose proof (Hm m1 obj1 H1 Hm1). pose proof (Hm m2 obj2 H2 Hm2).
    split; [congruence|done].
  - by apply marker_unmount_quiet.
Qed.

Lemma marker_no_leftovers_witness :
  let r0 := {| mk_position := 1; mk_mapProp := None; mk_title := Some "A";
               mk_onClick := Some 2; mk_google := Some 0; mk_mapContext := Some 5 |} in
  let r1 := {| mk_position := 1; mk_mapProp := None; mk_title := Some "A";
               mk_onClick := Some 3; mk_google := Some 0; mk_mapContext := Some 5 |} in
  quiet empty_scene /\
  quiet (mk_scene (React.unmount _ _ _ Marker
           (React.rerender _ _ _ Marker r0 [r1]
              (React.mount _ _ _ Marker r0 (new_marker_instance empty_scene)))).1).
Proof.
  intros r0 r1.
  assert (Hq : quiet empty_scene)
    by (split; intros ? ? H; simpl in H; discriminate H).
  split; [exact Hq|].
  exact (proj2 (proj2 (marker_no_leftovers empty_scene r0 [r1] Hq))).
Defined.

Lemma marker_mount_without_map (sc : Scene) (r : MarkerRender) :
  mk_map r = None ->
  React.mount _ _ _ Marker r (new_marker_instance sc)
  = (new_marker_instance sc, [None; None; None; None]).
Proof.
  intros Hmap. unfold React.mount, React.flush, React.all_effects. simpl.
  unfold React.run_setup, React.run_cleanup. simpl. rewrite Hmap.
  by destruct (mk_google r).
Qed.

Lemma marker_changed (prev next : MarkerRender) :
  React.changed _ _ _ Marker prev next
  = (if bool_decide (mk_google prev = mk_google next)
        && bool_decide (mk_map prev = mk_map next) then [] else [0])
    ++ (if bool_decide (mk_position prev = mk_position next) then [] else [1])
    ++ (if bool_decide (mk_title prev = mk_title next) then [] else [2])
    ++ (if bool_decide (mk_google prev = mk_google next)
           && bool_decide (mk_onClick prev = mk_onClick next) then [] else [3]).
Proof.
  unfold React.changed, React.all_effects, React.deps_changed. simpl.
  destruct (bool_decide (mk_google prev = mk_google next));
    destruct (bool_decide (mk_map prev = mk_map next));
    destruct (bool_decide (mk_position prev = mk_position next));
    destruct (bool_decide (mk_title prev = mk_title next));
    destruct (bool_decide (mk_onClick prev = mk_onClick next)); reflexivity.
Qed.

Lemma unheard_marker_cleanup (sc : Scene) (n : nat) (m : MapId) (i : nat)
    (x : React.Mounted MarkerState unit) :
  i = 1 \/ i = 2 ->
  unheard_marker sc n m x ->
  unheard_marker sc n m (React.run_cleanup _ _ _ Marker i x).
Proof.
  destruct x as [st cls]. intros Hi (Hlen & Href & Hobj & Hl & Hc). simpl in *.
  destruct cls as [|c0 [|c1 [|c2 [|c3 [|? ?]]]]]; try discriminate.
  unfold React.run_cleanup.
  destruct Hi as [-> | ->]; simpl.
  - destruct c1 as [[]|]; simpl; by unfold unheard_marker.
  - destruct c2 as [[]|]; simpl; by unfold unheard_marker.
Qed.

Lemma unheard_marker_setup (sc : Scene) (n : nat) (m : MapId) (r : MarkerRender)
    (i : nat) (x : React.Mounted MarkerState unit) :
  i = 1 \/ i = 2 ->
  unheard_marker sc n m x ->
  unheard_marker sc n m (React.run_setup _ _ _ Marker r i x).
Proof.
  destruct x as [st cls]. intros Hi (Hlen & Href & (obj & Hobj & Hon) & Hl & Hc).
  simpl in *.
  destruct cls as [|c0 [|c1 [|c2 [|c3 [|? ?]]]]]; try discriminate.
  unfold React.run_setup.
  destruct Hi as [-> | ->]; simpl; rewrite Href; simpl;
    unfold unheard_marker; simpl;
    unfold marker_setPosition, marker_setTitle, update_marker; rewrite Hobj; simpl.
  all: split; [done|]; split; [done|]; split; [|done].
  all: eexists; split;
    [apply list_lookup_insert_eq; by apply lookup_lt_Some in Hobj|done].
Qed.

Lemma unheard_marker_update (sc : Scene) (n : nat) (m : MapId)
    (prev r : MarkerRender) (x : React.Mounted MarkerState unit) :
  mk_google r = mk_google prev -> mk_map r = mk_map prev ->
  mk_onClick r = mk_onClick prev ->
  unheard_marker sc n m x ->
  unheard_marker sc n m (React.update _ _ _ Marker prev r x).
Proof.
  intros Hg Hmap Hc Hx.
  apply (flush_inv _ _ _ Marker (unheard_marker sc n m)
           (fun i => i = 1 \/ i = 2) r); try done.
  - intros i y. apply unheard_marker_cleanup.
  - intros i y Hi Hy _. by apply unheard_marker_setup.
  - apply changed_NoDup.
  - intros i [Hlt Hch]%changed_spec. destruct Hx as (Hlen & _).
    rewrite Hlen. simpl in Hlt. split; [|split; [done|by apply lookup_lt_is_Some]].
    unfold React.deps_changed in Hch.
    destruct i as [|[|[|[|i]]]]; simpl in *; [|by left|by right| |lia].
    + rewrite Hg, Hmap, !bool_decide_eq_true_2 in Hch by done. done.
    + rewrite Hg, Hc, !bool_decide_eq_true_2 in Hch by done. done.
Qed.

(** X20: a [Marker] that is first rendered before the map exists (as the
    markers placed under [<Map>] are) gets no click listener when the map
    arrives.  The marker is created on the map by the first effect, but the
    click effect, which found no marker on its first run, runs again only
    when [google] or [onClick] changes: through every later render that
    keeps them, whatever else changes, the marker is on the map and nothing
    listens to its clicks, even though [onClick] is given. *)
Theorem marker_created_late_is_not_clickable (sc : Scene) (g : ObjRef) (m : MapId)
    (r0 r1 : MarkerRender) (rs : list MarkerRender) :
  mk_google r0 = Some g -> mk_map r0 = None ->
  mk_google r1 = Some g -> mk_map r1 = Some m ->
  mk_onClick r1 = mk_onClick r0 ->
  Forall (fun r => mk_google r = Some g /\ mk_map r = Some m /\
                   mk_onClick r = mk_onClick r0) rs ->
  let x := React.rerender _ _ _ Marker r0 (r1 :: rs)
             (React.mount _ _ _ Marker r0 (new_marker_instance sc)) in
  markerRef x.1 = Some (length (markers sc)) /\
  (exists obj, markers (mk_scene x.1) !! length (markers sc) = Some obj /\
     marker_map obj = Some m) /\
  listeners (mk_scene x.1) = listeners sc /\
  clickListenerRef x.1 = None.
Proof.
  intros Hg0 Hm0 Hg1 Hm1 Hc1 Hrs x. subst x.
  rewrite marker_mount_without_map by done. simpl.
  assert (H1 : unheard_marker sc (length (markers sc)) m
                 (React.update _ _ _ Marker r0 r1
                    (new_marker_instance sc, [None; None; None; None]))).
  { unfold React.update. rewrite marker_changed.
    rewrite (bool_decide_eq_true_2 (mk_google r0 = mk_google r1)) by congruence.
    rewrite (bool_decide_eq_false_2 (mk_map r0 = mk_map r1)) by congruence.
    rewrite (bool_decide_eq_true_2 (mk_onClick r0 = mk_onClick r1)) by congruence.
    unfold React.flush, React.run_cleanups, React.run_setups.
    destruct (bool_decide (mk_position r0 = mk_position r1));
      destruct (bool_decide (mk_title r0 = mk_title r1)); simpl;
      unfold React.run_cleanup, React.run_setup; simpl; rewrite Hg1, Hm1; simpl;
      unfold unheard_marker; simpl;
      unfold marker_setPosition, marker_setTitle, update_marker; simpl;
      rewrite ?lookup_snoc; simpl; rewrite ?insert_snoc, ?lookup_snoc; simpl;
      rewrite ?insert_snoc;
      (split; [done|]; split; [done|]; split; [|done]);
      eexists; (split; [first [apply lookup_snoc | reflexivity]|done]). }
  clear Hg0 Hm0.
  assert (Hgen : forall prev x0,
            mk_google prev = Some g -> mk_map prev = Some m ->
            mk_onClick prev = mk_onClick r0 ->
            unheard_marker sc (length (markers sc)) m x0 ->
            unheard_marker sc (length (markers sc)) m
              (React.rerender _ _ _ Marker prev rs x0)).
  { induction rs as [|r rs IH]; intros prev x0 Hg Hm Hc Hx0; [done|].
    apply Forall_cons in Hrs as [(Hgr & Hmr & Hcr) Hrs]. simpl.
    apply IH; try done. apply unheard_marker_update; congruence. }
  by destruct (Hgen r1 _ Hg1 Hm1 Hc1 H1) as (_ & ? & ? & ? & ?).
Qed.

Lemma marker_created_late_is_not_clickable_witness :
  let r0 := {| mk_position := 1; mk_mapProp := None; mk_title := Some "A";
               mk_onClick := Some 2; mk_google := Some 0; mk_mapContext := None |} in
  let r1 := {| mk_position := 1; mk_mapProp := None; mk_title := Some "A";
               mk_onClick := Some 2; mk_google := Some 0; mk_mapContext := Some 5 |} in
  let r2 := {| mk_position := 4; mk_mapProp := None; mk_title := Some "B";
               mk_onClick := Some 2; mk_google := Some 0; mk_mapContext := Some 5 |} in
  let x := React.rerender _ _ _ Marker r0 [r1; r2]
             (React.mount _ _ _ Marker r0 (new_marker_instance empty_scene)) in
  markerRef x.1 = Some 0 /\ listeners (mk_scene x.1) = [] /\
  clickListenerRef x.1 = None.
Proof.
  intros r0 r1 r2.
  destruct (marker_created_late_is_not_clickable empty_scene 0 5 r0 r1 [r2])
    as (H1 & _ & H3 & H4); try reflexivity.
  - constructor; [|constructor]. split; [|split]; reflexivity.
  - split; [exact H1|]. split; [exact H3 | exact H4].
Defined.

(** ** The AdvancedMarker component *)

Arguments update_advanced_marker : simpl never.
Arguments update_root : simpl never.

Lemma update_advanced_marker_listeners (m : nat)
    (f : AdvancedMarkerObject -> AdvancedMarkerObject) (sc : Scene) :
  listeners (update_advanced_marker m f sc) = listeners sc.
Proof. unfold update_advanced_marker. by destruct (advanced_markers sc !! m). Qed.

Lemma update_advanced_marker_roots (m : nat)
    (f : AdvancedMarkerObject -> AdvancedMarkerObject) (sc : Scene) :
  roots (update_advanced_marker m f sc) = roots sc.
Proof. unfold update_advanced_marker. by destruct (advanced_markers sc !! m). Qed.

Lemma update_root_listeners (k : nat) (f : ReactRoot -> ReactRoot) (sc : Scene) :
  listeners (update_root k f sc) = listeners sc.
Proof. unfold update_root. by destruct (roots sc !! k). Qed.



Lemma removeListener_roots (l : nat) (sc : Scene) :
  roots (removeListener l sc) = roots sc.
Proof. unfold removeListener. by destruct (listeners sc !! l). Qed.



(** What the first commit of an [AdvancedMarker] does: nothing but calling
    [initMarker] when the API and the map are there.  No other effect finds
    the object it works on. *)
Lemma advanced_mount (r : Advanced.Render) (sc : Scene) :
  React.mount _ _ _ AdvancedMarker r (Advanced.new_instance sc)
  = match Advanced.google r, Advanced.map r with
    | Some _, Some _ =>
        (Advanced.set_waiting [r] (Advanced.new_instance sc),
         [Some tt; None; None; None])
    | _, _ => (Advanced.new_instance sc, [None; None; None; None])
    end.
Proof.
  unfold React.mount, React.flush, React.all_effects, React.run_cleanups,
    React.run_setups. simpl. unfold React.run_cleanup, React.run_setup. simpl.
  destruct (Advanced.google r), (Advanced.map r); reflexivity.
Qed.

Lemma advanced_changed (prev next : Advanced.Render) :
  React.changed _ _ _ AdvancedMarker prev next
  = (if bool_decide (Advanced.google prev = Advanced.google next)
        && bool_decide (Advanced.map prev = Advanced.map next) then [] else [0])
    ++ (if bool_decide (Advanced.position prev = Advanced.position next)
        then [] else [1])
    ++ (if bool_decide (Advanced.content prev = Advanced.content next)
        then [] else [2])
    ++ (if bool_decide (Advanced.google prev = Advanced.google next)
           && bool_decide (Advanced.onClick prev = Advanced.onClick next)
        then [] else [3]).
Proof.
  unfold React.changed, React.all_effects, React.deps_changed. simpl.
  destruct (bool_decide (Advanced.google prev = Advanced.google next));
    destruct (bool_decide (Advanced.map prev = Advanced.map next));
    destruct (bool_decide (Advanced.position prev = Advanced.position next));
    destruct (bool_decide (Advanced.content prev = Advanced.content next));
    destruct (bool_decide (Advanced.onClick prev = Advanced.onClick next));
    reflexivity.
Qed.

Lemma never_listened_cleanup (sc : Scene) (i : nat) (x : Advanced.Mounted) :
  i ≠ 3 -> never_listened sc x ->
  never_listened sc (React.run_cleanup _ _ _ AdvancedMarker i x).
Proof.
  destruct x as [st cls]. intros Hi (Hlen & Hl & Hc). simpl in *.
  destruct cls as [|c0 [|c1 [|c2 [|c3 [|? ?]]]]]; try discriminate.
  unfold React.run_cleanup.
  destruct i as [|[|[|[|i]]]]; simpl; [| | |done|done].
  - destruct c0 as [[]|]; simpl; [|done].
    unfold never_listened, Advanced.init_cleanup. simpl.
    destruct (Advanced.reactRootRef st) as [k|]; simpl;
      destruct (Advanced.markerRef st) as [m|]; simpl;
      unfold advanced_set_map, root_unmount;
      rewrite ?update_advanced_marker_listeners, ?update_root_listeners; done.
  - destruct c1 as [[]|]; simpl; done.
  - destruct c2 as [[]|]; simpl; done.
Qed.

Lemma never_listened_setup (sc : Scene) (r : Advanced.Render) (i : nat)
    (x : Advanced.Mounted) :
  i ≠ 3 -> never_listened sc x ->
  never_listened sc (React.run_setup _ _ _ AdvancedMarker r i x).
Proof.
  destruct x as [st cls]. intros Hi (Hlen & Hl & Hc). simpl in *.
  destruct cls as [|c0 [|c1 [|c2 [|c3 [|? ?]]]]]; try discriminate.
  unfold React.run_setup.
  destruct i as [|[|[|[|i]]]]; simpl; [| | |done|done].
  - destruct (Advanced.google r), (Advanced.map r); done.
  - unfold never_listened. simpl.
    destruct (Advanced.markerRef st) as [m|]; simpl; [|done].
    unfold advanced_set_position. by rewrite update_advanced_marker_listeners.
  - unfold never_listened. simpl.
    destruct (Advanced.reactRootRef st) as [k|],
      (Advanced.contentContainerRef st) as [d|]; simpl; try done.
    unfold root_render. by rewrite update_root_listeners.
Qed.

Lemma initMarker_resumed_listeners (r : Advanced.Render) (st : Advanced.State) :
  listeners (Advanced.scene (Advanced.initMarker_resumed r st))
  = listeners (Advanced.scene st) /\
  Advanced.clickListenerRef (Advanced.initMarker_resumed r st)
  = Advanced.clickListenerRef st.
Proof.
  unfold Advanced.initMarker_resumed.
  destruct (Advanced.content r) as [c|]; simpl; [|done].
  unfold root_render. by rewrite update_root_listeners.
Qed.

Lemma never_listened_settle (sc : Scene) (e : Advanced.Import) (x : Advanced.Mounted) :
  never_listened sc x -> never_listened sc (Advanced.settle_import e x.1, x.2).
Proof.
  destruct x as [st cls]. intros (Hlen & Hl & Hc). simpl in *.
  unfold never_listened. simpl. split; [done|].
  destruct e as [i|i]; simpl; [|done].
  destruct (Advanced.waiting st !! i) as [r|]; [|done].
  destruct (initMarker_resumed_listeners r
              (Advanced.set_waiting (delete i (Advanced.waiting st)) st))
    as [-> ->].
  done.
Qed.

Lemma never_listened_update (sc : Scene) (prev r : Advanced.Render)
    (x : Advanced.Mounted) :
  Advanced.google prev = Advanced.google r ->
  Advanced.onClick prev = Advanced.onClick r ->
  never_listened sc x ->
  never_listened sc (React.update _ _ _ AdvancedMarker prev r x).
Proof.
  intros Hg Hc Hx. unfold React.update.
  apply (flush_inv _ _ _ AdvancedMarker (never_listened sc) (fun i => i ≠ 3) r).
  - intros i y. apply never_listened_cleanup.
  - intros i y Hi Hy _. by apply never_listened_setup.
  - apply changed_NoDup.
  - intros i Hi. apply changed_spec in Hi as [Hlt Hch].
    destruct Hx as (Hlen & _). rewrite Hlen.
    split; [|split; [done|by apply lookup_lt_is_Some]].
    intros ->. unfold React.deps_changed in Hch. simpl in Hch.
    rewrite !bool_decide_eq_true_2 in Hch by done. done.
  - done.
Qed.

(** X21: an [AdvancedMarker] whose click handler keeps its identity never
    listens to clicks.  The click effect runs after the first render, when
    the marker cannot exist yet because [initMarker] is still waiting for
    the marker library, and then only when [google] or [onClick] changes.
    So through any renders that keep these two, whatever else they change
    and however the imports end, no listener is ever registered: the
    listeners of the scene stay as they were before the component was
    mounted, although [onClick] is given. *)
Theorem advanced_marker_deaf_to_stable_handler (sc : Scene) (r0 : Advanced.Render)
    (evs : list Advanced.Event) :
  Forall (keeps_click_deps r0) evs ->
  let x := Advanced.run r0 evs
             (React.mount _ _ _ AdvancedMarker r0 (Advanced.new_instance sc)) in
  listeners (Advanced.scene x.1) = listeners sc /\
  Advanced.clickListenerRef x.1 = None.
Proof.
  intros Hevs x.
  assert (H0 : never_listened sc
                 (React.mount _ _ _ AdvancedMarker r0 (Advanced.new_instance sc))).
  { rewrite advanced_mount.
    destruct (Advanced.google r0), (Advanced.map r0); done. }
  assert (Hgen : forall prev y,
            Advanced.google prev = Advanced.google r0 ->
            Advanced.onClick prev = Advanced.onClick r0 ->
            never_listened sc y -> never_listened sc (Advanced.run prev evs y)).
  { induction evs as [|e evs IH]; intros prev y Hg Hc Hy; [done|].
    apply Forall_cons in Hevs as [He Hevs].
    destruct e as [r|e]; simpl.
    - destruct He as [Hgr Hcr]. apply IH; try done.
      apply never_listened_update; congruence.
    - apply IH; try done. by apply never_listened_settle. }
  by destruct (Hgen r0 _ eq_refl eq_refl H0) as (_ & ? & ?).
Qed.

Lemma advanced_marker_deaf_to_stable_handler_witness :
  let r0 := {| Advanced.position := 1; Advanced.mapProp := None;
               Advanced.content := Some 7; Advanced.onClick := Some 2;
               Advanced.google := Some 0; Advanced.mapContext := Some 5 |} in
  let r1 := {| Advanced.position := 3; Advanced.mapProp := None;
               Advanced.content := Some 8; Advanced.onClick := Some 2;
               Advanced.google := Some 0; Advanced.mapContext := Some 5 |} in
  let x := Advanced.run r0
             [Advanced.Settles (Advanced.Imported 0); Advanced.Rendered r1]
             (React.mount _ _ _ AdvancedMarker r0
                (Advanced.new_instance empty_scene)) in
  Advanced.markerRef x.1 = Some 0 /\
  listeners (Advanced.scene x.1) = [] /\
  Advanced.clickListenerRef x.1 = None.
Proof.
  intros r0 r1. split; [reflexivity|].
  apply (advanced_marker_deaf_to_stable_handler empty_scene r0
           [Advanced.Settles (Advanced.Imported 0); Advanced.Rendered r1]).
  constructor; [exact I|]. constructor; [|constructor].
  split; reflexivity.
Defined.

Arguments Advanced.initMarker_resumed : simpl never.

Lemma initMarker_resumed_spec (r : Advanced.Render) (st : Advanced.State) :
  let st' := Advanced.initMarker_resumed r st in
  advanced_markers (Advanced.scene st')
  = advanced_markers (Advanced.scene st)
    ++ [{| adv_position := Advanced.position r; adv_map := Advanced.map r;
           adv_content := Advanced.contentContainerRef st' |}] /\
  Advanced.markerRef st' = Some (length (advanced_markers (Advanced.scene st))) /\
  Advanced.waiting st' = Advanced.waiting st /\
  match Advanced.content r with
  | Some c =>
      roots (Advanced.scene st')
      = roots (Advanced.scene st)
        ++ [{| root_container := containers (Advanced.scene st);
               root_content := Some c; root_mounted := true |}] /\
      Advanced.reactRootRef st' = Some (length (roots (Advanced.scene st))) /\
      Advanced.contentContainerRef st' = Some (containers (Advanced.scene st))
  | None =>
      roots (Advanced.scene st') = roots (Advanced.scene st) /\
      Advanced.reactRootRef st' = Advanced.reactRootRef st /\
      Advanced.contentContainerRef st' = Advanced.contentContainerRef st
  end.
Proof.
  cbv zeta. unfold Advanced.initMarker_resumed.
  destruct (Advanced.content r) as [c|]; simpl; [|done].
  unfold root_render, update_root. simpl. rewrite lookup_snoc. simpl.
  rewrite insert_snoc. done.
Qed.

Lemma settle_import_keeps (e : Advanced.Import) (st : Advanced.State) :
  (forall n obj, advanced_markers (Advanced.scene st) !! n = Some obj ->
     advanced_markers (Advanced.scene (Advanced.settle_import e st)) !! n = Some obj) /\
  (forall k root, roots (Advanced.scene st) !! k = Some root ->
     roots (Advanced.scene (Advanced.settle_import e st)) !! k = Some root).
Proof.
  destruct e as [i|i]; simpl; [|done].
  destruct (Advanced.waiting st !! i) as [r|]; [|done].
  destruct (initMarker_resumed_spec r
              (Advanced.set_waiting (delete i (Advanced.waiting st)) st))
    as (Hm & _ & _ & Hr).
  simpl in *. split.
  - intros n obj Hn. rewrite Hm. by apply lookup_app_l_Some.
  - intros k root Hk. destruct (Advanced.content r) as [c|].
    + destruct Hr as (-> & _). by apply lookup_app_l_Some.
    + destruct Hr as (-> & _). done.
Qed.

Lemma settle_imports_keep (es : list Advanced.Import) (st : Advanced.State) :
  (forall n obj, advanced_markers (Advanced.scene st) !! n = Some obj ->
     advanced_markers (Advanced.scene (settle_imports es st)) !! n = Some obj) /\
  (forall k root, roots (Advanced.scene st) !! k = Some root ->
     roots (Advanced.scene (settle_imports es st)) !! k = Some root).
Proof.
  revert st. induction es as [|e es IH]; intros st; [done|].
  simpl. destruct (IH (Advanced.settle_import e st)) as [IHm IHr].
  destruct (settle_import_keeps e st) as [Hm Hr].
  split.
  - intros n obj Hn. by apply IHm, Hm.
  - intros k root Hk. by apply IHr, Hr.
Qed.

Lemma waiting_have_map_cleanup (i : nat) (x : Advanced.Mounted) :
  waiting_have_map x ->
  waiting_have_map (React.run_cleanup _ _ _ AdvancedMarker i x) /\
  Advanced.waiting (React.run_cleanup _ _ _ AdvancedMarker i x).1
  = Advanced.waiting x.1.
Proof.
  destruct x as [st cls]. intros (Hlen & Hw). simpl in *.
  destruct cls as [|c0 [|c1 [|c2 [|c3 [|? ?]]]]]; try discriminate.
  unfold React.run_cleanup, waiting_have_map.
  destruct i as [|[|[|[|i]]]]; simpl; [| | | |done].
  - destruct c0 as [[]|]; simpl; [|done].
    unfold Advanced.init_cleanup.
    destruct (Advanced.reactRootRef st) as [k|]; simpl;
      destruct (Advanced.markerRef st) as [m|]; simpl; done.
  - destruct c1 as [[]|]; simpl; done.
  - destruct c2 as [[]|]; simpl; done.
  - destruct c3 as [[]|]; simpl; [|done].
    unfold Advanced.drop_click_listener.
    destruct (Advanced.clickListenerRef st) as [l|]; simpl; done.
Qed.

Lemma waiting_have_map_setup (r : Advanced.Render) (i : nat) (x : Advanced.Mounted) :
  waiting_have_map x ->
  waiting_have_map (React.run_setup _ _ _ AdvancedMarker r i x).
Proof.
  destruct x as [st cls]. intros (Hlen & Hw). simpl in *.
  destruct cls as [|c0 [|c1 [|c2 [|c3 [|? ?]]]]]; try discriminate.
  unfold React.run_setup, waiting_have_map.
  destruct i as [|[|[|[|i]]]]; simpl; [| | | |done].
  - destruct (Advanced.google r), (Advanced.map r) as [m|] eqn:Hm; simpl;
      try done.
    split; [done|]. apply Forall_app. split; [done|].
    constructor; [|done]. by rewrite Hm.
  - destruct (Advanced.markerRef st) as [m|]; simpl; done.
  - destruct (Advanced.reactRootRef st) as [k|],
      (Advanced.contentContainerRef st) as [d|]; simpl; done.
  - destruct (Advanced.google r), (Advanced.markerRef st) as [m|]; simpl;
      try done.
    unfold Advanced.drop_click_listener.
    destruct (Advanced.clickListenerRef st) as [l|]; simpl;
      destruct (Advanced.onClick r) as [h|]; simpl; done.
Qed.

Lemma waiting_have_map_settle (e : Advanced.Import) (x : Advanced.Mounted) :
  waiting_have_map x -> waiting_have_map (Advanced.settle_import e x.1, x.2).
Proof.
  destruct x as [st cls]. intros (Hlen & Hw). simpl in *.
  unfold waiting_have_map. simpl. split; [done|].
  destruct e as [i|i]; simpl.
  - destruct (Advanced.waiting st !! i) as [r|]; [|done].
    destruct (initMarker_resumed_spec r
                (Advanced.set_waiting (delete i (Advanced.waiting st)) st))
      as (_ & _ & -> & _).
    simpl. by apply Forall_delete.
  - by apply Forall_delete.
Qed.

Lemma waiting_have_map_run (prev : Advanced.Render) (evs : list Advanced.Event)
    (x : Advanced.Mounted) :
  waiting_have_map x -> waiting_have_map (Advanced.run prev evs x).
Proof.
  revert prev x. induction evs as [|e evs IH]; intros prev x Hx; [done|].
  destruct e as [r|e]; simpl; apply IH.
  - unfold React.update.
    apply (flush_inv _ _ _ AdvancedMarker waiting_have_map (fun _ => True) r).
    + intros i y _ Hy. by apply waiting_have_map_cleanup.
    + intros i y _ Hy _. by apply waiting_have_map_setup.
    + apply changed_NoDup.
    + intros i Hi. apply changed_spec in Hi as [Hlt _].
      destruct Hx as (Hlen & _). rewrite Hlen.
      split; [done|]. split; [done|]. by apply lookup_lt_is_Some.
    + done.
  - by apply waiting_have_map_settle.
Qed.

Lemma waiting_have_map_mount (r : Advanced.Render) (sc : Scene) :
  waiting_have_map (React.mount _ _ _ AdvancedMarker r (Advanced.new_instance sc)).
Proof.
  rewrite advanced_mount.
  destruct (Advanced.google r), (Advanced.map r) as [m|] eqn:Hm; try done.
  split; [done|]. simpl. constructor; [|done]. by rewrite Hm.
Qed.

Lemma unmount_waiting (x : Advanced.Mounted) :
  waiting_have_map x ->
  Advanced.waiting (React.unmount _ _ _ AdvancedMarker x).1 = Advanced.waiting x.1.
Proof.
  intros Hx. unfold React.unmount.
  apply (run_cleanups_inv _ _ _ AdvancedMarker
           (fun y => waiting_have_map y /\
                     Advanced.waiting y.1 = Advanced.waiting x.1)
           (fun _ => True)); try done.
  intros i y _ [Hy Hw].
  destruct (waiting_have_map_cleanup i y Hy) as [Hy' Hw']. split; [done|].
  congruence.
Qed.

(** X22: an [AdvancedMarker] that is removed while its [initMarker] is
    still waiting for the marker library leaves a marker behind.  The
    cleanup finds [markerRef] empty and does nothing; when the import then
    succeeds, the rest of [initMarker] puts a new marker on the map (and,
    when [content] was given, mounts a root for it), and nothing is left to
    take them away: however the remaining imports end, the marker stays on
    the map and the root stays mounted.  This holds after any history of
    the component. *)
Theorem advanced_marker_created_after_unmount (sc : Scene)
    (r0 r : Advanced.Render) (evs : list Advanced.Event) (i : nat)
    (later : list Advanced.Import) :
  let x := Advanced.run r0 evs
             (React.mount _ _ _ AdvancedMarker r0 (Advanced.new_instance sc)) in
  Advanced.waiting x.1 !! i = Some r ->
  let gone := (React.unmount _ _ _ AdvancedMarker x).1 in
  let n := length (advanced_markers (Advanced.scene gone)) in
  let k := length (roots (Advanced.scene gone)) in
  let z := settle_imports later (Advanced.settle_import (Advanced.Imported i) gone) in
  (exists m obj,
     advanced_markers (Advanced.scene z) !! n = Some obj /\
     adv_map obj = Some m /\ Advanced.map r = Some m /\
     adv_position obj = Advanced.position r) /\
  (forall c, Advanced.content r = Some c ->
     exists root, roots (Advanced.scene z) !! k = Some root /\
       root_mounted root = true /\ root_content root = Some c).
Proof.
  intros x Hi gone n k z.
  assert (Hx : waiting_have_map x)
    by apply waiting_have_map_run, waiting_have_map_mount.
  assert (Hm : is_Some (Advanced.map r)).
  { destruct Hx as [_ Hw]. rewrite Forall_forall in Hw. apply Hw.
    by eapply list_elem_of_lookup_2. }
  destruct Hm as [m Hm].
  assert (Hgone : Advanced.waiting gone !! i = Some r).
  { subst gone. by rewrite unmount_waiting. }
  destruct (settle_imports_keep later
              (Advanced.settle_import (Advanced.Imported i) gone)) as [Km Kr].
  fold z in Km, Kr. simpl in Km, Kr. rewrite Hgone in Km, Kr.
  destruct (initMarker_resumed_spec r
              (Advanced.set_waiting (delete i (Advanced.waiting gone)) gone))
    as (Hmk & _ & _ & Hr).
  change (Advanced.scene
            (Advanced.set_waiting (delete i (Advanced.waiting gone)) gone))
    with (Advanced.scene gone) in Hmk, Hr.
  split.
  - exists m. eexists. split; [|split; [|split; [exact Hm|]]].
    + apply Km. rewrite Hmk. apply lookup_snoc.
    + simpl. exact Hm.
    + done.
  - intros c Hc. rewrite Hc in Hr. destruct Hr as (Hr & _).
    eexists. split; [|split].
    + apply Kr. rewrite Hr. apply lookup_snoc.
    + done.
    + done.
Qed.

Lemma advanced_marker_created_after_unmount_witness :
  let r0 := {| Advanced.position := 1; Advanced.mapProp := None;
               Advanced.content := Some 7; Advanced.onClick := Some 2;
               Advanced.google := Some 0; Advanced.mapContext := Some 5 |} in
  let gone := (React.unmount _ _ _ AdvancedMarker
                 (React.mount _ _ _ AdvancedMarker r0
                    (Advanced.new_instance empty_scene))).1 in
  Advanced.waiting gone = [r0] /\
  exists m obj,
    advanced_markers
      (Advanced.scene (Advanced.settle_import (Advanced.Imported 0) gone)) !! 0
    = Some obj /\
    adv_map obj = Some m /\ Advanced.map r0 = Some m /\
    adv_position obj = Advanced.position r0.
Proof.
  intros r0 gone. split; [reflexivity|].
  exact (proj1 (advanced_marker_created_after_unmount empty_scene r0 r0 [] 0 []
                  eq_refl)).
Defined.

Lemma update_root_at (k : nat) (f : ReactRoot -> ReactRoot) (root : ReactRoot)
    (sc : Scene) :
  roots sc !! k = Some root -> roots (update_root k f sc) !! k = Some (f root).
Proof.
  intros Hk. unfold update_root. rewrite Hk. simpl.
  apply list_lookup_insert_eq. by apply lookup_lt_Some in Hk.
Qed.

Lemma root_ref_mounted_cleanup (i : nat) (x : Advanced.Mounted) :
  root_ref_mounted x ->
  root_ref_mounted (React.run_cleanup _ _ _ AdvancedMarker i x).
Proof.
  destruct x as [st cls]. intros (Hlen & Hk). simpl in *.
  destruct cls as [|c0 [|c1 [|c2 [|c3 [|? ?]]]]]; try discriminate.
  unfold React.run_cleanup, root_ref_mounted.
  destruct i as [|[|[|[|i]]]]; simpl; [| | | |done].
  - destruct c0 as [[]|]; simpl; [|done].
    unfold Advanced.init_cleanup.
    destruct (Advanced.reactRootRef st) as [k|] eqn:Hr; simpl;
      destruct (Advanced.markerRef st) as [m|]; simpl; try done.
    + split; [done|]. intros k Hk'. rewrite Hr in Hk'. done.
    + split; [done|]. intros k Hk'. rewrite Hr in Hk'. done.
  - destruct c1 as [[]|]; simpl; done.
  - destruct c2 as [[]|]; simpl; done.
  - destruct c3 as [[]|]; simpl; [|done].
    unfold Advanced.drop_click_listener.
    destruct (Advanced.clickListenerRef st) as [l|]; simpl; [|done].
    split; [done|]. rewrite removeListener_roots. exact Hk.
Qed.

Lemma root_ref_mounted_setup (r : Advanced.Render) (i : nat) (x : Advanced.Mounted) :
  root_ref_mounted x ->
  root_ref_mounted (React.run_setup _ _ _ AdvancedMarker r i x).
Proof.
  destruct x as [st cls]. intros (Hlen & Hk). simpl in *.
  destruct cls as [|c0 [|c1 [|c2 [|c3 [|? ?]]]]]; try discriminate.
  unfold React.run_setup, root_ref_mounted.
  destruct i as [|[|[|[|i]]]]; simpl; [| | | |done].
  - destruct (Advanced.google r), (Advanced.map r); simpl; done.
  - destruct (Advanced.markerRef st) as [m|]; simpl; [|done].
    split; [done|]. unfold advanced_set_position.
    rewrite update_advanced_marker_roots. exact Hk.
  - destruct (Advanced.reactRootRef st) as [k|] eqn:Hr; simpl; [|by rewrite Hr].
    destruct (Advanced.contentContainerRef st) as [d|]; simpl; [|by rewrite Hr].
    split; [done|]. rewrite Hr. intros k' [= <-].
    destruct (Hk k eq_refl) as (root & Hroot & Hmounted).
    eexists. split; [by apply update_root_at|]. rewrite Hmounted. done.
  - destruct (Advanced.google r), (Advanced.markerRef st) as [m|]; simpl;
      try done.
    unfold Advanced.drop_click_listener.
    destruct (Advanced.clickListenerRef st) as [l|]; simpl;
      destruct (Advanced.onClick r) as [h|]; simpl;
      rewrite ?removeListener_roots; done.
Qed.

Lemma root_ref_mounted_settle (e : Advanced.Import) (x : Advanced.Mounted) :
  root_ref_mounted x -> root_ref_mounted (Advanced.settle_import e x.1, x.2).
Proof.
  destruct x as [st cls]. intros (Hlen & Hk). simpl in *.
  unfold root_ref_mounted. simpl. split; [done|].
  destruct e as [i|i]; simpl; [|done].
  destruct (Advanced.waiting st !! i) as [r|]; [|done].
  destruct (initMarker_resumed_spec r
              (Advanced.set_waiting (delete i (Advanced.waiting st)) st))
    as (_ & _ & _ & Hr).
  change (Advanced.scene
            (Advanced.set_waiting (delete i (Advanced.waiting st)) st))
    with (Advanced.scene st) in Hr.
  change (Advanced.reactRootRef
            (Advanced.set_waiting (delete i (Advanced.waiting st)) st))
    with (Advanced.reactRootRef st) in Hr.
  destruct (Advanced.content r) as [c|].
  - destruct Hr as (-> & -> & _). intros k [= <-].
    eexists. split; [apply lookup_snoc|done].
  - destruct Hr as (-> & -> & _). exact Hk.
Qed.

(** The component never renders into a root that it has unmounted: in
    every state it can reach, the root in [reactRootRef] is mounted. *)
Lemma root_ref_is_mounted (sc : Scene) (r0 : Advanced.Render)
    (evs : list Advanced.Event) :
  root_ref_mounted
    (Advanced.run r0 evs
       (React.mount _ _ _ AdvancedMarker r0 (Advanced.new_instance sc))).
Proof.
  assert (H0 : root_ref_mounted
                 (React.mount _ _ _ AdvancedMarker r0 (Advanced.new_instance sc))).
  { rewrite advanced_mount.
    destruct (Advanced.google r0), (Advanced.map r0); done. }
  revert H0.
  generalize (React.mount _ _ _ AdvancedMarker r0 (Advanced.new_instance sc)).
  generalize r0.
  induction evs as [|e evs IH]; intros prev x Hx; [done|].
  destruct e as [r|e]; simpl; apply IH.
  - unfold React.update.
    apply (flush_inv _ _ _ AdvancedMarker root_ref_mounted (fun _ => True) r).
    + intros i y _ Hy. by apply root_ref_mounted_cleanup.
    + intros i y _ Hy _. by apply root_ref_mounted_setup.
    + apply changed_NoDup.
    + intros i Hi. apply changed_spec in Hi as [Hlt _].
      destruct Hx as (Hlen & _). rewrite Hlen.
      split; [done|]. split; [done|]. by apply lookup_lt_is_Some.
    + done.
  - by apply root_ref_mounted_settle.
Qed.

(** *** Teardown when the imports end in time *)










(** ** The Map component *)

Lemma map_changed (prev next : MapComponent.Render) :
  React.changed _ _ _ MapComponent.effects prev next
  = (if bool_decide (MapComponent.google (MapComponent.props prev)
                     = MapComponent.google (MapComponent.props next))
        && bool_decide (MapComponent.map prev = MapComponent.map next)
        && bool_decide (MapComponent.center (MapComponent.props prev)
                        = MapComponent.center (MapComponent.props next))
        && bool_decide (MapComponent.zoom (MapComponent.props prev)
                        = MapComponent.zoom (MapComponent.props next))
        && bool_decide (MapComponent.mapId (MapComponent.props prev)
                        = MapComponent.mapId (MapComponent.props next))
     then [] else [0])
    ++ (if bool_decide (MapComponent.map prev = MapComponent.map next)
           && bool_decide (MapComponent.center (MapComponent.props prev)
                           = MapComponent.center (MapComponent.props next))
           && bool_decide (MapComponent.zoom (MapComponent.props prev)
                           = MapComponent.zoom (MapComponent.props next))
        then [] else [1])
    ++ (if bool_decide (MapComponent.map prev = MapComponent.map next)
           && bool_decide (MapComponent.onClick (MapComponent.props prev)
                           = MapComponent.onClick (MapComponent.props next))
           && bool_decide (MapComponent.onIdle (MapComponent.props prev)
                           = MapComponent.onIdle (MapComponent.props next))
           && bool_decide (MapComponent.google (MapComponent.props prev)
                           = MapComponent.google (MapComponent.props next))
        then [] else [2]).
Proof.
  unfold React.changed, React.all_effects, React.deps_changed. simpl.
  repeat match goal with
         | |- context [bool_decide ?P] => destruct (bool_decide P)
         end; reflexivity.
Qed.

(** What the first commit of a [Map] does: it calls [initMap] when the
    API is there; the other effects find no map. *)
Lemma map_mount (p : MapComponent.Props) (d : nat) (ms : list MapObject)
    (sc : Scene) :
  MapComponent.mount p (MapComponent.new_instance d ms sc)
  = match MapComponent.google p with
    | Some _ =>
        (MapComponent.set_waiting [MapComponent.first_render p]
           (MapComponent.new_instance d ms sc),
         [None; None; None])
    | None => (MapComponent.new_instance d ms sc, [None; None; None])
    end.
Proof.
  unfold MapComponent.mount, React.mount, React.flush, React.all_effects,
    React.run_cleanups, React.run_setups. simpl.
  unfold React.run_cleanup, React.run_setup. simpl.
  destruct (MapComponent.google p); reflexivity.
Qed.

(** X24: a [Map] that is rendered again with another [center] object
    while its first [initMap] is still waiting for the maps library calls
    [initMap] a second time, and each call constructs a map when its import
    succeeds: two maps are built on the same element, the first with the
    options of the first render, the second with those of the second, and
    the state ends up holding the second.  (A [center] written inline by
    the parent, or left to its default, is another object at every
    render.) *)
Theorem map_constructed_twice (d : nat) (ms : list MapObject) (sc : Scene)
    (g : ObjRef) (p0 p1 : MapComponent.Props) :
  MapComponent.google p0 = Some g ->
  MapComponent.google p1 = Some g ->
  MapComponent.center p1 ≠ MapComponent.center p0 ->
  let x := MapComponent.run (MapComponent.first_render p0)
             [MapComponent.Rendered p1;
              MapComponent.Settles (MapComponent.Imported 0);
              MapComponent.Settles (MapComponent.Imported 0)]
             (MapComponent.mount p0 (MapComponent.new_instance d ms sc)) in
  MapComponent.maps x.1
  = ms ++ [{| map_div := d; map_center := MapComponent.center p0;
              map_zoom := MapComponent.zoom p0;
              map_mapId := MapComponent.mapId p0 |};
           {| map_div := d; map_center := MapComponent.center p1;
              map_zoom := MapComponent.zoom p1;
              map_mapId := MapComponent.mapId p1 |}] /\
  MapComponent.cell x.1 = Some (length ms + 1) /\
  MapComponent.waiting x.1 = [].
Proof.
  intros Hg0 Hg1 Hc x.
  assert (Hupd :
    React.update _ _ _ MapComponent.effects (MapComponent.first_render p0)
      {| MapComponent.props := p1; MapComponent.map := None |}
      (MapComponent.set_waiting [MapComponent.first_render p0]
         (MapComponent.new_instance d ms sc), [None; None; None])
    = (MapComponent.set_waiting
         [MapComponent.first_render p0;
          {| MapComponent.props := p1; MapComponent.map := None |}]
         (MapComponent.new_instance d ms sc), [None; None; None])).
  { unfold React.update. rewrite map_changed. simpl. rewrite Hg0, Hg1.
    rewrite (bool_decide_eq_true_2 (Some g = Some g)) by done.
    rewrite (bool_decide_eq_false_2
               (MapComponent.center p0 = MapComponent.center p1)) by congruence.
    simpl.
    destruct (bool_decide (MapComponent.onClick p0 = MapComponent.onClick p1)
              && bool_decide (MapComponent.onIdle p0 = MapComponent.onIdle p1)
              && true);
      unfold React.flush, React.run_cleanups, React.run_setups; simpl;
      unfold React.run_cleanup, React.run_setup; simpl; rewrite Hg1;
      reflexivity. }
  subst x. rewrite map_mount, Hg0.
  change (MapComponent.run (MapComponent.first_render p0)
            (MapComponent.Rendered p1 :: ?rest) ?y)
    with (MapComponent.run
            {| MapComponent.props := p1; MapComponent.map := MapComponent.cell y.1 |}
            rest
            (React.update _ _ _ MapComponent.effects (MapComponent.first_render p0)
               {| MapComponent.props := p1;
                  MapComponent.map := MapComponent.cell y.1 |} y)).
  cbn [fst MapComponent.cell MapComponent.set_waiting MapComponent.new_instance].
  rewrite Hupd. simpl. unfold MapComponent.initMap_resumed. simpl.
  rewrite length_app. simpl. by rewrite <- app_assoc.
Qed.

Lemma map_constructed_twice_witness :
  let p0 := {| MapComponent.center := 1; MapComponent.zoom := 13;
               MapComponent.mapId := Some "DEMO_MAP_ID";
               MapComponent.onClick := Some 2; MapComponent.onIdle := None;
               MapComponent.google := Some 0 |} in
  let p1 := {| MapComponent.center := 3; MapComponent.zoom := 13;
               MapComponent.mapId := Some "DEMO_MAP_ID";
               MapComponent.onClick := Some 4; MapComponent.onIdle := None;
               MapComponent.google := Some 0 |} in
  let x := MapComponent.run (MapComponent.first_render p0)
             [MapComponent.Rendered p1;
              MapComponent.Settles (MapComponent.Imported 0);
              MapComponent.Settles (MapComponent.Imported 0)]
             (MapComponent.mount p0 (MapComponent.new_instance 0 [] empty_scene)) in
  length (MapComponent.maps x.1) = 2 /\ MapComponent.cell x.1 = Some 1.
Proof.
  intros p0 p1 x.
  destruct (map_constructed_twice 0 [] empty_scene 0 p0 p1)
    as (H1 & H2 & _); [reflexivity|reflexivity|discriminate|].
  fold x in H1, H2. split; [by rewrite H1|exact H2].
Defined.

Lemma removeListeners_live (ls : list nat) (l : nat) (rec : EventListener)
    (sc : Scene) :
  listeners (foldl (fun sc l => removeListener l sc) sc ls) !! l = Some rec ->
  live rec = true ->
  (l ∉ ls) /\ listeners sc !! l = Some rec.
Proof.
  revert sc. induction ls as [|l0 ls IH]; intros sc Hrec Hlive; simpl in *.
  - split; [apply not_elem_of_nil|done].
  - destruct (IH _ Hrec Hlive) as [Hnot Hrec'].
    apply removeListener_live in Hrec' as [Hne Hrec']; [|done].
    split; [|done]. intros [->|Hin]%elem_of_cons; done.
Qed.

Lemma map_listeners_inv_cleanup (i : nat) (x : MapComponent.Mounted) :
  map_listeners_inv x ->
  map_listeners_inv (React.run_cleanup _ _ _ MapComponent.effects i x).
Proof.
  destruct x as [st cls]. intros (Hlen & Hl). simpl in *.
  destruct cls as [|c0 [|c1 [|c2 [|? ?]]]]; try discriminate.
  unfold React.run_cleanup, map_listeners_inv.
  destruct i as [|[|[|i]]]; simpl; [| | |done].
  - destruct c0 as [c|]; simpl; done.
  - destruct c1 as [c|]; simpl; done.
  - destruct c2 as [ls|]; simpl; [|done].
    split; [done|]. intros l rec Hrec Hlive. exfalso.
    apply removeListeners_live in Hrec as [Hnot Hrec]; [|done].
    destruct (Hl l rec Hrec Hlive) as (ls' & [= <-] & Hin & _). done.
Qed.

Lemma map_listeners_inv_setup (r : MapComponent.Render) (i : nat)
    (x : MapComponent.Mounted) :
  map_listeners_inv x -> x.2 !! i = Some None ->
  map_listeners_inv (React.run_setup _ _ _ MapComponent.effects r i x).
Proof.
  destruct x as [st cls]. intros (Hlen & Hl) Hslot. simpl in *.
  destruct cls as [|c0 [|c1 [|c2 [|? ?]]]]; try discriminate.
  unfold React.run_setup, map_listeners_inv.
  destruct i as [|[|[|i]]]; simpl in *; [| | |done].
  - injection Hslot as ->.
    destruct (MapComponent.google (MapComponent.props r)),
      (MapComponent.containerRef st), (MapComponent.map r); simpl; done.
  - injection Hslot as ->.
    destruct (MapComponent.map r) as [n|]; simpl; [|done].
    split; [done|]. unfold MapComponent.update_map.
    destruct (MapComponent.maps st !! n); simpl; exact Hl.
  - injection Hslot as ->.
    assert (Hquiet : forall l rec,
              listeners (MapComponent.scene st) !! l = Some rec ->
              live rec = true -> False).
    { intros l rec Hrec Hlive.
      destruct (Hl l rec Hrec Hlive) as (ls & [=] & _). }
    destruct (MapComponent.map r) as [n|],
      (MapComponent.google (MapComponent.props r)); simpl;
      try (split; [done|]; intros l rec Hrec Hlive; exfalso;
           by apply (Hquiet l rec)).
    split; [done|]. intros l rec Hrec Hlive. eexists. split; [done|].
    destruct (MapComponent.onClick (MapComponent.props r)) as [h1|],
      (MapComponent.onIdle (MapComponent.props r)) as [h2|]; simpl in *.
    + split; [|lia].
      destruct (decide (l < length (listeners (MapComponent.scene st))))
        as [Hlt|Hge].
      * rewrite <- app_assoc, lookup_app_l in Hrec by done.
        exfalso. by apply (Hquiet l rec).
      * apply lookup_lt_Some in Hrec as Hlt. rewrite !length_app in Hlt.
        simpl in Hlt. rewrite length_app. simpl.
        assert (l = length (listeners (MapComponent.scene st))
                \/ l = length (listeners (MapComponent.scene st)) + 1)
          as [-> | ->] by lia; rewrite !elem_of_cons; auto.
    + split; [|lia].
      destruct (decide (l < length (listeners (MapComponent.scene st))))
        as [Hlt|Hge].
      * rewrite lookup_app_l in Hrec by done.
        exfalso. by apply (Hquiet l rec).
      * apply lookup_lt_Some in Hrec as Hlt. rewrite length_app in Hlt.
        simpl in Hlt.
        assert (l = length (listeners (MapComponent.scene st))) as -> by lia.
        rewrite !elem_of_cons; auto.
    + split; [|lia].
      destruct (decide (l < length (listeners (MapComponent.scene st))))
        as [Hlt|Hge].
      * rewrite lookup_app_l in Hrec by done.
        exfalso. by apply (Hquiet l rec).
      * apply lookup_lt_Some in Hrec as Hlt. rewrite length_app in Hlt.
        simpl in Hlt.
        assert (l = length (listeners (MapComponent.scene st))) as -> by lia.
        rewrite !elem_of_cons; auto.
    + exfalso. by apply (Hquiet l rec).
Qed.

Lemma map_settle_scene (e : MapComponent.Import) (st : MapComponent.State) :
  MapComponent.scene (MapComponent.settle_import e st) = MapComponent.scene st.
Proof.
  destruct e as [i|i]; simpl; [|done].
  destruct (MapComponent.waiting st !! i) as [r|]; [|done].
  unfold MapComponent.initMap_resumed. simpl.
  by destruct (MapComponent.containerRef st).
Qed.

Lemma map_listeners_inv_run (prev : MapComponent.Render)
    (evs : list MapComponent.Event) (x : MapComponent.Mounted) :
  map_listeners_inv x -> map_listeners_inv (MapComponent.run prev evs x).
Proof.
  revert prev x. induction evs as [|e evs IH]; intros prev x Hx; [done|].
  destruct e as [p|e]; simpl; apply IH.
  - unfold React.update.
    apply (flush_inv _ _ _ MapComponent.effects map_listeners_inv
             (fun _ => True)).
    + intros i y _ Hy. by apply map_listeners_inv_cleanup.
    + intros i y _ Hy. by apply map_listeners_inv_setup.
    + apply changed_NoDup.
    + intros i Hi. apply changed_spec in Hi as [Hlt _].
      destruct Hx as (Hlen & _). rewrite Hlen.
      split; [done|]. split; [done|]. by apply lookup_lt_is_Some.
    + done.
  - destruct Hx as (Hlen & Hl). split; [done|]. simpl.
    rewrite map_settle_scene. exact Hl.
Qed.

(** X25: a [Map] never piles up listeners and removes them all when it
    goes.  Started with no live listener, after the first render and any
    history of renders, with any props, and of imports ending, at most two
    listeners are live (those that the last run of the third effect
    added); and when the component is removed none is live. *)
Theorem map_listeners_no_leftovers (d : nat) (ms : list MapObject) (sc : Scene)
    (p0 : MapComponent.Props) (evs : list MapComponent.Event) :
  (forall l rec, listeners sc !! l = Some rec -> live rec = false) ->
  let x := MapComponent.run (MapComponent.first_render p0) evs
             (MapComponent.mount p0 (MapComponent.new_instance d ms sc)) in
  (exists ls, length ls <= 2 /\
     forall l rec, listeners (MapComponent.scene x.1) !! l = Some rec ->
       live rec = true -> l ∈ ls) /\
  (forall l rec,
     listeners (MapComponent.scene
                  (React.unmount _ _ _ MapComponent.effects x).1) !! l = Some rec ->
     live rec = false).
Proof.
  intros Hsc x.
  assert (Hx : map_listeners_inv x).
  { apply map_listeners_inv_run. rewrite map_mount.
    destruct (MapComponent.google p0); (split; [done|]); simpl;
      intros l rec Hrec Hlive; rewrite (Hsc l rec Hrec) in Hlive; done. }
  split.
  - destruct Hx as (Hlen & Hl).
    destruct x as [st cls]. simpl in *.
    destruct cls as [|c0 [|c1 [|c2 [|? ?]]]]; try discriminate.
    destruct c2 as [ls|].
    + destruct (decide (length ls <= 2)) as [Hle|Hgt].
      * exists ls. split; [done|]. intros l rec Hrec Hlive.
        by destruct (Hl l rec Hrec Hlive) as (ls' & [= <-] & Hin & _).
      * exists []. split; [simpl; lia|]. intros l rec Hrec Hlive.
        destruct (Hl l rec Hrec Hlive) as (ls' & [= <-] & _ & Hle). lia.
    + exists []. split; [simpl; lia|]. intros l rec Hrec Hlive.
      by destruct (Hl l rec Hrec Hlive) as (ls' & [=] & _).
  - assert (Hu : map_listeners_inv (React.unmount _ _ _ MapComponent.effects x)).
    { apply (run_cleanups_inv _ _ _ MapComponent.effects map_listeners_inv
               (fun _ => True)); try done.
      intros i y _. apply map_listeners_inv_cleanup. }
    assert (Hslot : (React.unmount _ _ _ MapComponent.effects x).2 !! 2
                    = Some None).
    { destruct Hx as (Hlen & _). apply run_cleanups_cleared.
      - apply all_effects_spec. simpl. lia.
      - rewrite Hlen. lia.
      - apply lookup_lt_is_Some. simpl. lia. }
    destruct Hu as (_ & Hl). intros l rec Hrec.
    destruct (live rec) eqn:Hlive; [|done].
    destruct (Hl l rec Hrec Hlive) as (ls & Hls & _). congruence.
Qed.

Lemma map_listeners_no_leftovers_witness :
  let p0 := {| MapComponent.center := 1; MapComponent.zoom := 13;
               MapComponent.mapId := None;
               MapComponent.onClick := Some 2; MapComponent.onIdle := Some 3;
               MapComponent.google := Some 0 |} in
  let p1 := {| MapComponent.center := 1; MapComponent.zoom := 13;
               MapComponent.mapId := None;
               MapComponent.onClick := Some 4; MapComponent.onIdle := Some 3;
               MapComponent.google := Some 0 |} in
  let x := MapComponent.run (MapComponent.first_render p0)
             [MapComponent.Settles (MapComponent.Imported 0);
              MapComponent.Rendered p0; MapComponent.Rendered p1]
             (MapComponent.mount p0 (MapComponent.new_instance 0 [] empty_scene)) in
  length (listeners (MapComponent.scene x.1)) = 4 /\
  forall l rec,
    listeners (MapComponent.scene
                 (React.unmount _ _ _ MapComponent.effects x).1) !! l = Some rec ->
    live rec = false.
Proof.
  intros p0 p1 x. split; [reflexivity|].
  apply (map_listeners_no_leftovers 0 [] empty_scene p0
           [MapComponent.Settles (MapComponent.Imported 0);
            MapComponent.Rendered p0; MapComponent.Rendered p1]).
  intros l rec H. simpl in H. discriminate H.
Defined.

(** *** One map under unchanged options *)






